(** * kmk/modules/combos.py : the combo engine of the KMK keyboard firmware

    A shallow embedding of the [Combo], [Chord], [Sequence] and [Combos]
    classes, followed by the properties the specification states about them.

    Python objects are mutated in place and shared by reference; the
    embedding threads one [World] through a small state-and-exception monad.
    The combo objects of the registry live in the list [combos] and are
    referred to by their position in it (this is what [_pending_combos]
    holds), so that a change made through one reference is seen through
    every other. *)

From Stdlib Require Import ZArith QArith List Bool Lia Permutation.
Import ListNotations.
Local Open Scope Z_scope.

(* ================================================================== *)
(** * Keys, coordinates and match members *)
(* ================================================================== *)

(** A [kmk.keys.Key] object. Two keys are equal when they are the same key
    object; the embedding identifies a key object by a number. *)
Inductive Key : Type := KC (code : nat).

(** [int_coord : Optional[int]]. *)
Definition Coord : Type := option Z.

(** A member of [match : Tuple[Union[Key, int], ...]]. A key never equals an
    integer. *)
Inductive Ref : Type :=
| RKey (k : Key)
| RCoord (c : Z).

Definition key_eqb (a b : Key) : bool :=
  match a, b with KC x, KC y => Nat.eqb x y end.

Definition coord_eqb (a b : Coord) : bool :=
  match a, b with
  | None, None => true
  | Some x, Some y => Z.eqb x y
  | _, _ => false
  end.

Definition ref_eqb (a b : Ref) : bool :=
  match a, b with
  | RKey x, RKey y => key_eqb x y
  | RCoord x, RCoord y => Z.eqb x y
  | _, _ => false
  end.

(** [x in l] for a key. *)
Definition key_in (k : Key) (l : list Ref) : bool := existsb (ref_eqb (RKey k)) l.

(** [int_coord in l]; [None] is a member of no match. *)
Definition coord_in (c : Coord) (l : list Ref) : bool :=
  match c with
  | Some z => existsb (ref_eqb (RCoord z)) l
  | None => false
  end.

(** [l[0] == int_coord]. *)
Definition ref_is_coord (r : Ref) (c : Coord) : bool :=
  match c with
  | Some z => ref_eqb r (RCoord z)
  | None => false
  end.

(** [list.remove(x)]: drops the first element equal to [x]; [None] stands
    for the [ValueError] Python raises when there is none. *)
Fixpoint list_remove (x : Ref) (l : list Ref) : option (list Ref) :=
  match l with
  | [] => None
  | y :: l' =>
      if ref_eqb y x then Some l'
      else match list_remove x l' with
           | Some r => Some (y :: r)
           | None => None
           end
  end.

(* ================================================================== *)
(** * Combo objects *)
(* ================================================================== *)

(** [class _ComboState]. *)
Inductive ComboState : Type := RESET | MATCHING | ACTIVE | IDLE.

Definition state_eqb (a b : ComboState) : bool :=
  match a, b with
  | RESET, RESET | MATCHING, MATCHING | ACTIVE, ACTIVE | IDLE, IDLE => true
  | _, _ => false
  end.

(** The two subclasses of [Combo]; they differ in [matches], [uses_match]
    and the class-level defaults. *)
Inductive ComboKind : Type := Chord | Sequence.

(** One combo object. [pressed] is [None] as long as the attribute does not
    exist: [__init__] takes a [pressed] argument but never stores it, the
    attribute is created by [reset]. [_remaining] starts as the class
    attribute [[]]. *)
Record Combo : Type := mkCombo {
  kind : ComboKind;
  match_ : list Ref;
  result : Key;
  fast_reset : bool;
  per_key_timeout : bool;
  timeout : Z;
  _match_coord : bool;
  _remaining : list Ref;
  pressed : option (list Ref);
  _state : ComboState
}.

Definition with_remaining (r : list Ref) (c : Combo) : Combo :=
  mkCombo (kind c) (match_ c) (result c) (fast_reset c) (per_key_timeout c)
          (timeout c) (_match_coord c) r (pressed c) (_state c).

Definition with_pressed (p : option (list Ref)) (c : Combo) : Combo :=
  mkCombo (kind c) (match_ c) (result c) (fast_reset c) (per_key_timeout c)
          (timeout c) (_match_coord c) (_remaining c) p (_state c).

Definition with_state (s : ComboState) (c : Combo) : Combo :=
  mkCombo (kind c) (match_ c) (result c) (fast_reset c) (per_key_timeout c)
          (timeout c) (_match_coord c) (_remaining c) (pressed c) s.

(** What the configuration passes to a constructor: [None] for an argument
    left at its default [None]. *)
Record ComboDef : Type := mkDef {
  d_kind : ComboKind;
  d_match : list Ref;
  d_result : Key;
  d_fast_reset : option bool;
  d_per_key_timeout : option bool;
  d_timeout : option Z;
  d_match_coord : option bool
}.

Definition or_default {A : Type} (o : option A) (d : A) : A :=
  match o with Some a => a | None => d end.

(** Class-level defaults: [Combo] has [fast_reset = False],
    [per_key_timeout = False], [timeout = 50]; [Sequence] overrides them with
    [True], [True], [1000]. *)
Definition default_fast_reset (k : ComboKind) : bool :=
  match k with Chord => false | Sequence => true end.
Definition default_per_key_timeout (k : ComboKind) : bool :=
  match k with Chord => false | Sequence => true end.
Definition default_timeout (k : ComboKind) : Z :=
  match k with Chord => 50 | Sequence => 1000 end.

(** [Combo.__init__]. *)
Definition Combo_init (d : ComboDef) : Combo :=
  mkCombo (d_kind d) (d_match d) (d_result d)
          (or_default (d_fast_reset d) (default_fast_reset (d_kind d)))
          (or_default (d_per_key_timeout d) (default_per_key_timeout (d_kind d)))
          (or_default (d_timeout d) (default_timeout (d_kind d)))
          (or_default (d_match_coord d) false)
          [] None RESET.

(** [Combo.has_match]:
    [self._match_coord and int_coord in self.match or key in self.match]. *)
Definition has_match (c : Combo) (key : Key) (int_coord : Coord) : bool :=
  (_match_coord c && coord_in int_coord (match_ c)) || key_in key (match_ c).

(* ================================================================== *)
(** * The world: class attributes, the engine instance, the keyboard *)
(* ================================================================== *)

(** A timer handle as returned by [keyboard.set_timeout]. *)
Definition Handle : Type := nat.

(** An entry of [_key_buffer]: [(int_coord, key, is_pressed, timepoint)]. *)
Definition BufEvent : Type := (Coord * Key * bool * Z)%type.

(** What the engine asks of the keyboard, and the keyboard firing a timer. *)
Inductive KbdCall : Type :=
| ResumeProcessKey (key : Key) (is_pressed : bool) (int_coord : Coord)
| SetTimeout (after_ticks : Z) (h : Handle) (due : Z)
| CancelTimeout (h : Handle)
| TimerFired (h : Handle).

(** Modelled from the spec: the keyboard the engine talks to
    ([resume_process_key], [set_timeout], [cancel_timeout]) and the clock
    [ticks_ms] are external collaborators that are not part of the module.
    The keyboard is a log of the calls it received, newest first, and a
    supply of fresh timer handles; a handle is an object, hence truthy. The
    clock is the field [ticks], set by the driver on every entry. *)
Record World : Type := mkWorld {
  (* class attributes of Combos *)
  Combos_match_count : Z;
  Combos_start_timepoint : option Z;
  (* attributes of the instance self *)
  combos : list Combo;
  _key_buffer : list BufEvent;
  _pending_combos : list nat;
  _timeout : option Handle;
  self_start_timepoint : option (option Z);
  (* environment *)
  kbd_log : list KbdCall;
  kbd_next : Handle;
  ticks : Z
}.

Definition set_match_count (v : Z) (w : World) : World :=
  mkWorld v (Combos_start_timepoint w) (combos w) (_key_buffer w)
          (_pending_combos w) (_timeout w) (self_start_timepoint w)
          (kbd_log w) (kbd_next w) (ticks w).

Definition set_cls_start_timepoint (v : option Z) (w : World) : World :=
  mkWorld (Combos_match_count w) v (combos w) (_key_buffer w)
          (_pending_combos w) (_timeout w) (self_start_timepoint w)
          (kbd_log w) (kbd_next w) (ticks w).

Definition set_combos (v : list Combo) (w : World) : World :=
  mkWorld (Combos_match_count w) (Combos_start_timepoint w) v (_key_buffer w)
          (_pending_combos w) (_timeout w) (self_start_timepoint w)
          (kbd_log w) (kbd_next w) (ticks w).

Definition set_key_buffer (v : list BufEvent) (w : World) : World :=
  mkWorld (Combos_match_count w) (Combos_start_timepoint w) (combos w) v
          (_pending_combos w) (_timeout w) (self_start_timepoint w)
          (kbd_log w) (kbd_next w) (ticks w).

Definition set_pending_combos (v : list nat) (w : World) : World :=
  mkWorld (Combos_match_count w) (Combos_start_timepoint w) (combos w)
          (_key_buffer w) v (_timeout w) (self_start_timepoint w)
          (kbd_log w) (kbd_next w) (ticks w).

Definition set__timeout (v : option Handle) (w : World) : World :=
  mkWorld (Combos_match_count w) (Combos_start_timepoint w) (combos w)
          (_key_buffer w) (_pending_combos w) v (self_start_timepoint w)
          (kbd_log w) (kbd_next w) (ticks w).

Definition set_self_start_timepoint (v : option (option Z)) (w : World) : World :=
  mkWorld (Combos_match_count w) (Combos_start_timepoint w) (combos w)
          (_key_buffer w) (_pending_combos w) (_timeout w) v
          (kbd_log w) (kbd_next w) (ticks w).

Definition set_kbd (l : list KbdCall) (n : Handle) (w : World) : World :=
  mkWorld (Combos_match_count w) (Combos_start_timepoint w) (combos w)
          (_key_buffer w) (_pending_combos w) (_timeout w)
          (self_start_timepoint w) l n (ticks w).

Definition set_ticks (t : Z) (w : World) : World :=
  mkWorld (Combos_match_count w) (Combos_start_timepoint w) (combos w)
          (_key_buffer w) (_pending_combos w) (_timeout w)
          (self_start_timepoint w) (kbd_log w) (kbd_next w) t.

(** Reading [self.start_timepoint]: the instance attribute when there is
    one, the class attribute otherwise. *)
Definition start_timepoint (w : World) : option Z :=
  match self_start_timepoint w with
  | Some v => v
  | None => Combos_start_timepoint w
  end.

(** [l[i] = f(l[i])]; nothing happens out of range. *)
Fixpoint list_update {A : Type} (i : nat) (f : A -> A) (l : list A) : list A :=
  match l, i with
  | [], _ => []
  | x :: l', O => f x :: l'
  | x :: l', S i' => x :: list_update i' f l'
  end.

(* ================================================================== *)
(** * The monad *)
(* ================================================================== *)

(** The exceptions the module can raise. [StaleReference] is not a Python
    exception: it is the embedding's answer to a combo reference that points
    outside the registry, which no reference the engine creates does. *)
Inductive Exn : Type := AttributeError | ValueError | TypeError | StaleReference.

Inductive Outcome (A : Type) : Type :=
| Returned (a : A)
| Raised (e : Exn)
| OutOfFuel.
Arguments Returned {A} a.
Arguments Raised {A} e.
Arguments OutOfFuel {A}.

Definition M (A : Type) : Type := World -> Outcome A * World.

Definition ret {A : Type} (a : A) : M A := fun w => (Returned a, w).

Definition bind {A B : Type} (m : M A) (f : A -> M B) : M B :=
  fun w =>
    match m w with
    | (Returned a, w') => f a w'
    | (Raised e, w') => (Raised e, w')
    | (OutOfFuel, w') => (OutOfFuel, w')
    end.

Definition raise {A : Type} (e : Exn) : M A := fun w => (Raised e, w).
Definition out_of_fuel {A : Type} : M A := fun w => (OutOfFuel, w).
Definition get {A : Type} (f : World -> A) : M A := fun w => (Returned (f w), w).
Definition modify (f : World -> World) : M unit := fun w => (Returned tt, f w).

Declare Scope py_scope.
Delimit Scope py_scope with py.
Notation "x <- m ;; k" := (bind m (fun x => k))
  (at level 61, m at next level, right associativity) : py_scope.
Notation "' p <- m ;; k" := (bind m (fun x => match x with p => k end))
  (at level 61, p pattern, m at next level, right associativity) : py_scope.
Notation "m ;; k" := (bind m (fun _ => k))
  (at level 61, right associativity) : py_scope.
Local Open Scope py_scope.

(** [if cond: body] with no [else]. *)
Definition when (b : bool) (m : M unit) : M unit := if b then m else ret tt.

(** [for x in l: body]. *)
Fixpoint for_each {A : Type} (l : list A) (body : A -> M unit) : M unit :=
  match l with
  | [] => ret tt
  | x :: l' => body x ;; for_each l' body
  end.

(** A [for] loop that updates local variables, held in [acc]. *)
Fixpoint for_fold {A B : Type} (l : list A) (acc : B) (body : B -> A -> M B) : M B :=
  match l with
  | [] => ret acc
  | x :: l' => acc' <- body acc x ;; for_fold l' acc' body
  end.

(* ------------------------------------------------------------------ *)
(** ** The keyboard and the clock *)

Definition resume_process_key (key : Key) (is_pressed : bool) (int_coord : Coord) : M unit :=
  modify (fun w => set_kbd (ResumeProcessKey key is_pressed int_coord :: kbd_log w)
                           (kbd_next w) w).

Definition set_timeout (after_ticks : Z) : M Handle :=
  fun w => (Returned (kbd_next w),
            set_kbd (SetTimeout after_ticks (kbd_next w) (ticks w + after_ticks) :: kbd_log w)
                    (S (kbd_next w)) w).

Definition cancel_timeout (h : Handle) : M unit :=
  modify (fun w => set_kbd (CancelTimeout h :: kbd_log w) (kbd_next w) w).

Definition ticks_ms : M Z := get ticks.

(* ================================================================== *)
(** * Methods of [Combo], [Chord] and [Sequence] *)
(* ================================================================== *)

(** Dereferencing the combo object number [i] of the registry. *)
Definition combo_at (i : nat) : M Combo :=
  fun w =>
    match nth_error (combos w) i with
    | Some c => (Returned c, w)
    | None => (Raised StaleReference, w)
    end.

(** Assigning to attributes of the combo object number [i]. *)
Definition update_combo (i : nat) (f : Combo -> Combo) : M unit :=
  modify (fun w => set_combos (list_update i f (combos w)) w).

Definition add_match_count (d : Z) : M unit :=
  modify (fun w => set_match_count (Combos_match_count w + d) w).

(** The setter of the property [Combo.state]; it counts on the class
    attribute [Combos.match_count]. *)
Definition set_state (i : nat) (new_state : ComboState) : M unit :=
  c <- combo_at i ;;
  if state_eqb (_state c) new_state then ret tt
  else
    when (state_eqb new_state MATCHING) (add_match_count 1) ;;
    when (state_eqb (_state c) MATCHING) (add_match_count (-1)) ;;
    update_combo i (with_state new_state).

(** [Combo.reset]. *)
Definition reset (i : nat) : M unit :=
  c <- combo_at i ;;
  update_combo i (with_remaining (match_ c)) ;;
  update_combo i (with_pressed (Some [])) ;;
  set_state i MATCHING.

(** [self._remaining.remove(x)]. *)
Definition remaining_remove (i : nat) (x : option Ref) : M unit :=
  c <- combo_at i ;;
  match x with
  | Some r =>
      match list_remove r (_remaining c) with
      | Some l => update_combo i (with_remaining l)
      | None => raise ValueError
      end
  | None => raise ValueError
  end.

Definition coord_ref (c : Coord) : option Ref :=
  match c with Some z => Some (RCoord z) | None => None end.

(** [Chord.matches]. *)
Definition Chord_matches (i : nat) (key : Key) (int_coord : Coord) : M bool :=
  c <- combo_at i ;;
  if negb (_match_coord c) && key_in key (_remaining c) then
    remaining_remove i (Some (RKey key)) ;; ret true
  else if _match_coord c && coord_in int_coord (_remaining c) then
    remaining_remove i (coord_ref int_coord) ;; ret true
  else ret false.

(** [Sequence.matches]. In [self.pressed.append(self._remaining.pop(0))]
    the attribute [pressed] is looked up before the head is popped. *)
Definition Sequence_matches (i : nat) (key : Key) (int_coord : Coord) : M bool :=
  c <- combo_at i ;;
  match _remaining c with
  | r0 :: rest =>
      if (negb (_match_coord c) && ref_eqb r0 (RKey key))
         || (_match_coord c && ref_is_coord r0 int_coord)
      then
        match pressed c with
        | None => raise AttributeError
        | Some p =>
            update_combo i (with_remaining rest) ;;
            update_combo i (with_pressed (Some (p ++ [r0]))) ;;
            ret true
        end
      else ret false
  | [] => ret false
  end.

Definition matches (i : nat) (key : Key) (int_coord : Coord) : M bool :=
  c <- combo_at i ;;
  match kind c with
  | Chord => Chord_matches i key int_coord
  | Sequence => Sequence_matches i key int_coord
  end.

(** [Combo.uses_match] and its override [Sequence.uses_match]. *)
Definition uses_match (i : nat) (key : Key) (int_coord : Coord) : M bool :=
  c <- combo_at i ;;
  match kind c with
  | Chord => ret (has_match c key int_coord)
  | Sequence =>
      if has_match c key int_coord then
        match pressed c with
        | None => raise AttributeError
        | Some p =>
            ret ((_match_coord c && coord_in int_coord p)
                 || (negb (_match_coord c) && key_in key p))
        end
      else ret false
  end.

(** [Combo.unpress]: [self.pressed.remove(...)]. *)
Definition unpress (i : nat) (key : Key) (int_coord : Coord) : M unit :=
  c <- combo_at i ;;
  match pressed c with
  | None => raise AttributeError
  | Some p =>
      let x := if _match_coord c then coord_ref int_coord else Some (RKey key) in
      match x with
      | Some r =>
          match list_remove r p with
          | Some p' => update_combo i (with_pressed (Some p'))
          | None => raise ValueError
          end
      | None => raise ValueError
      end
  end.

(* ================================================================== *)
(** * Methods of [Combos] that do not re-enter [process_key] *)
(* ================================================================== *)

(** [for combo in self.combos: body]. *)
Definition for_combos (body : nat -> M unit) : M unit :=
  n <- get (fun w => length (combos w)) ;;
  for_each (seq 0 n) body.

(** [Combos.activate] and [Combos.deactivate]; the calls to [debug] only
    print. [resume_process_key] is called without a coordinate. *)
Definition activate (i : nat) : M unit :=
  c <- combo_at i ;; resume_process_key (result c) true None.

Definition deactivate (i : nat) : M unit :=
  c <- combo_at i ;; resume_process_key (result c) false None.

(** [Combos.reset_combos]. *)
Definition reset_combos : M unit :=
  for_combos (fun i =>
    c <- combo_at i ;;
    when (negb (state_eqb (_state c) ACTIVE)) (reset i)).

(** The dict [buffer_pressed_vs_released], keyed by [(coord, key)], in
    insertion order. *)
Definition Balance : Type := list ((Coord * Key) * Z).

Definition same_source (a b : Coord * Key) : bool :=
  coord_eqb (fst a) (fst b) && key_eqb (snd a) (snd b).

Fixpoint dict_mem (k : Coord * Key) (d : Balance) : bool :=
  match d with
  | [] => false
  | (k', _) :: d' => same_source k' k || dict_mem k d'
  end.

Fixpoint dict_add (k : Coord * Key) (delta : Z) (d : Balance) : Balance :=
  match d with
  | [] => []
  | (k', v) :: d' =>
      if same_source k' k then (k', v + delta) :: d'
      else (k', v) :: dict_add k delta d'
  end.

Definition count_event (d : Balance) (e : BufEvent) : Balance :=
  let '(buffer_coord, buffer_key, buffer_pressed, _) := e in
  let k := (buffer_coord, buffer_key) in
  let d0 := if dict_mem k d then d else d ++ [(k, 0)] in
  dict_add k (if buffer_pressed then 1 else -1) d0.

Definition buffer_pressed_vs_released (buf : list BufEvent) : Balance :=
  fold_left count_event buf [].

(** The inner loop of [send_pending_combos], which ends at its first hit
    ([break]). *)
Fixpoint deactivate_if_released (i : nat) (items : Balance) : M unit :=
  match items with
  | [] => ret tt
  | ((buffer_coord, buffer_key), count) :: rest =>
      c <- combo_at i ;;
      if (count <=? 0) && has_match c buffer_key buffer_coord then
        deactivate i ;; set_state i RESET
      else deactivate_if_released i rest
  end.

(** [Combos.send_pending_combos]. *)
Definition send_pending_combos : M unit :=
  buf <- get _key_buffer ;;
  let balance := buffer_pressed_vs_released buf in
  pending <- get _pending_combos ;;
  for_each pending (fun i =>
    activate i ;;
    set_state i ACTIVE ;;
    deactivate_if_released i balance) ;;
  modify (set_pending_combos []) ;;
  modify (set_key_buffer []) ;;
  reset_combos ;;
  modify (set_self_start_timepoint (Some None)).

(** [a / b] rounded to the nearest integer, a tie to the even one; [b > 0]. *)
Definition round_half_even (a b : Z) : Z :=
  let q := a / b in
  let r := a mod b in
  if 2 * r <? b then q
  else if b <? 2 * r then q + 1
  else if Z.even q then q else q + 1.

(** The exponent of the last place of the float nearest to [n / d], for
    [n <> 0]: the [e] with [2^52 <= |n / d| / 2^e < 2^53]. *)
Definition last_place (n : Z) (d : positive) : Z :=
  let k := Z.log2 (Z.abs n) - Z.log2 (Zpos d) in
  let reached :=
    if 0 <=? k then Zpos d * 2 ^ k <=? Z.abs n
    else Zpos d <=? Z.abs n * 2 ^ (- k) in
  (if reached then k else k - 1) - 52.

(** [n / d] for two ints. True division gives a float: the one nearest to
    the quotient, with a significand of 53 bits, a tie going to the even
    significand. A float is a rational, and is kept as one. The quotient of
    two readings of the clock is far from the floats that overflow, where
    Python raises [OverflowError]; that exception is not part of the
    embedding. *)
Definition true_div (n : Z) (d : positive) : Q :=
  if n =? 0 then 0%Q
  else
    let e := last_place n d in
    if 0 <=? e then inject_Z (round_half_even n (Zpos d * 2 ^ e) * 2 ^ e)
    else Qmake (round_half_even (n * 2 ^ (- e)) (Zpos d)) (Z.to_pos (2 ^ (- e))).

(** [(current_timepoint - t) / 1000]. Subtracting [None] raises
    [TypeError]. *)
Definition elapsed (current_timepoint : Z) (t : option Z) : M Q :=
  match t with
  | Some t0 => ret (true_div (current_timepoint - t0) 1000)
  | None => raise TypeError
  end.

(** [d < combo.timeout], a float against an int: Python compares the two
    values exactly. *)
Definition Qltb (x y : Q) : bool := negb (Qle_bool y x).

Definition within (d : Q) (c : Combo) : bool := Qltb d (inject_Z (timeout c)).

Definition nonempty {A : Type} (l : list A) : bool :=
  match l with [] => false | _ :: _ => true end.

(** [self._key_buffer[-1][-1]]. *)
Definition last_timestamp (buf : list BufEvent) : option Z :=
  match rev buf with
  | (_, _, _, t) :: _ => Some t
  | [] => None
  end.

(** [if self._timeout: keyboard.cancel_timeout(self._timeout)]. *)
Definition cancel_outstanding : M unit :=
  t <- get _timeout ;;
  match t with
  | Some h => cancel_timeout h
  | None => ret tt
  end.

(** [self._timeout = keyboard.set_timeout(longest_timeout, lambda: ...)]. *)
Definition arm_timeout (longest_timeout : Z) : M unit :=
  h <- set_timeout longest_timeout ;;
  modify (set__timeout (Some h)).

(** The sum [press_vs_released] of [on_release]. *)
Definition press_vs_released (buf : list BufEvent) (key : Key) (int_coord : Coord) : Z :=
  fold_right Z.add 0
    (map (fun e : BufEvent => let '(_, _, p, _) := e in if p then 1 else -1)
         (filter (fun e : BufEvent =>
                    let '(c, k, _, _) := e in coord_eqb c int_coord && key_eqb k key)
                 buf)).

(* ================================================================== *)
(** * [on_press], [on_release], [flush_buffers], [process_key] *)
(* ================================================================== *)

(** [on_press] calls [flush_buffers] and [process_key], [flush_buffers]
    calls [process_key], which calls [on_press] and [on_release]. The
    bodies are written over the [process_key] they call; the knot is tied
    below by recursion on a fuel, which also bounds the [while] loop of
    [flush_buffers]. *)
Section Bodies.

Variable process_key_rec : Key -> bool -> Coord -> M unit.

(** The body of the inner [for] of [flush_buffers], for the press
    [(int_coord, key)] that was just sent. *)
Definition replay_one (key : Key) (int_coord : Coord) (e : BufEvent) : M unit :=
  let '(buffer_int_coord, buffer_key, buffer_is_pressed, _) := e in
  when (negb buffer_is_pressed && key_eqb key buffer_key
        && coord_eqb int_coord buffer_int_coord)
       (resume_process_key buffer_key buffer_is_pressed buffer_int_coord) ;;
  process_key_rec buffer_key buffer_is_pressed buffer_int_coord.

(** [while self._key_buffer: ...], at most [n] rounds. *)
Fixpoint flush_while (n : nat) : M unit :=
  buf <- get _key_buffer ;;
  match buf with
  | [] => ret tt
  | (int_coord, key, is_pressed, timepoint) :: rest =>
      match n with
      | O => out_of_fuel
      | S n' =>
          modify (set_key_buffer rest) ;;
          resume_process_key key is_pressed int_coord ;;
          when is_pressed (
            reset_combos ;;
            modify (set_self_start_timepoint (Some (Some timepoint))) ;;
            old_buffer <- get _key_buffer ;;
            modify (set_key_buffer []) ;;
            for_each old_buffer (replay_one key int_coord)) ;;
          flush_while n'
      end
  end.

(** [Combos.flush_buffers]. *)
Definition flush_buffers (n : nat) : M unit :=
  pending <- get _pending_combos ;;
  when (nonempty pending) send_pending_combos ;;
  flush_while n.

(** The body of [for combo in self.combos] in [on_press]; the pair is
    [(longest_timeout, matching_unfinished)]. *)
Definition on_press_combo (key : Key) (int_coord : Coord) (d_last d_start : Q)
           (acc : Z * Z) (i : nat) : M (Z * Z) :=
  let '(longest_timeout, matching_unfinished) := acc in
  c <- combo_at i ;;
  if negb (state_eqb (_state c) MATCHING) then ret acc
  else
    m <- matches i key int_coord ;;
    c <- combo_at i ;;
    if m && ((per_key_timeout c && within d_last c)
             || (negb (per_key_timeout c) && within d_start c))
    then
      if (length (_remaining c) =? 0)%nat then
        modify (fun w => set_pending_combos (_pending_combos w ++ [i]) w) ;;
        ret (Z.max longest_timeout (timeout c), matching_unfinished)
      else
        ret (Z.max longest_timeout (timeout c), matching_unfinished + 1)
    else
      reset i ;;
      set_state i RESET ;;
      ret acc.

(** [Combos.on_press]. *)
Definition on_press (n : nat) (key : Key) (int_coord : Coord) : M unit :=
  cancel_outstanding ;;
  current_timepoint <- ticks_ms ;;
  st <- get start_timepoint ;;
  when (match st with None => true | Some _ => false end)
       (modify (set_self_start_timepoint (Some (Some current_timepoint)))) ;;
  buf <- get _key_buffer ;;
  st <- get start_timepoint ;;
  let last_timepoint :=
    if nonempty buf then last_timestamp buf else st in
  modify (set_pending_combos []) ;;
  d_last <- elapsed current_timepoint last_timepoint ;;
  st <- get start_timepoint ;;
  d_start <- elapsed current_timepoint st ;;
  len <- get (fun w => length (combos w)) ;;
  '(longest_timeout, matching_unfinished) <-
    for_fold (seq 0 len) (0, 0) (on_press_combo key int_coord d_last d_start) ;;
  mc <- get Combos_match_count ;;
  if mc =? 0 then
    pending <- get _pending_combos ;;
    buf <- get _key_buffer ;;
    if nonempty pending || nonempty buf then
      flush_buffers n ;;
      modify (set_self_start_timepoint (Some (Some current_timepoint))) ;;
      process_key_rec key true int_coord
    else
      resume_process_key key true int_coord ;;
      reset_combos
  else
    modify (fun w => set_key_buffer
                       (_key_buffer w ++ [(int_coord, key, true, current_timepoint)]) w) ;;
    if matching_unfinished =? 0 then send_pending_combos
    else arm_timeout longest_timeout.

(** The body of [for combo in self.combos] in [on_release]; the triple is
    [(longest_timeout, propagate_release, buffer_release)]. *)
Definition on_release_combo (key : Key) (int_coord : Coord)
           (acc : Z * bool * bool) (i : nat) : M (Z * bool * bool) :=
  u <- uses_match i key int_coord ;;
  if negb u then ret acc
  else
    c <- combo_at i ;;
    acc1 <- (if state_eqb (_state c) ACTIVE then
               deactivate i ;;
               (if fast_reset c then reset i else set_state i MATCHING) ;;
               ret (fst (fst acc), false, snd acc)
             else ret acc) ;;
    c <- combo_at i ;;
    if state_eqb (_state c) MATCHING then
      if fast_reset c then
        unpress i key int_coord ;;
        ret (Z.max (fst (fst acc1)) (timeout c), false, true)
      else
        reset i ;; ret acc1
    else ret acc1.

(** [Combos.on_release]. *)
Definition on_release (n : nat) (key : Key) (int_coord : Coord) : M unit :=
  cancel_outstanding ;;
  current_timepoint <- ticks_ms ;;
  len <- get (fun w => length (combos w)) ;;
  '(longest_timeout, propagate_release, buffer_release) <-
    for_fold (seq 0 len) (0, true, false) (on_release_combo key int_coord) ;;
  buf <- get _key_buffer ;;
  propagate_release <-
    (if press_vs_released buf key int_coord >? 0 then
       modify (fun w => set_key_buffer
                          (_key_buffer w ++ [(int_coord, key, false, current_timepoint)]) w) ;;
       ret false
     else ret propagate_release) ;;
  mc <- get Combos_match_count ;;
  (if mc =? 0 then
     reset_combos ;;
     modify (set_key_buffer [])
   else if negb (longest_timeout =? 0) then arm_timeout longest_timeout
   else flush_buffers n) ;;
  when propagate_release (resume_process_key key false int_coord).

End Bodies.

(** [Combos.process_key]. *)
Fixpoint process_key (fuel : nat) (key : Key) (is_pressed : bool) (int_coord : Coord)
  : M unit :=
  match fuel with
  | O => out_of_fuel
  | S fuel' =>
      if is_pressed then on_press (process_key fuel') fuel' key int_coord
      else on_release (process_key fuel') fuel' key int_coord
  end.

(** [Combos.on_timeout]. *)
Definition on_timeout (fuel : nat) : M unit :=
  modify (set_self_start_timepoint (Some None)) ;;
  flush_buffers (process_key fuel) fuel.

(** [Combos.during_bootup]. *)
Definition during_bootup : M unit := reset_combos.

(** [Combos.__init__], called with combos that were just constructed from
    the definitions [defs]: the two counters are assigned on the class, the
    rest on the new instance. [make_key] only registers the names [LEADER]
    and [LDR] with the key registry. The new instance replaces [self]. *)
Definition Combos_init (defs : list ComboDef) (w : World) : World :=
  mkWorld 0 None (map Combo_init defs) [] [] None None
          (kbd_log w) (kbd_next w) (ticks w).

(** The world when the class [Combos] has just been defined and a keyboard
    without history exists. *)
Definition class_defined : World :=
  mkWorld 0 None [] [] [] None None [] 1%nat 0.

(** A freshly constructed engine. *)
Definition fresh (defs : list ComboDef) : World := Combos_init defs class_defined.

(** A freshly constructed engine after the keyboard called [during_bootup]. *)
Definition booted (defs : list ComboDef) : World := snd (during_bootup (fresh defs)).

(* ================================================================== *)
(** * Timers, entries and what the keyboard sees *)
(* ================================================================== *)

(** The timers that are armed after a history of keyboard calls, oldest
    call last: [set_timeout] arms one, [cancel_timeout] and firing disarm
    it. Each armed timer comes with the time at which it is due. *)
Definition timer_step (armed : list (Handle * Z)) (c : KbdCall) : list (Handle * Z) :=
  match c with
  | SetTimeout _ h due => armed ++ [(h, due)]
  | CancelTimeout h => filter (fun p => negb (Nat.eqb (fst p) h)) armed
  | TimerFired h => filter (fun p => negb (Nat.eqb (fst p) h)) armed
  | ResumeProcessKey _ _ _ => armed
  end.

Fixpoint armed (log : list KbdCall) : list (Handle * Z) :=
  match log with
  | [] => []
  | c :: older => timer_step (armed older) c
  end.

(** The events forwarded downstream, oldest first. *)
Fixpoint forwarded (log : list KbdCall) : list (Key * bool) :=
  match log with
  | [] => []
  | ResumeProcessKey k p _ :: older => forwarded older ++ [(k, p)]
  | _ :: older => forwarded older
  end.

Definition downstream (w : World) : list (Key * bool) := forwarded (kbd_log w).

(** The entries into the engine. The main loop delivers key events through
    [process_key] and due timers through the callback given to
    [set_timeout]; every entry reads the clock at [t]. *)
Inductive Entry : Type :=
| Press (key : Key) (int_coord : Coord) (t : Z)
| Release (key : Key) (int_coord : Coord) (t : Z)
| Timeout (t : Z).

(** The keyboard takes the timer that fires, if one is armed, out of its
    table before it runs the callback. *)
Definition fire : M unit :=
  modify (fun w =>
            match armed (kbd_log w) with
            | (h, _) :: _ => set_kbd (TimerFired h :: kbd_log w) (kbd_next w) w
            | [] => w
            end).

Definition enter (fuel : nat) (e : Entry) : M unit :=
  match e with
  | Press key int_coord t =>
      modify (set_ticks t) ;; process_key fuel key true int_coord
  | Release key int_coord t =>
      modify (set_ticks t) ;; process_key fuel key false int_coord
  | Timeout t =>
      modify (set_ticks t) ;; fire ;; on_timeout fuel
  end.

(** A run of the main loop over a list of entries; an exception ends it. *)
Definition run (fuel : nat) (es : list Entry) : M unit := for_each es (enter fuel).

(** The raw key events of a list of entries. *)
Fixpoint raw_input (es : list Entry) : list (Key * bool) :=
  match es with
  | [] => []
  | Press k _ _ :: es' => (k, true) :: raw_input es'
  | Release k _ _ :: es' => (k, false) :: raw_input es'
  | Timeout _ :: es' => raw_input es'
  end.

(** Letting time pass until [t]: the armed timer fires when it is due, at
    most [n] times. *)
Fixpoint advance (n : nat) (fuel : nat) (t : Z) : M unit :=
  a <- get (fun w => armed (kbd_log w)) ;;
  match a with
  | (_, due) :: _ =>
      if due <=? t then
        match n with
        | O => out_of_fuel
        | S n' => enter fuel (Timeout due) ;; advance n' fuel t
        end
      else ret tt
  | [] => ret tt
  end.

Definition entry_time (e : Entry) : Z :=
  match e with
  | Press _ _ t => t
  | Release _ _ t => t
  | Timeout t => t
  end.

(** A run in real time: between two key events the due timers fire, and
    after the last one time passes until [horizon]. *)
Definition run_timed (fuel : nat) (es : list Entry) (horizon : Z) : M unit :=
  for_each es (fun e => advance fuel fuel (entry_time e) ;; enter fuel e) ;;
  advance fuel fuel horizon.

(* ------------------------------------------------------------------ *)
(** ** The registry of the end-to-end scenarios *)

Definition KC_A : Key := KC 4.
Definition KC_B : Key := KC 5.
Definition KC_C : Key := KC 6.
Definition KC_X : Key := KC 27.
Definition KC_Y : Key := KC 28.

(** [Chord((KC.A, KC.B), KC.X, timeout=50)]. *)
Definition chord_AB : ComboDef :=
  mkDef Chord [RKey KC_A; RKey KC_B] KC_X None None (Some 50) None.

(** [Sequence((KC.A, KC.B, KC.C), KC.Y, timeout=1000, per_key_timeout=True)]. *)
Definition seq_ABC : ComboDef :=
  mkDef Sequence [RKey KC_A; RKey KC_B; RKey KC_C] KC_Y None (Some true) (Some 1000) None.

Definition scenario_registry : list ComboDef := [chord_AB; seq_ABC].

(* ================================================================== *)
(** * Calls from the keyboard *)
(* ================================================================== *)

(** What the keyboard's main loop does with the engine: [during_bootup],
    and the entries, each with the fuel given to the embedding. *)
Inductive Call : Type :=
| Bootup
| Entered (fuel : nat) (e : Entry).

Definition call (c : Call) : M unit :=
  match c with
  | Bootup => during_bootup
  | Entered fuel e => enter fuel e
  end.

(** The world after a series of calls. A call that raised, or that was cut
    short, leaves the world as it was at that point, and the series goes
    on from there. *)
Definition drive (cs : list Call) (w : World) : World :=
  fold_left (fun w c => snd (call c w)) cs w.

(* ================================================================== *)
(** * Predicates on worlds and computations *)
(* ================================================================== *)

(** [triple P m Q E]: from a world in [P], [m] ends in a world in [Q] when it
    returns and in a world in [E] when it raises or is cut short. *)
Definition triple {A : Type} (P : World -> Prop) (m : M A) (Q E : World -> Prop) : Prop :=
  forall w, P w ->
    match m w with
    | (Returned _, w') => Q w'
    | (_, w') => E w'
    end.

(** [keeps P m]: [P] holds after [m], however [m] ends. *)
Definition keeps {A : Type} (P : World -> Prop) (m : M A) : Prop := triple P m P P.

(** A predicate that survives every assignment the engine makes outside
    its dealings with timers. *)
Record stable (P : World -> Prop) : Prop := mkStable {
  st_remaining : forall i r, keeps P (update_combo i (with_remaining r));
  st_pressed : forall i p, keeps P (update_combo i (with_pressed p));
  st_state : forall i s, keeps P (set_state i s);
  st_key_buffer : forall v w, P w -> P (set_key_buffer v w);
  st_pending : forall v w, P w -> P (set_pending_combos v w);
  st_start : forall v w, P w -> P (set_self_start_timepoint v w);
  st_ticks : forall t w, P w -> P (set_ticks t w);
  st_resume : forall k p c, keeps P (resume_process_key k p c)
}.


(** The number of combos in MATCHING. *)
Definition is_matching (c : Combo) : bool := state_eqb (_state c) MATCHING.

Fixpoint count_matching (l : list Combo) : Z :=
  match l with
  | [] => 0
  | c :: l' => (if is_matching c then 1 else 0) + count_matching l'
  end.

(** [match_count] is the number of registered combos whose state is
    MATCHING. *)
Definition match_count_ok (w : World) : Prop :=
  Combos_match_count w = count_matching (combos w).

(** At every moment of a history of keyboard calls (newest first) at most
    one timer was armed: whatever recent part of the history is left out,
    the older part leaves at most one timer armed. *)
Definition at_most_one_armed (log : list KbdCall) : Prop :=
  forall recent older, log = recent ++ older -> (length (armed older) <= 1)%nat.

(** Every [set_timeout] of a history was called with no timer armed. *)
Definition armed_from_idle (log : list KbdCall) : Prop :=
  forall recent older after_ticks h due,
    log = recent ++ SetTimeout after_ticks h due :: older -> armed older = [].

(** The armed timer, if there is one, is the one [_timeout] refers to. *)
Definition tracks_timer (w : World) : Prop :=
  armed (kbd_log w) = [] \/
  exists h due, armed (kbd_log w) = [(h, due)] /\ _timeout w = Some h.

Definition timers_inv (w : World) : Prop :=
  at_most_one_armed (kbd_log w) /\ tracks_timer w.

Definition timers_quiet (w : World) : Prop :=
  at_most_one_armed (kbd_log w) /\ armed (kbd_log w) = [].

(** Seen from the world [w0] in which [_timeout] was [h]: the calls the
    keyboard received since then start with [cancel_timeout(h)]. *)
Definition cancelled_first (h : Handle) (w0 w : World) : Prop :=
  exists new, kbd_log w = new ++ CancelTimeout h :: kbd_log w0.

(** Seen from the world [w0] in which [_timeout] was [h]: [_timeout] still
    holds a handle, [h] itself or one that [set_timeout] returned since. *)
Definition handle_kept (h : Handle) (w0 w : World) : Prop :=
  (kbd_next w0 <= kbd_next w)%nat /\
  exists h', _timeout w = Some h' /\ (h' = h \/ (kbd_next w0 <= h')%nat).

(** An idle engine: no combo is ACTIVE, nothing is buffered, nothing is
    pending. *)
Definition idle (w : World) : Prop :=
  (forall c, In c (combos w) -> _state c <> ACTIVE)
  /\ _key_buffer w = [] /\ _pending_combos w = [].

(** A combo as [reset] leaves it. *)
Definition is_reset (c : Combo) : Prop :=
  _remaining c = match_ c /\ pressed c = Some [] /\ _state c = MATCHING.

(** A combo that [reset_combos] leaves alone or has nothing to change on. *)
Definition settled (c : Combo) : Prop := _state c = ACTIVE \/ is_reset c.

(** The attributes of the instance [self] of a world. *)
Record Instance : Type := mkInstance {
  i_combos : list Combo;
  i_key_buffer : list BufEvent;
  i_pending_combos : list nat;
  i_timeout : option Handle;
  i_start_timepoint : option (option Z)
}.

Definition self_of (w : World) : Instance :=
  mkInstance (combos w) (_key_buffer w) (_pending_combos w) (_timeout w)
             (self_start_timepoint w).

(** ** Several engines

    Every [Combo] object there is lives in one store, and the registry of
    an engine is the list of the places of its combos in the store: two
    engines can hold the same objects, since [Combos.__init__] keeps the
    list it is given ([self.combos = combos]) and never changes the list
    itself. A registry holds an object once, as in a world. The class
    attributes and the keyboard are the same for all engines. *)
Record Attrs : Type := mkAttrs {
  a_registry : list nat;
  a_key_buffer : list BufEvent;
  a_pending_combos : list nat;
  a_timeout : option Handle;
  a_start_timepoint : option (option Z)
}.

Record Engines : Type := mkEngines {
  (* class attributes of Combos *)
  g_match_count : Z;
  g_start_timepoint : option Z;
  (* the Combo objects and the Combos instances *)
  g_objects : list Combo;
  g_engines : list Attrs;
  (* environment *)
  g_kbd_log : list KbdCall;
  g_kbd_next : Handle;
  g_ticks : Z
}.

(** The class [Combos] has just been defined; no instance exists. *)
Definition no_engine : Engines := mkEngines 0 None [] [] [] 1%nat 0.

(** The objects at the places [reg]. *)
Fixpoint fetch (objects : list Combo) (reg : list nat) : list Combo :=
  match reg with
  | [] => []
  | i :: reg' =>
      match nth_error objects i with
      | Some c => c :: fetch objects reg'
      | None => fetch objects reg'
      end
  end.

(** The objects at the places [reg] are now [cs]. *)
Fixpoint store (reg : list nat) (cs : list Combo) (objects : list Combo) : list Combo :=
  match reg, cs with
  | i :: reg', c :: cs' => store reg' cs' (list_update i (fun _ => c) objects)
  | _, _ => objects
  end.

(** The world as the engine with the attributes [a] has it as [self]. *)
Definition view (a : Attrs) (g : Engines) : World :=
  mkWorld (g_match_count g) (g_start_timepoint g)
          (fetch (g_objects g) (a_registry a))
          (a_key_buffer a) (a_pending_combos a) (a_timeout a) (a_start_timepoint a)
          (g_kbd_log g) (g_kbd_next g) (g_ticks g).

(** [Combos(combos)], for a list [combos] of the existing objects at the
    places [shared] followed by objects newly constructed from [defs]: the
    two counters are assigned on the class, the rest on the new instance. *)
Definition construct (shared : list nat) (defs : list ComboDef) (g : Engines) : Engines :=
  mkEngines 0 None
            (g_objects g ++ map Combo_init defs)
            (g_engines g
             ++ [mkAttrs (shared ++ seq (length (g_objects g)) (length defs))
                         [] [] None None])
            (g_kbd_log g) (g_kbd_next g) (g_ticks g).

(** The keyboard calls the engine number [k]: the call runs with that
    engine as [self]; what it did to the class attributes, to the objects of
    its registry, to its own attributes and to the keyboard stays. *)
Definition call_on (k : nat) (c : Call) (g : Engines) : Engines :=
  match nth_error (g_engines g) k with
  | Some a =>
      let w := snd (call c (view a g)) in
      mkEngines (Combos_match_count w) (Combos_start_timepoint w)
                (store (a_registry a) (combos w) (g_objects g))
                (list_update k
                   (fun _ => mkAttrs (a_registry a) (_key_buffer w) (_pending_combos w)
                                     (_timeout w) (self_start_timepoint w))
                   (g_engines g))
                (kbd_log w) (kbd_next w) (ticks w)
  | None => g
  end.

Inductive Step : Type :=
| Construct (shared : list nat) (defs : list ComboDef)
| CallOn (k : nat) (c : Call).

Definition step (s : Step) (g : Engines) : Engines :=
  match s with
  | Construct shared defs => construct shared defs g
  | CallOn k c => call_on k c g
  end.

(** The engines after a series of constructions and calls. *)
Definition play (ss : list Step) (g : Engines) : Engines :=
  fold_left (fun g s => step s g) ss g.

(** What the engine number [k] reads as [self.start_timepoint] and as
    [Combos.match_count]. *)
Definition reads_start_timepoint (k : nat) (g : Engines) : option (option Z) :=
  option_map (fun a => start_timepoint (view a g)) (nth_error (g_engines g) k).

Definition reads_match_count (k : nat) (g : Engines) : option Z :=
  option_map (fun a => Combos_match_count (view a g)) (nth_error (g_engines g) k).

(** The [Combo] objects of the engine number [k]. *)
Definition combos_of (k : nat) (g : Engines) : option (list Combo) :=
  option_map (fun a => combos (view a g)) (nth_error (g_engines g) k).

(** The class attribute [Combos.start_timepoint] has the value [v]. *)
Definition class_start_is (v : option Z) (w : World) : Prop :=
  Combos_start_timepoint w = v.

(* ------------------------------------------------------------------ *)
(** ** Inputs of the scenarios *)

(** [Chord((KC.A, KC.B, KC.C), KC.X, timeout=50)]. *)
Definition chord_ABC : ComboDef :=
  mkDef Chord [RKey KC_A; RKey KC_B; RKey KC_C] KC_X None None (Some 50) None.

(** [Sequence((KC.A, KC.B), KC.Y)]. *)
Definition seq_AB : ComboDef :=
  mkDef Sequence [RKey KC_A; RKey KC_B] KC_Y None None None None.

(** A is tapped. *)
Definition tap_A : list Entry :=
  [Press KC_A None 0; Release KC_A None 20].

(** A, then B 80 ms later. *)
Definition chord_late : list Entry :=
  [Press KC_A None 0; Press KC_B None 80].

(** A, B and C, 40 ms apart. *)
Definition chord_slow : list Entry :=
  [Press KC_A None 0; Press KC_B None 40; Press KC_C None 80].

(** A, then C, which is in no combo with A alone. *)
Definition chord_abandoned : list Entry :=
  [Press KC_A None 0; Press KC_C None 5].

(** A, B and C are tapped one after the other. *)
Definition sequence_taps : list Entry :=
  [Press KC_A None 0; Release KC_A None 20;
   Press KC_B None 100; Release KC_B None 120;
   Press KC_C None 200; Release KC_C None 220].

(** A and B are pressed and held, then A is released. *)
Definition sequence_held : list Entry :=
  [Press KC_A None 0; Press KC_B None 10; Release KC_A None 20].

(** [m2] does what [m1] does whenever [m1] is not cut short: the relation
    between a computation and the same computation with more fuel. *)
Definition fuel_refines {A : Type} (m1 m2 : M A) : Prop :=
  forall w, fst (m1 w) <> OutOfFuel -> m2 w = m1 w.

(* ------------------------------------------------------------------ *)
(** ** The rest of the module *)

(** [Combos.send_key_buffer], which nothing in the module calls. *)
Definition send_key_buffer : M unit :=
  buf <- get _key_buffer ;;
  for_each buf (fun e : BufEvent =>
    let '(int_coord, key, is_pressed, _) := e in
    resume_process_key key is_pressed int_coord).

(** What the constructor fixes of a combo: its class, [match], [result] and
    the four options. *)
Definition config (c : Combo) : ComboKind * list Ref * Key * bool * bool * Z * bool :=
  (kind c, match_ c, result c, fast_reset c, per_key_timeout c, timeout c, _match_coord c).

Definition registry_is (D : list (ComboKind * list Ref * Key * bool * bool * Z * bool))
           (w : World) : Prop :=
  map config (combos w) = D.

(** The combo as [Combo.reset] leaves it. *)
Definition reset_combo (c : Combo) : Combo :=
  with_state MATCHING (with_pressed (Some []) (with_remaining (match_ c) c)).

(** What [reset_combos] does to one combo. *)
Definition reprime (c : Combo) : Combo :=
  if state_eqb (_state c) ACTIVE then c else reset_combo c.

(** The combos that are neither ACTIVE nor MATCHING. *)
Fixpoint count_stale (l : list Combo) : Z :=
  match l with
  | [] => 0
  | c :: l' =>
      (if negb (state_eqb (_state c) ACTIVE) && negb (state_eqb (_state c) MATCHING)
       then 1 else 0) + count_stale l'
  end.

(** The events of a buffer as the keyboard receives them. *)
Definition buffer_events (buf : list BufEvent) : list (Key * bool) :=
  map (fun e : BufEvent => let '(_, key, is_pressed, _) := e in (key, is_pressed)) buf.

(** The presses [(key, int_coord)] are offered to the combo number [i], one
    after the other; the results of [matches] are collected. *)
Fixpoint matches_each (i : nat) (presses : list (Key * Coord)) : M (list bool) :=
  match presses with
  | [] => ret []
  | (key, int_coord) :: rest =>
      b <- matches i key int_coord ;;
      bs <- matches_each i rest ;;
      ret (b :: bs)
  end.

(** [effect R m]: [m] is never cut short, and the world it leaves is
    related by [R] to the world it started from, however it ends. *)
Definition effect {A : Type} (R : World -> World -> Prop) (m : M A) : Prop :=
  forall w, fst (m w) <> OutOfFuel /\ R w (snd (m w)).

(** From [w] to [w'] nothing has changed but [match_count] and the
    remaining keys, pressed keys and state of the combos whose number is in
    [T]: the buffer, the pending combos, the timer handle, the start of the
    window, the clock, the keyboard and the configuration of every combo are
    the same. *)
Definition quiet_step (T : nat -> Prop) (w w' : World) : Prop :=
  _key_buffer w' = _key_buffer w
  /\ _pending_combos w' = _pending_combos w
  /\ _timeout w' = _timeout w
  /\ self_start_timepoint w' = self_start_timepoint w
  /\ Combos_start_timepoint w' = Combos_start_timepoint w
  /\ ticks w' = ticks w
  /\ kbd_next w' = kbd_next w
  /\ kbd_log w' = kbd_log w
  /\ map config (combos w') = map config (combos w)
  /\ forall j, ~ T j -> nth_error (combos w') j = nth_error (combos w) j.

(** The same, except that events may have been forwarded to the keyboard. *)
Definition combo_step (T : nat -> Prop) (w w' : World) : Prop :=
  _key_buffer w' = _key_buffer w
  /\ _pending_combos w' = _pending_combos w
  /\ _timeout w' = _timeout w
  /\ self_start_timepoint w' = self_start_timepoint w
  /\ Combos_start_timepoint w' = Combos_start_timepoint w
  /\ ticks w' = ticks w
  /\ kbd_next w' = kbd_next w
  /\ armed (kbd_log w') = armed (kbd_log w)
  /\ map config (combos w') = map config (combos w)
  /\ forall j, ~ T j -> nth_error (combos w') j = nth_error (combos w) j.

(** A relation between worlds that composes. *)
Record step_relation (R : World -> World -> Prop) : Prop := mkStepRelation {
  step_refl : forall w, R w w;
  step_trans : forall w1 w2 w3, R w1 w2 -> R w2 w3 -> R w1 w3
}.

(** [runs P m Q]: from a world in [P], [m] is not cut short, and when it
    returns [a] the world is in [Q a]. *)
Definition runs {A : Type} (P : World -> Prop) (m : M A) (Q : A -> World -> Prop) : Prop :=
  forall w, P w ->
    match m w with
    | (Returned a, w') => Q a w'
    | (Raised _, _) => True
    | (OutOfFuel, _) => False
    end.

(** The states of the combos are the same in [w'] as in [w]. *)
Definition same_states (w w' : World) : Prop :=
  map _state (combos w') = map _state (combos w).

(** [match_count] is right and at most [b] events are buffered. *)
Definition window_bounded (b : nat) (w : World) : Prop :=
  match_count_ok w /\ (length (_key_buffer w) <= b)%nat.

(** [match_count] is right and nothing is buffered. *)
Definition window_empty (w : World) : Prop :=
  match_count_ok w /\ _key_buffer w = [].

(** The [process_key] that a body calls copes with every buffer of at most
    [s - 2] events, and adds at most one event to it. *)
Definition copes_below (pk : Key -> bool -> Coord -> M unit) (s : nat) : Prop :=
  forall j k p c, (j + 2 <= s)%nat ->
                  runs (window_bounded j) (pk k p c) (fun _ => window_bounded (S j)).

(** While [on_press] goes through the combos up to number [k]: every
    pending combo has a number below [k] and is in MATCHING. *)
Definition pending_matching (k : nat) (w : World) : Prop :=
  forall i, In i (_pending_combos w) ->
            (i < k)%nat /\ exists c, nth_error (combos w) i = Some c /\ is_matching c = true.

(** Every number is allowed to change. *)
Definition any_combo (i : nat) : Prop := True.

(** Any world may follow any world. *)
Definition any_step (w w' : World) : Prop := True.

(** What the loop of [on_press] leaves of a combo that turns the key down:
    a combo in MATCHING is reset and put into RESET. *)
Definition retire (c : Combo) : Combo :=
  if is_matching c then with_state RESET (reset_combo c) else c.

(** No combo of the registry has the key or the coordinate in its match. *)
Definition unused (key : Key) (int_coord : Coord) (w : World) : Prop :=
  forall c, In c (combos w) -> has_match c key int_coord = false.

(** Every combo is ACTIVE or as [reset] leaves it. *)
Definition all_settled (w : World) : Prop :=
  forall c, In c (combos w) -> settled c.

(** Some key of the combo was released in the buffer at least as often as
    it was pressed. *)
Definition released_in (items : Balance) (c : Combo) : bool :=
  existsb (fun it : (Coord * Key) * Z =>
             let '((buffer_coord, buffer_key), count) := it in
             (count <=? 0) && has_match c buffer_key buffer_coord)
          items.

(** What [send_pending_combos] forwards for one pending combo: the press of
    its result, and the release when one of its keys was released. *)
Definition combo_output (items : Balance) (c : Combo) : list (Key * bool) :=
  (result c, true) :: (if released_in items c then [(result c, false)] else []).

(** The same for the pending combo number [i] of the world [w]. *)
Definition pending_output (w : World) (i : nat) : list (Key * bool) :=
  match nth_error (combos w) i with
  | Some c => combo_output (buffer_pressed_vs_released (_key_buffer w)) c
  | None => []
  end.

(** Every timer that is armed was armed with a handle that [set_timeout]
    returned since the keyboard's supply of handles stood at [n0]. *)
Definition armed_since (n0 : Handle) (w : World) : Prop :=
  (n0 <= kbd_next w)%nat
  /\ forall h due, In (h, due) (armed (kbd_log w)) -> (n0 <= h)%nat.

(* DEFINITIONS END *)

(* ================================================================== *)
(** * Reasoning about computations *)
(* ================================================================== *)

Lemma keeps_snd {A : Type} (P : World -> Prop) (m : M A) :
  keeps P m -> forall w, P w -> P (snd (m w)).
Proof.
  intros H w Hw. specialize (H w Hw).
  destruct (m w) as [[a | e |] w']; exact H.
Qed.

Lemma snd_keeps {A : Type} (P : World -> Prop) (m : M A) :
  (forall w, P w -> P (snd (m w))) -> keeps P m.
Proof.
  intros H w Hw. specialize (H w Hw).
  destruct (m w) as [[a | e |] w']; exact H.
Qed.

Lemma triple_conseq {A : Type} (P P' Q Q' E E' : World -> Prop) (m : M A) :
  triple P m Q E ->
  (forall w, P' w -> P w) -> (forall w, Q w -> Q' w) -> (forall w, E w -> E' w) ->
  triple P' m Q' E'.
Proof.
  intros H HP HQ HE w Hw. specialize (H w (HP w Hw)).
  destruct (m w) as [[a | e |] w']; auto.
Qed.

Lemma triple_ret {A : Type} (P E : World -> Prop) (a : A) : triple P (ret a) P E.
Proof. intros w Hw. exact Hw. Qed.

Lemma triple_raise {A : Type} (P Q E : World -> Prop) (e : Exn) :
  (forall w, P w -> E w) -> triple P (@raise A e) Q E.
Proof. intros H w Hw. apply H, Hw. Qed.

Lemma triple_out_of_fuel {A : Type} (P Q E : World -> Prop) :
  (forall w, P w -> E w) -> triple P (@out_of_fuel A) Q E.
Proof. intros H w Hw. apply H, Hw. Qed.

Lemma triple_get {A : Type} (P E : World -> Prop) (f : World -> A) : triple P (get f) P E.
Proof. intros w Hw. exact Hw. Qed.

Lemma triple_modify (P Q E : World -> Prop) (f : World -> World) :
  (forall w, P w -> Q (f w)) -> triple P (modify f) Q E.
Proof. intros H w Hw. apply H, Hw. Qed.

Lemma triple_bind {A B : Type} (P Q R E : World -> Prop) (m : M A) (f : A -> M B) :
  triple P m Q E -> (forall a, triple Q (f a) R E) -> triple P (bind m f) R E.
Proof.
  intros Hm Hf w Hw. unfold bind. specialize (Hm w Hw).
  destruct (m w) as [[a | e |] w']; auto.
  apply Hf, Hm.
Qed.

Lemma triple_when (P E : World -> Prop) (b : bool) (m : M unit) :
  triple P m P E -> triple P (when b m) P E.
Proof. intros H. destruct b; [exact H | apply triple_ret]. Qed.

Lemma triple_for_each {A : Type} (P E : World -> Prop) (l : list A) (body : A -> M unit) :
  (forall x, triple P (body x) P E) -> triple P (for_each l body) P E.
Proof.
  intros H. induction l as [| x l IH]; simpl.
  - apply triple_ret.
  - eapply triple_bind; [apply H | intros _; exact IH].
Qed.

Lemma triple_for_fold {A B : Type} (P E : World -> Prop) (l : list A) (acc : B)
      (body : B -> A -> M B) :
  (forall a x, triple P (body a x) P E) -> triple P (for_fold l acc body) P E.
Proof.
  intros H. revert acc. induction l as [| x l IH]; intros acc; simpl.
  - apply triple_ret.
  - eapply triple_bind; [apply H | intros acc'; apply IH].
Qed.

Lemma triple_combo_at (P E : World -> Prop) (i : nat) :
  (forall w, P w -> E w) -> triple P (combo_at i) P E.
Proof.
  intros H w Hw. unfold combo_at.
  destruct (nth_error (combos w) i); auto.
Qed.

Lemma triple_elapsed (P E : World -> Prop) (t : Z) (o : option Z) :
  (forall w, P w -> E w) -> triple P (elapsed t o) P E.
Proof.
  intros H. destruct o; simpl; [apply triple_ret | apply triple_raise, H].
Qed.

(** One step through a computation: the rule for its head, leaving the
    statements about the operations it is made of. *)
Ltac triple_step :=
  match goal with
  | |- triple _ (bind _ _) _ _ => eapply triple_bind; [ | intro ]
  | |- triple _ (ret _) _ _ => apply triple_ret
  | |- triple _ (raise _) _ _ => apply triple_raise
  | |- triple _ out_of_fuel _ _ => apply triple_out_of_fuel
  | |- triple _ (get _) _ _ => apply triple_get
  | |- triple _ (combo_at _) _ _ => apply triple_combo_at
  | |- triple _ (elapsed _ _) _ _ => apply triple_elapsed
  | |- triple _ (when _ _) _ _ => apply triple_when
  | |- triple _ (for_each _ _) _ _ => apply triple_for_each; intro
  | |- triple _ (for_fold _ _ _) _ _ => apply triple_for_fold; intros
  | |- triple _ (match ?x with _ => _ end) _ _ => destruct x
  | |- triple _ (let '(_, _) := ?x in _) _ _ => destruct x
  | |- keeps _ _ => unfold keeps
  end.


(** The methods that leave the timers alone keep every stable predicate. *)
Section TimerFree.

Variables P E : World -> Prop.
Hypothesis HP : stable P.
Hypothesis HPE : forall w, P w -> E w.

Lemma op_weaken {A : Type} (m : M A) : keeps P m -> triple P m P E.
Proof. intros H. eapply triple_conseq; [exact H | auto | auto | exact HPE]. Qed.

Ltac prim :=
  first
    [ apply op_weaken; first [ apply (st_remaining P HP) | apply (st_pressed P HP)
                             | apply (st_state P HP) | apply (st_resume P HP) ]
    | apply triple_modify; intros;
      first [ apply (st_key_buffer P HP); assumption
            | apply (st_pending P HP); assumption
            | apply (st_start P HP); assumption
            | apply (st_ticks P HP); assumption ]
    | exact HPE ].

Ltac walk_with t := repeat (first [ triple_step | prim | t ]).
Ltac walk := walk_with fail.

Lemma triple_set_state i s : triple P (set_state i s) P E.
Proof. prim. Qed.

Lemma triple_resume k p c : triple P (resume_process_key k p c) P E.
Proof. prim. Qed.

Lemma triple_reset i : triple P (reset i) P E.
Proof. unfold reset. walk. Qed.

Lemma triple_remaining_remove i x : triple P (remaining_remove i x) P E.
Proof. unfold remaining_remove. walk. Qed.

Lemma triple_matches i k c : triple P (matches i k c) P E.
Proof.
  unfold matches, Chord_matches, Sequence_matches.
  walk_with ltac:(apply triple_remaining_remove).
Qed.

Lemma triple_uses_match i k c : triple P (uses_match i k c) P E.
Proof. unfold uses_match. walk. Qed.

Lemma triple_unpress i k c : triple P (unpress i k c) P E.
Proof. unfold unpress. walk. Qed.

Lemma triple_activate i : triple P (activate i) P E.
Proof. unfold activate. walk. Qed.

Lemma triple_deactivate i : triple P (deactivate i) P E.
Proof. unfold deactivate. walk. Qed.

Lemma triple_reset_combos : triple P reset_combos P E.
Proof. unfold reset_combos, for_combos. walk_with ltac:(apply triple_reset). Qed.

Lemma triple_deactivate_if_released i items :
  triple P (deactivate_if_released i items) P E.
Proof.
  induction items as [| [[bc bk] n] items IH]; simpl.
  - apply triple_ret.
  - walk_with ltac:(first [apply triple_deactivate | exact IH]).
Qed.

Lemma triple_send_pending_combos : triple P send_pending_combos P E.
Proof.
  unfold send_pending_combos.
  walk_with ltac:(first [ apply triple_activate | apply triple_deactivate_if_released
                        | apply triple_reset_combos ]).
Qed.

Lemma triple_on_press_combo k c d1 d2 acc i :
  triple P (on_press_combo k c d1 d2 acc i) P E.
Proof.
  unfold on_press_combo.
  walk_with ltac:(first [ apply triple_matches | apply triple_reset ]).
Qed.

Lemma triple_on_release_combo k c acc i :
  triple P (on_release_combo k c acc i) P E.
Proof.
  unfold on_release_combo.
  walk_with ltac:(first [ apply triple_uses_match | apply triple_deactivate
                        | apply triple_reset | apply triple_unpress ]).
Qed.

End TimerFree.

Lemma cancel_outstanding_returns (w : World) : fst (cancel_outstanding w) = Returned tt.
Proof.
  unfold cancel_outstanding, bind, get. simpl.
  destruct (_timeout w); reflexivity.
Qed.

Lemma cancel_outstanding_eq (w : World) :
  cancel_outstanding w = (Returned tt, snd (cancel_outstanding w)).
Proof.
  pose proof (cancel_outstanding_returns w) as H.
  destruct (cancel_outstanding w) as [o w1]. simpl in *. subst o. reflexivity.
Qed.

Lemma bind_after {A B : Type} (m : M A) (f : A -> M B) (w : World) (a : A) (w1 : World) :
  m w = (Returned a, w1) -> bind m f w = f a w1.
Proof. intros H. unfold bind. rewrite H. reflexivity. Qed.

Lemma triple_same_snd {A : Type} (P X : World -> Prop) (m : M A) :
  triple P m X X -> forall w, P w -> X (snd (m w)).
Proof.
  intros H w Hw. specialize (H w Hw).
  destruct (m w) as [[a | e |] w']; exact H.
Qed.

(** The general shape of an invariant of the engine: [I] holds between the
    statements that deal with timers, [Q] holds from the cancellation at the
    head of [on_press] and [on_release] until a timer is armed again. *)
Section EngineInvariant.

Variables I Q : World -> Prop.
Hypothesis HI : stable I.
Hypothesis HQ : stable Q.
Hypothesis HQI : forall w, Q w -> I w.
Hypothesis Hcancel : triple I cancel_outstanding Q I.
Hypothesis Harm : forall t, triple Q (arm_timeout t) I I.

Let II : forall w, I w -> I w := fun _ h => h.

Ltac inv_prim :=
  first
    [ apply triple_modify; intros;
      first [ apply (st_key_buffer I HI); assumption
            | apply (st_pending I HI); assumption
            | apply (st_start I HI); assumption
            | apply (st_ticks I HI); assumption ]
    | apply (triple_resume I I HI II)
    | apply (triple_reset_combos I I HI II)
    | apply (triple_send_pending_combos I I HI II)
    | exact II ].

Ltac quiet_prim :=
  first
    [ apply triple_modify; intros;
      first [ apply (st_key_buffer Q HQ); assumption
            | apply (st_pending Q HQ); assumption
            | apply (st_start Q HQ); assumption
            | apply (st_ticks Q HQ); assumption ]
    | apply (triple_on_press_combo Q I HQ HQI)
    | apply (triple_on_release_combo Q I HQ HQI)
    | exact HQI ].

Ltac to_inv := eapply triple_conseq with (P := I) (Q := I) (E := I);
               [ | exact HQI | exact II | exact II ].

Section Callee.

Variable pk : Key -> bool -> Coord -> M unit.
Hypothesis pk_ok : forall k p c, triple I (pk k p c) I I.

Lemma inv_replay_one k c e : triple I (replay_one pk k c e) I I.
Proof.
  destruct e as [[[bc bk] bp] t]. unfold replay_one.
  repeat (first [ triple_step | inv_prim | apply pk_ok ]).
Qed.

Lemma inv_flush_while n : triple I (flush_while pk n) I I.
Proof.
  induction n as [| n IH]; simpl;
    repeat (first [ triple_step | inv_prim | apply inv_replay_one | exact IH ]).
Qed.

Lemma inv_flush_buffers n : triple I (flush_buffers pk n) I I.
Proof.
  unfold flush_buffers.
  repeat (first [ triple_step | inv_prim | apply inv_flush_while ]).
Qed.

Lemma on_press_after_cancel n k c w :
  Q (snd (cancel_outstanding w)) -> I (snd (on_press pk n k c w)).
Proof.
  intros Hq. unfold on_press.
  match goal with
  | |- I (snd (bind cancel_outstanding ?f w)) =>
      assert (Hrest : triple Q (f tt) I I)
  end.
  { cbv beta zeta. unfold ticks_ms.
    repeat (first [ eapply triple_bind; [ first [ apply triple_get | apply triple_when
                                                | apply triple_elapsed | quiet_prim
                                                | apply triple_for_fold; intros ]
                                        | intro ]
                  | quiet_prim ]).
    match goal with |- triple _ (let '(_, _) := ?x in _) _ _ => destruct x end.
    eapply triple_bind; [apply triple_get | intro mc].
    destruct (mc =? 0).
    - to_inv.
      repeat (first [ triple_step | inv_prim | apply inv_flush_buffers | apply pk_ok ]).
    - eapply triple_bind; [quiet_prim | intro].
      destruct (_ =? 0).
      + eapply triple_conseq;
          [ apply (triple_send_pending_combos Q I HQ HQI) | auto | exact HQI | exact II ].
      + apply Harm. }
  rewrite (bind_after _ _ w tt _ (cancel_outstanding_eq w)).
  apply (triple_same_snd _ _ _ Hrest), Hq.
Qed.

Lemma on_release_after_cancel n k c w :
  Q (snd (cancel_outstanding w)) -> I (snd (on_release pk n k c w)).
Proof.
  intros Hq. unfold on_release.
  match goal with
  | |- I (snd (bind cancel_outstanding ?f w)) =>
      assert (Hrest : triple Q (f tt) I I)
  end.
  { cbv beta zeta. unfold ticks_ms.
    eapply triple_bind; [apply triple_get | intro now].
    eapply triple_bind; [apply triple_get | intro len].
    eapply triple_bind; [apply triple_for_fold; intros; quiet_prim | intros [[lt pr] br]].
    eapply triple_bind; [apply triple_get | intro buf].
    eapply triple_bind with (Q := Q).
    { destruct (_ >? 0); repeat (first [ triple_step | quiet_prim ]). }
    intro pr'.
    eapply triple_bind; [apply triple_get | intro mc].
    eapply triple_bind with (Q := I).
    { destruct (mc =? 0); [ | destruct (negb _) ].
      - to_inv. repeat (first [ triple_step | inv_prim ]).
      - apply Harm.
      - to_inv. apply inv_flush_buffers. }
    intros _. repeat (first [ triple_step | inv_prim ]). }
  rewrite (bind_after _ _ w tt _ (cancel_outstanding_eq w)).
  apply (triple_same_snd _ _ _ Hrest), Hq.
Qed.

Lemma after_cancel w : I w -> Q (snd (cancel_outstanding w)).
Proof.
  intros Hw. pose proof (Hcancel w Hw) as H.
  pose proof (cancel_outstanding_returns w) as Hr.
  destruct (cancel_outstanding w) as [o w1]. simpl in *. subst o. exact H.
Qed.

Lemma inv_on_press n k c : keeps I (on_press pk n k c).
Proof. apply snd_keeps. intros w Hw. apply on_press_after_cancel, after_cancel, Hw. Qed.

Lemma inv_on_release n k c : keeps I (on_release pk n k c).
Proof. apply snd_keeps. intros w Hw. apply on_release_after_cancel, after_cancel, Hw. Qed.

End Callee.

Lemma inv_process_key fuel : forall k p c, keeps I (process_key fuel k p c).
Proof.
  induction fuel as [| fuel IH]; intros k p c; simpl.
  - apply triple_out_of_fuel, II.
  - destruct p; [apply inv_on_press | apply inv_on_release]; exact IH.
Qed.

Lemma process_key_after_cancel fuel k p c w :
  Q (snd (cancel_outstanding w)) -> I (snd (process_key (S fuel) k p c w)).
Proof.
  intros Hq. simpl. destruct p.
  - apply on_press_after_cancel; [apply inv_process_key | exact Hq].
  - apply on_release_after_cancel; [apply inv_process_key | exact Hq].
Qed.

Lemma inv_on_timeout fuel : keeps I (on_timeout fuel).
Proof.
  unfold on_timeout, keeps.
  eapply triple_bind; [inv_prim | intros _].
  apply inv_flush_buffers, inv_process_key.
Qed.

Lemma inv_during_bootup : keeps I during_bootup.
Proof. apply (triple_reset_combos I I HI II). Qed.

Hypothesis Hfire : keeps I fire.

Lemma inv_enter fuel e : keeps I (enter fuel e).
Proof.
  destruct e; simpl; unfold keeps.
  - eapply triple_bind; [inv_prim | intros _]. apply inv_process_key.
  - eapply triple_bind; [inv_prim | intros _]. apply inv_process_key.
  - eapply triple_bind; [inv_prim | intros _].
    eapply triple_bind; [apply Hfire | intros _]. apply inv_on_timeout.
Qed.

Lemma inv_run fuel es : keeps I (run fuel es).
Proof. apply triple_for_each. intro e. apply inv_enter. Qed.

End EngineInvariant.

Lemma drive_keeps (P : World -> Prop) :
  (forall c, keeps P (call c)) -> forall cs w, P w -> P (drive cs w).
Proof.
  intros H cs. unfold drive.
  induction cs as [| c cs IH]; intros w Hw; simpl.
  - exact Hw.
  - apply IH. apply keeps_snd; [apply H | exact Hw].
Qed.

(* ================================================================== *)
(** * Lists updated in place *)
(* ================================================================== *)

Lemma list_update_length {A : Type} (i : nat) (f : A -> A) (l : list A) :
  length (list_update i f l) = length l.
Proof.
  revert i. induction l as [| x l IH]; intros [| i]; simpl; auto.
Qed.

Lemma nth_error_list_update_eq {A : Type} (i : nat) (f : A -> A) (l : list A) :
  nth_error (list_update i f l) i = option_map f (nth_error l i).
Proof.
  revert i. induction l as [| x l IH]; intros [| i]; simpl; auto.
Qed.

Lemma nth_error_list_update_neq {A : Type} (i j : nat) (f : A -> A) (l : list A) :
  i <> j -> nth_error (list_update i f l) j = nth_error l j.
Proof.
  revert i j. induction l as [| x l IH]; intros [| i] [| j] H; simpl; auto.
  - congruence.
Qed.

Lemma list_update_fixed {A : Type} (i : nat) (f : A -> A) (l : list A) :
  (forall x, nth_error l i = Some x -> f x = x) -> list_update i f l = l.
Proof.
  revert i. induction l as [| x l IH]; intros [| i] H; simpl; auto.
  - rewrite (H x eq_refl). reflexivity.
  - rewrite IH; auto.
Qed.

(* ------------------------------------------------------------------ *)
(** ** The number of combos in MATCHING *)

Lemma count_matching_update (i : nat) (f : Combo -> Combo) (l : list Combo) (c : Combo) :
  nth_error l i = Some c ->
  count_matching (list_update i f l) =
  count_matching l - (if is_matching c then 1 else 0) + (if is_matching (f c) then 1 else 0).
Proof.
  revert i. induction l as [| x l IH]; intros [| i] H; simpl in *; try discriminate.
  - injection H as ->. lia.
  - rewrite (IH i H). lia.
Qed.

Lemma count_matching_update_same (i : nat) (f : Combo -> Combo) (l : list Combo) :
  (forall c, _state (f c) = _state c) ->
  count_matching (list_update i f l) = count_matching l.
Proof.
  intros Hf. revert i. induction l as [| x l IH]; intros [| i]; simpl; auto.
  - unfold is_matching. rewrite Hf. reflexivity.
  - rewrite IH. reflexivity.
Qed.

Lemma match_count_ok_set_state (i : nat) (s : ComboState) :
  keeps match_count_ok (set_state i s).
Proof.
  apply snd_keeps. intros w Hw.
  unfold set_state, bind, combo_at.
  destruct (nth_error (combos w) i) as [c |] eqn:Hc; [ | exact Hw].
  destruct (state_eqb (_state c) s) eqn:Hs; [exact Hw | ].
  unfold match_count_ok in *.
  unfold when, add_match_count, update_combo, modify, ret.
  destruct (state_eqb s MATCHING) eqn:Hnew;
    destruct (state_eqb (_state c) MATCHING) eqn:Hold; simpl;
    rewrite (count_matching_update i (with_state s) (combos w) c Hc);
    unfold is_matching; simpl; rewrite Hnew, Hold, Hw; try lia.
Qed.

Lemma match_count_ok_stable : stable match_count_ok.
Proof.
  constructor.
  - intros i r. apply snd_keeps. intros w Hw. unfold match_count_ok in *. simpl.
    rewrite count_matching_update_same; auto.
  - intros i p. apply snd_keeps. intros w Hw. unfold match_count_ok in *. simpl.
    rewrite count_matching_update_same; auto.
  - apply match_count_ok_set_state.
  - intros v w Hw. exact Hw.
  - intros v w Hw. exact Hw.
  - intros v w Hw. exact Hw.
  - intros t w Hw. exact Hw.
  - intros k p c. apply snd_keeps. intros w Hw. exact Hw.
Qed.

Lemma match_count_ok_cancel : keeps match_count_ok cancel_outstanding.
Proof.
  apply snd_keeps. intros w Hw. unfold cancel_outstanding, bind, get.
  destruct (_timeout w); exact Hw.
Qed.

Lemma match_count_ok_arm t : keeps match_count_ok (arm_timeout t).
Proof. apply snd_keeps. intros w Hw. exact Hw. Qed.

Lemma match_count_ok_fire : keeps match_count_ok fire.
Proof.
  apply snd_keeps. intros w Hw. unfold fire, modify. simpl.
  destruct (armed (kbd_log w)) as [| [h d] a]; exact Hw.
Qed.

Lemma match_count_ok_call (c : Call) : keeps match_count_ok (call c).
Proof.
  destruct c as [| fuel e]; simpl.
  - apply (inv_during_bootup match_count_ok match_count_ok_stable).
  - apply (inv_enter match_count_ok match_count_ok match_count_ok_stable
             match_count_ok_stable (fun _ h => h) match_count_ok_cancel
             match_count_ok_arm match_count_ok_fire).
Qed.

Lemma match_count_ok_fresh (defs : list ComboDef) : match_count_ok (fresh defs).
Proof.
  unfold match_count_ok, fresh, Combos_init. simpl.
  induction defs as [| d defs IH]; simpl; auto.
Qed.

(* ------------------------------------------------------------------ *)
(** ** Timers *)

Lemma at_most_one_armed_nil : at_most_one_armed [].
Proof.
  intros recent older H. symmetry in H. apply app_eq_nil in H as [_ ->]. simpl. lia.
Qed.

Lemma at_most_one_armed_cons (c : KbdCall) (log : list KbdCall) :
  at_most_one_armed log -> (length (armed (c :: log)) <= 1)%nat ->
  at_most_one_armed (c :: log).
Proof.
  intros Hlog Hc recent older H.
  destruct recent as [| r recent]; simpl in H.
  - subst older. exact Hc.
  - injection H as _ H. apply (Hlog recent older H).
Qed.

Lemma at_most_one_armed_from_idle (log : list KbdCall) :
  at_most_one_armed log -> armed_from_idle log.
Proof.
  intros H recent older ms h due Hlog.
  specialize (H recent (SetTimeout ms h due :: older) Hlog). simpl in H.
  destruct (armed older) as [| x a]; [reflexivity | ].
  simpl in H. rewrite length_app in H. simpl in H. lia.
Qed.

Lemma timers_inv_stable : stable timers_inv.
Proof.
  constructor; try (intros; apply snd_keeps; intros w Hw; exact Hw);
    try (intros v w Hw; exact Hw).
  - intros i s. apply snd_keeps. intros w Hw.
    assert (H : kbd_log (snd (set_state i s w)) = kbd_log w
                /\ _timeout (snd (set_state i s w)) = _timeout w).
    { unfold set_state, bind, combo_at.
      destruct (nth_error (combos w) i) as [c |]; [ | split; reflexivity].
      destruct (state_eqb (_state c) s); [split; reflexivity | ].
      destruct (state_eqb s MATCHING); destruct (state_eqb (_state c) MATCHING);
        split; reflexivity. }
    destruct H as [Hl Ht]. unfold timers_inv, tracks_timer in *. rewrite Hl, Ht. exact Hw.
  - intros k p c. apply snd_keeps. intros w [Ha Ht]. split.
    + simpl. apply at_most_one_armed_cons; [exact Ha | ]. simpl.
      apply (Ha [] (kbd_log w) eq_refl).
    + exact Ht.
Qed.

Lemma timers_quiet_stable : stable timers_quiet.
Proof.
  constructor; try (intros; apply snd_keeps; intros w Hw; exact Hw);
    try (intros v w Hw; exact Hw).
  - intros i s. apply snd_keeps. intros w Hw.
    assert (H : kbd_log (snd (set_state i s w)) = kbd_log w).
    { unfold set_state, bind, combo_at.
      destruct (nth_error (combos w) i) as [c |]; [ | reflexivity].
      destruct (state_eqb (_state c) s); [reflexivity | ].
      destruct (state_eqb s MATCHING); destruct (state_eqb (_state c) MATCHING);
        reflexivity. }
    unfold timers_quiet in *. rewrite H. exact Hw.
  - intros k p c. apply snd_keeps. intros w [Ha Ht]. split.
    + simpl. apply at_most_one_armed_cons; [exact Ha | ]. simpl.
      rewrite Ht. simpl. lia.
    + exact Ht.
Qed.

Lemma timers_quiet_inv (w : World) : timers_quiet w -> timers_inv w.
Proof. intros [Ha Hq]. split; [exact Ha | left; exact Hq]. Qed.

Lemma disarm_tracked (h : Handle) (a : list (Handle * Z)) :
  a = [] \/ (exists due, a = [(h, due)]) ->
  filter (fun p : Handle * Z => negb (Nat.eqb (fst p) h)) a = [].
Proof.
  intros [-> | (due & ->)]; simpl; [reflexivity | ].
  rewrite Nat.eqb_refl. reflexivity.
Qed.

Lemma timers_cancel : triple timers_inv cancel_outstanding timers_quiet timers_inv.
Proof.
  intros w [Ha Ht]. unfold cancel_outstanding, bind, get.
  destruct (_timeout w) as [h |] eqn:Hh; simpl.
  - assert (Hq : armed (CancelTimeout h :: kbd_log w) = []).
    { apply disarm_tracked.
      destruct Ht as [H | (h' & due & H & Hh')]; [left; exact H | right].
      assert (h' = h) by congruence. subst h'. exists due. exact H. }
    split.
    + apply at_most_one_armed_cons; [exact Ha | ]. rewrite Hq. simpl. lia.
    + exact Hq.
  - split; [exact Ha | ].
    destruct Ht as [H | (h' & due & _ & Hh')]; [exact H | congruence].
Qed.

Lemma timers_arm (t : Z) : triple timers_quiet (arm_timeout t) timers_inv timers_inv.
Proof.
  intros w [Ha Hq]. unfold arm_timeout, bind, set_timeout, modify. simpl.
  split.
  - simpl. apply at_most_one_armed_cons; [exact Ha | ]. simpl. rewrite Hq. simpl. lia.
  - right. exists (kbd_next w), (ticks w + t). simpl. rewrite Hq. split; reflexivity.
Qed.

Lemma timers_fire : keeps timers_inv fire.
Proof.
  apply snd_keeps. intros w [Ha Ht]. unfold fire, modify. simpl.
  destruct (armed (kbd_log w)) as [| [h d] a] eqn:Harmed; [split; assumption | ].
  assert (Hq : armed (TimerFired h :: kbd_log w) = []).
  { apply disarm_tracked. right.
    destruct Ht as [H | (h' & due & H & _)]; rewrite H in Harmed; [discriminate | ].
    injection Harmed as -> -> <-. exists d. exact H. }
  split.
  - apply at_most_one_armed_cons; [exact Ha | ]. rewrite Hq. simpl. lia.
  - left. exact Hq.
Qed.

Lemma timers_inv_call (c : Call) : keeps timers_inv (call c).
Proof.
  destruct c as [| fuel e]; simpl.
  - apply (inv_during_bootup timers_inv timers_inv_stable).
  - apply (inv_enter timers_inv timers_quiet timers_inv_stable timers_quiet_stable
             timers_quiet_inv timers_cancel timers_arm timers_fire).
Qed.

Lemma timers_inv_fresh (defs : list ComboDef) : timers_inv (fresh defs).
Proof. split; [apply at_most_one_armed_nil | left; reflexivity]. Qed.

(* ------------------------------------------------------------------ *)
(** ** The stored timer handle *)

Lemma set_state_environment (i : nat) (s : ComboState) (w : World) :
  kbd_log (snd (set_state i s w)) = kbd_log w
  /\ kbd_next (snd (set_state i s w)) = kbd_next w
  /\ _timeout (snd (set_state i s w)) = _timeout w
  /\ Combos_start_timepoint (snd (set_state i s w)) = Combos_start_timepoint w.
Proof.
  unfold set_state, bind, combo_at.
  destruct (nth_error (combos w) i) as [c |]; [ | repeat split].
  destruct (state_eqb (_state c) s); [repeat split | ].
  destruct (state_eqb s MATCHING); destruct (state_eqb (_state c) MATCHING);
    repeat split.
Qed.

(** A predicate that only looks at the keyboard, at [_timeout] and at the
    class attribute [start_timepoint] is stable as soon as forwarding an
    event keeps it. *)
Lemma stable_environment (P : World -> Prop) :
  (forall w w', kbd_log w' = kbd_log w -> kbd_next w' = kbd_next w ->
                _timeout w' = _timeout w ->
                Combos_start_timepoint w' = Combos_start_timepoint w -> P w -> P w') ->
  (forall k p c, keeps P (resume_process_key k p c)) ->
  stable P.
Proof.
  intros Henv Hres.
  constructor; try exact Hres;
    try (intros; apply snd_keeps; intros w Hw; apply (Henv w); auto; reflexivity);
    try (intros v w Hw; apply (Henv w); auto; reflexivity).
  intros i s. apply snd_keeps. intros w Hw.
  destruct (set_state_environment i s w) as (H1 & H2 & H3 & H4).
  apply (Henv w); auto.
Qed.

Lemma cancelled_first_stable (h : Handle) (w0 : World) : stable (cancelled_first h w0).
Proof.
  apply stable_environment.
  - intros w w' Hl _ _ _ [new H]. exists new. rewrite Hl. exact H.
  - intros k p c. apply snd_keeps. intros w [new H].
    exists (ResumeProcessKey k p c :: new). simpl. rewrite H. reflexivity.
Qed.

Lemma cancelled_first_cancel (h : Handle) (w0 : World) :
  keeps (cancelled_first h w0) cancel_outstanding.
Proof.
  apply snd_keeps. intros w [new H]. unfold cancel_outstanding, bind, get.
  destruct (_timeout w) as [h' |]; simpl.
  - exists (CancelTimeout h' :: new). rewrite H. reflexivity.
  - exists new. exact H.
Qed.

Lemma cancelled_first_arm (h : Handle) (w0 : World) (t : Z) :
  keeps (cancelled_first h w0) (arm_timeout t).
Proof.
  apply snd_keeps. intros w [new H].
  exists (SetTimeout t (kbd_next w) (ticks w + t) :: new). simpl. rewrite H. reflexivity.
Qed.

Lemma handle_kept_stable (h : Handle) (w0 : World) : stable (handle_kept h w0).
Proof.
  apply stable_environment.
  - intros w w' _ Hn Ht _ H. unfold handle_kept in *. rewrite Hn, Ht. exact H.
  - intros k p c. apply snd_keeps. intros w H. exact H.
Qed.

Lemma handle_kept_cancel (h : Handle) (w0 : World) :
  keeps (handle_kept h w0) cancel_outstanding.
Proof.
  apply snd_keeps. intros w (Hn & h1 & H1 & H2).
  unfold cancel_outstanding, bind, get. rewrite H1. simpl.
  split; [exact Hn | exists h1; split; [exact H1 | exact H2]].
Qed.

Lemma handle_kept_arm (h : Handle) (w0 : World) (t : Z) :
  keeps (handle_kept h w0) (arm_timeout t).
Proof.
  apply snd_keeps. intros w [Hn _]. split; simpl.
  - lia.
  - exists (kbd_next w). split; [reflexivity | right; exact Hn].
Qed.

Lemma handle_kept_fire (h : Handle) (w0 : World) : keeps (handle_kept h w0) fire.
Proof.
  apply snd_keeps. intros w H. unfold fire, modify. simpl.
  destruct (armed (kbd_log w)) as [| [h' d] a]; exact H.
Qed.

Lemma handle_kept_call (h : Handle) (w0 : World) (c : Call) :
  keeps (handle_kept h w0) (call c).
Proof.
  destruct c as [| fuel e]; simpl.
  - apply (inv_during_bootup _ (handle_kept_stable h w0)).
  - apply (inv_enter _ _ (handle_kept_stable h w0) (handle_kept_stable h w0)
             (fun _ H => H) (handle_kept_cancel h w0) (handle_kept_arm h w0)
             (handle_kept_fire h w0)).
Qed.

Lemma handle_kept_start (h : Handle) (w : World) :
  _timeout w = Some h -> handle_kept h w w.
Proof. intros H. split; [lia | ]. exists h. split; [exact H | left; reflexivity]. Qed.

Lemma process_key_cancels_first (fuel : nat) (k : Key) (p : bool) (c : Coord)
      (w : World) (h : Handle) :
  _timeout w = Some h ->
  cancelled_first h w (snd (process_key (S fuel) k p c w)).
Proof.
  intros Hh.
  apply (process_key_after_cancel _ _ (cancelled_first_stable h w)
           (cancelled_first_stable h w) (fun _ H => H)
           (cancelled_first_cancel h w) (cancelled_first_arm h w)).
  unfold cancel_outstanding, bind, get. rewrite Hh. simpl.
  exists []. reflexivity.
Qed.

Lemma armed_since_stable (n0 : Handle) : stable (armed_since n0).
Proof.
  apply stable_environment.
  - intros w w' Hl Hn _ _ H. unfold armed_since in *. rewrite Hl, Hn. exact H.
  - intros k p c. apply snd_keeps. intros w H. exact H.
Qed.

Lemma armed_since_cancel (n0 : Handle) : keeps (armed_since n0) cancel_outstanding.
Proof.
  apply snd_keeps. intros w [Hn Ha]. unfold cancel_outstanding, bind, get.
  destruct (_timeout w) as [h' |]; simpl; [ | split; assumption].
  split; [exact Hn | ]. intros h due Hin. apply filter_In in Hin.
  apply (Ha h due), Hin.
Qed.

Lemma armed_since_arm (n0 : Handle) (t : Z) : keeps (armed_since n0) (arm_timeout t).
Proof.
  apply snd_keeps. intros w [Hn Ha]. split; simpl; [lia | ].
  intros h due Hin. apply in_app_or in Hin. destruct Hin as [Hin | [[= <- _] | []]].
  - apply (Ha h due Hin).
  - exact Hn.
Qed.

(** Whatever timer is armed after [process_key] was armed by it: the one
    that was outstanding has been cancelled. *)
Lemma process_key_arms_anew (fuel : nat) (k : Key) (p : bool) (c : Coord) (w : World) :
  timers_inv w ->
  armed_since (kbd_next w) (snd (process_key (S fuel) k p c w)).
Proof.
  intros Hw.
  apply (process_key_after_cancel _ _ (armed_since_stable (kbd_next w))
           (armed_since_stable (kbd_next w)) (fun _ H => H)
           (armed_since_cancel (kbd_next w)) (fun t => armed_since_arm (kbd_next w) t)).
  pose proof (timers_cancel w Hw) as H. rewrite (cancel_outstanding_eq w) in H.
  destruct H as [_ Hq]. split.
  - unfold cancel_outstanding, bind, get. destruct (_timeout w); simpl; lia.
  - intros h due Hin. rewrite Hq in Hin. destruct Hin.
Qed.

(* ------------------------------------------------------------------ *)
(** ** [reset_combos] *)

Lemma list_update_twice {A : Type} (i : nat) (f g : A -> A) (l : list A) :
  list_update i f (list_update i g l) = list_update i (fun x => f (g x)) l.
Proof.
  revert i. induction l as [| x l IH]; intros [| i]; simpl; auto.
  rewrite IH. reflexivity.
Qed.

Lemma set_combos_same (w : World) : set_combos (combos w) w = w.
Proof. destruct w; reflexivity. Qed.

Lemma state_eqb_eq (a b : ComboState) : state_eqb a b = true <-> a = b.
Proof. destruct a, b; simpl; split; intros H; try reflexivity; discriminate. Qed.

Lemma state_eqb_refl (a : ComboState) : state_eqb a a = true.
Proof. destruct a; reflexivity. Qed.

Lemma reset_spec (i : nat) (w : World) (c : Combo) :
  nth_error (combos w) i = Some c ->
  exists w' G,
    reset i w = (Returned tt, w')
    /\ combos w' = list_update i G (combos w)
    /\ is_reset (G c).
Proof.
  intros Hc. unfold reset, bind. unfold combo_at at 1. rewrite Hc.
  unfold update_combo, modify. simpl.
  unfold set_state, bind, combo_at. simpl.
  rewrite !nth_error_list_update_eq, Hc. simpl.
  destruct (state_eqb (_state c) MATCHING) eqn:Hs; simpl.
  - eexists. exists (fun x => with_pressed (Some []) (with_remaining (match_ c) x)).
    split; [reflexivity | ]. simpl. split.
    + apply list_update_twice.
    + repeat split. simpl. apply state_eqb_eq, Hs.
  - eexists.
    exists (fun x => with_state MATCHING (with_pressed (Some []) (with_remaining (match_ c) x))).
    split; [reflexivity | ]. simpl. split.
    + rewrite !list_update_twice. reflexivity.
    + repeat split.
Qed.

Lemma reset_fixed (i : nat) (w : World) (c : Combo) :
  nth_error (combos w) i = Some c -> is_reset c -> reset i w = (Returned tt, w).
Proof.
  intros Hc (Hr & Hp & Hs). unfold reset, bind. unfold combo_at at 1. rewrite Hc.
  unfold update_combo, modify. simpl.
  assert (H1 : list_update i (with_remaining (match_ c)) (combos w) = combos w).
  { apply list_update_fixed. intros x Hx. rewrite Hc in Hx. injection Hx as <-.
    destruct c; simpl in *; subst; reflexivity. }
  rewrite H1.
  assert (H2 : list_update i (with_pressed (Some [])) (combos w) = combos w).
  { apply list_update_fixed. intros x Hx. rewrite Hc in Hx. injection Hx as <-.
    destruct c; simpl in *; subst; reflexivity. }
  rewrite set_combos_same, H2, set_combos_same.
  unfold set_state, bind, combo_at. rewrite Hc, Hs. reflexivity.
Qed.

(** The body of the loop of [reset_combos]. *)
Lemma reset_combos_body_fixed (i : nat) (w : World) (c : Combo) :
  nth_error (combos w) i = Some c -> settled c ->
  (c <- combo_at i ;; when (negb (state_eqb (_state c) ACTIVE)) (reset i)) w
  = (Returned tt, w).
Proof.
  intros Hc Hset. unfold bind, combo_at. rewrite Hc.
  destruct Hset as [Ha | Hr].
  - rewrite Ha. reflexivity.
  - destruct Hr as (Hr & Hp & Hs). rewrite Hs. simpl.
    apply (reset_fixed i w c Hc). repeat split; assumption.
Qed.

Lemma reset_combos_body_spec (i : nat) (w : World) :
  (i < length (combos w))%nat ->
  exists w',
    (c <- combo_at i ;; when (negb (state_eqb (_state c) ACTIVE)) (reset i)) w
    = (Returned tt, w')
    /\ length (combos w') = length (combos w)
    /\ forall j c', nth_error (combos w') j = Some c' ->
                    (j = i \/ exists c, nth_error (combos w) j = Some c /\ settled c) ->
                    settled c'.
Proof.
  intros Hi. destruct (nth_error (combos w) i) as [c |] eqn:Hc;
    [ | apply nth_error_None in Hc; lia].
  unfold bind at 1. unfold combo_at. rewrite Hc.
  destruct (state_eqb (_state c) ACTIVE) eqn:Ha; simpl.
  - exists w. split; [reflexivity | ]. split; [reflexivity | ].
    intros j c' Hj [-> | (c0 & H0 & Hs)].
    + rewrite Hc in Hj. injection Hj as <-. left. apply state_eqb_eq, Ha.
    + rewrite H0 in Hj. injection Hj as <-. exact Hs.
  - destruct (reset_spec i w c Hc) as (w' & G & Hrun & Hcombos & HG).
    exists w'. split; [exact Hrun | ]. rewrite Hcombos. split; [apply list_update_length | ].
    intros j c' Hj Hor. destruct (Nat.eq_dec i j) as [<- | Hne].
    + rewrite nth_error_list_update_eq, Hc in Hj. injection Hj as <-. right. exact HG.
    + rewrite (nth_error_list_update_neq i j G (combos w) Hne) in Hj.
      destruct Hor as [-> | (c0 & H0 & Hs)]; [congruence | ].
      rewrite H0 in Hj. injection Hj as <-. exact Hs.
Qed.

Lemma for_each_fixed {A : Type} (l : list A) (body : A -> M unit) (w : World) :
  (forall x, In x l -> body x w = (Returned tt, w)) ->
  for_each l body w = (Returned tt, w).
Proof.
  induction l as [| x l IH]; intros H; simpl.
  - reflexivity.
  - unfold bind. rewrite (H x (or_introl eq_refl)). apply IH.
    intros y Hy. apply H. right. exact Hy.
Qed.

Lemma reset_combos_loop (l : list nat) (w : World) :
  (forall i, In i l -> (i < length (combos w))%nat) ->
  exists w',
    for_each l (fun i => c <- combo_at i ;;
                         when (negb (state_eqb (_state c) ACTIVE)) (reset i)) w
    = (Returned tt, w')
    /\ length (combos w') = length (combos w)
    /\ forall j c', nth_error (combos w') j = Some c' ->
                    (In j l \/ exists c, nth_error (combos w) j = Some c /\ settled c) ->
                    settled c'.
Proof.
  revert w. induction l as [| i l IH]; intros w Hl; simpl.
  - exists w. split; [reflexivity | ]. split; [reflexivity | ].
    intros j c' Hj [[] | (c0 & H0 & Hs)]. rewrite H0 in Hj. injection Hj as <-. exact Hs.
  - destruct (reset_combos_body_spec i w (Hl i (or_introl eq_refl)))
      as (w1 & Hrun1 & Hlen1 & Hset1).
    destruct (IH w1) as (w2 & Hrun2 & Hlen2 & Hset2).
    { intros j Hj. rewrite Hlen1. apply Hl. right. exact Hj. }
    exists w2. split.
    { unfold bind at 1. rewrite Hrun1. exact Hrun2. }
    split; [congruence | ].
    intros j c' Hj Hor. apply (Hset2 j c' Hj).
    destruct Hor as [[<- | Hin] | Hold].
    + destruct (nth_error (combos w1) i) as [c1 |] eqn:Hc1.
      * right. exists c1. split; [reflexivity | ].
        apply (Hset1 i c1 Hc1). left. reflexivity.
      * apply nth_error_None in Hc1.
        rewrite <- Hlen2 in Hc1. apply nth_error_None in Hc1. congruence.
    + left. exact Hin.
    + destruct (nth_error (combos w1) j) as [c1 |] eqn:Hc1.
      * right. exists c1. split; [reflexivity | ].
        apply (Hset1 j c1 Hc1). right. exact Hold.
      * apply nth_error_None in Hc1.
        rewrite <- Hlen2 in Hc1. apply nth_error_None in Hc1. congruence.
Qed.

Lemma reset_combos_settles (w : World) :
  exists w',
    reset_combos w = (Returned tt, w')
    /\ length (combos w') = length (combos w)
    /\ forall j c', nth_error (combos w') j = Some c' -> settled c'.
Proof.
  destruct (reset_combos_loop (seq 0 (length (combos w))) w) as (w' & Hrun & Hlen & Hset).
  { intros i Hi. apply in_seq in Hi. lia. }
  exists w'. split; [exact Hrun | ]. split; [exact Hlen | ].
  intros j c' Hj. apply (Hset j c' Hj). left.
  apply in_seq. assert (j < length (combos w'))%nat by (apply nth_error_Some; congruence).
  lia.
Qed.

Lemma reset_combos_fixed (w : World) :
  (forall j c, nth_error (combos w) j = Some c -> settled c) ->
  reset_combos w = (Returned tt, w).
Proof.
  intros Hset. unfold reset_combos, for_combos, bind, get.
  apply for_each_fixed. intros i Hi. apply in_seq in Hi.
  destruct (nth_error (combos w) i) as [c |] eqn:Hc.
  - apply (reset_combos_body_fixed i w c Hc). apply (Hset i c Hc).
  - apply nth_error_None in Hc. lia.
Qed.

(** [reset_combos] returns, and running it again changes nothing, in any
    world. *)
Lemma reset_combos_twice (w : World) :
  fst (reset_combos w) = Returned tt
  /\ reset_combos (snd (reset_combos w)) = (Returned tt, snd (reset_combos w)).
Proof.
  destruct (reset_combos_settles w) as (w' & Hrun & _ & Hset).
  rewrite Hrun. simpl. split; [reflexivity | ].
  apply reset_combos_fixed. exact Hset.
Qed.

(* ------------------------------------------------------------------ *)
(** ** Class attributes and instances *)

Lemma class_start_stable (v : option Z) : stable (class_start_is v).
Proof.
  apply stable_environment.
  - intros w w' _ _ _ H Hw. unfold class_start_is in *. congruence.
  - intros k p c. apply snd_keeps. intros w Hw. exact Hw.
Qed.

Lemma class_start_call (v : option Z) (c : Call) : keeps (class_start_is v) (call c).
Proof.
  assert (Hc : keeps (class_start_is v) cancel_outstanding).
  { apply snd_keeps. intros w Hw. unfold cancel_outstanding, bind, get.
    destruct (_timeout w); exact Hw. }
  assert (Ha : forall t, keeps (class_start_is v) (arm_timeout t)).
  { intros t. apply snd_keeps. intros w Hw. exact Hw. }
  assert (Hf : keeps (class_start_is v) fire).
  { apply snd_keeps. intros w Hw. unfold fire, modify. simpl.
    destruct (armed (kbd_log w)) as [| [h d] a]; exact Hw. }
  destruct c as [| fuel e]; simpl.
  - apply (inv_during_bootup _ (class_start_stable v)).
  - apply (inv_enter _ _ (class_start_stable v) (class_start_stable v)
             (fun _ H => H) Hc Ha Hf).
Qed.

(** With several engines the class attribute [start_timepoint] is never
    anything but [None]. *)
Lemma class_start_play (ss : list Step) : g_start_timepoint (play ss no_engine) = None.
Proof.
  unfold play. rewrite <- fold_left_rev_right.
  induction (rev ss) as [| s l IH]; [reflexivity | ].
  cbn [fold_right]. destruct s as [shared defs | k c]; [reflexivity | ].
  cbn [step]. unfold call_on.
  destruct (nth_error (g_engines (fold_right (fun s g => step s g) no_engine l)) k)
    as [a |]; [ | exact IH].
  cbn [g_start_timepoint].
  assert (H : class_start_is None
                (snd (call c (view a (fold_right (fun s g => step s g) no_engine l))))).
  { apply keeps_snd; [apply class_start_call | exact IH]. }
  exact H.
Qed.

(* ------------------------------------------------------------------ *)
(** ** The timeout test of [on_press] *)

Lemma round_half_even_between (a b : Z) :
  0 < b -> a / b <= round_half_even a b <= a / b + 1.
Proof.
  intros Hb. unfold round_half_even.
  destruct (2 * (a mod b) <? b); [lia | ].
  destruct (b <? 2 * (a mod b)); [lia | ].
  destruct (Z.even (a / b)); lia.
Qed.

Lemma round_half_even_ge (a b J : Z) :
  0 < b -> J * b <= a -> J <= round_half_even a b.
Proof.
  intros Hb H. pose proof (round_half_even_between a b Hb).
  assert (J <= a / b) by (apply Z.div_le_lower_bound; lia). lia.
Qed.

Lemma round_half_even_le (a b J : Z) :
  0 < b -> a <= J * b -> round_half_even a b <= J.
Proof.
  intros Hb H. unfold round_half_even.
  pose proof (Z.div_mod a b ltac:(lia)) as Hd.
  pose proof (Z.mod_pos_bound a b Hb) as Hm.
  assert (Hq : a / b <= J) by (apply Z.div_le_upper_bound; lia).
  set (q := a / b) in *. set (r := a mod b) in *.
  destruct (Z.eq_dec q J) as [He | Hne].
  - assert (r = 0) by (subst J; lia).
    replace (2 * r <? b) with true by (symmetry; apply Z.ltb_lt; lia). lia.
  - destruct (2 * r <? b); [lia | ].
    destruct (b <? 2 * r); [lia | ].
    destruct (Z.even q); lia.
Qed.

Lemma round_half_even_lt (a b J : Z) :
  0 < b -> 2 * a < (2 * J - 1) * b -> round_half_even a b < J.
Proof.
  intros Hb H. unfold round_half_even.
  pose proof (Z.div_mod a b ltac:(lia)) as Hd.
  pose proof (Z.mod_pos_bound a b Hb) as Hm.
  assert (Hq : a / b < J) by (apply Z.div_lt_upper_bound; nia).
  set (q := a / b) in *. set (r := a mod b) in *.
  destruct (Z.eq_dec q (J - 1)) as [He | Hne].
  - replace (2 * r <? b) with true by (symmetry; apply Z.ltb_lt; nia). lia.
  - destruct (2 * r <? b); [lia | ].
    destruct (b <? 2 * r); [lia | ].
    destruct (Z.even q); lia.
Qed.

(** The significand has at least 53 bits: [2^52 <= |n / d| / 2^e]. *)
Lemma last_place_reached (n : Z) (d : positive) :
  n <> 0 ->
  if 0 <=? last_place n d
  then Zpos d * 2 ^ 52 * 2 ^ last_place n d <= Z.abs n
  else Zpos d * 2 ^ 52 <= Z.abs n * 2 ^ (- last_place n d).
Proof.
  intros Hn. unfold last_place.
  set (A := Z.abs n). assert (HA : 0 < A) by (unfold A; lia).
  pose proof (Z.log2_spec A HA) as [HA1 HA2].
  pose proof (Z.log2_spec (Zpos d) ltac:(lia)) as [Hd1 Hd2].
  pose proof (Z.log2_nonneg A) as HlA. pose proof (Z.log2_nonneg (Zpos d)) as Hld.
  set (la := Z.log2 A) in *. set (ld := Z.log2 (Zpos d)) in *.
  set (k := la - ld).
  assert (Hlow : if 0 <=? k - 1 then Zpos d * 2 ^ (k - 1) <= A
                 else Zpos d <= A * 2 ^ (1 - k)).
  { destruct (0 <=? k - 1) eqn:Hk.
    - apply Z.leb_le in Hk.
      assert (2 ^ (ld + 1) * 2 ^ (k - 1) = 2 ^ la)
        by (rewrite <- Z.pow_add_r by lia; f_equal; unfold k; lia).
      assert (0 < 2 ^ (k - 1)) by (apply Z.pow_pos_nonneg; lia). nia.
    - apply Z.leb_gt in Hk.
      assert (2 ^ la * 2 ^ (1 - k) = 2 ^ (ld + 1))
        by (rewrite <- Z.pow_add_r by lia; f_equal; unfold k; lia).
      assert (0 < 2 ^ (1 - k)) by (apply Z.pow_pos_nonneg; lia). nia. }
  set (reached := if 0 <=? k then Zpos d * 2 ^ k <=? A else Zpos d <=? A * 2 ^ (- k)).
  assert (Hgen : forall j, (if 0 <=? j then Zpos d * 2 ^ j <= A
                            else Zpos d <= A * 2 ^ (- j)) ->
                           if 0 <=? j - 52 then Zpos d * 2 ^ 52 * 2 ^ (j - 52) <= A
                           else Zpos d * 2 ^ 52 <= A * 2 ^ (- (j - 52))).
  { intros j Hj. destruct (0 <=? j - 52) eqn:H52.
    - apply Z.leb_le in H52. replace (0 <=? j) with true in Hj
        by (symmetry; apply Z.leb_le; lia).
      rewrite <- Z.mul_assoc, <- Z.pow_add_r by lia.
      replace (52 + (j - 52)) with j by lia. exact Hj.
    - apply Z.leb_gt in H52. destruct (0 <=? j) eqn:H0.
      + apply Z.leb_le in H0.
        assert (2 ^ 52 = 2 ^ j * 2 ^ (- (j - 52)))
          by (rewrite <- Z.pow_add_r by lia; f_equal; lia).
        assert (0 < 2 ^ (- (j - 52))) by (apply Z.pow_pos_nonneg; lia). nia.
      + apply Z.leb_gt in H0.
        assert (2 ^ (- (j - 52)) = 2 ^ (- j) * 2 ^ 52)
          by (rewrite <- Z.pow_add_r by lia; f_equal; lia).
        nia. }
  destruct reached eqn:Hr.
  - apply Hgen. unfold reached in Hr. destruct (0 <=? k); [apply Z.leb_le, Hr | apply Z.leb_le, Hr].
  - replace (k - 1 - 52) with ((k - 1) - 52) by lia. apply Hgen.
    replace (- (k - 1)) with (1 - k) by lia. exact Hlow.
Qed.

(** Against an int below [2^44] the float compares as the quotient does:
    [n / 1000 < T] exactly when [n < 1000 * T]. *)
Lemma true_div_below (n T : Z) :
  Z.abs T < 2 ^ 44 ->
  Qltb (true_div n 1000) (inject_Z T) = (n <? 1000 * T).
Proof.
  intros HT. unfold true_div.
  destruct (n =? 0) eqn:Hn0.
  { apply Z.eqb_eq in Hn0. subst n. unfold Qltb, Qle_bool. cbn [Qnum Qden inject_Z].
    destruct (T * 1 <=? 0 * 1) eqn:H1, (0 <? 1000 * T) eqn:H2; try reflexivity;
      [apply Z.leb_le in H1; apply Z.ltb_lt in H2 | apply Z.leb_gt in H1; apply Z.ltb_ge in H2];
      lia. }
  apply Z.eqb_neq in Hn0.
  pose proof (last_place_reached n 1000 Hn0) as Hr.
  set (e := last_place n 1000) in *. cbv zeta.
  assert (H44 : 2 ^ 44 * 2 ^ 8 = 2 ^ 52) by reflexivity.
  destruct (0 <=? e) eqn:He.
  - apply Z.leb_le in He.
    assert (Hp : 0 < 2 ^ e) by (apply Z.pow_pos_nonneg; lia).
    unfold Qltb, Qle_bool. cbn [Qnum Qden inject_Z].
    set (m := round_half_even n (1000 * 2 ^ e)).
    assert (Hm : (0 < n -> 2 ^ 52 <= m) /\ (n < 0 -> m <= - 2 ^ 52)).
    { split; intros Hs.
      - apply round_half_even_ge; [lia | ]. lia.
      - apply round_half_even_le; [lia | ]. lia. }
    assert (H52 : 2 ^ 52 = 4503599627370496) by reflexivity.
    assert (H44' : 2 ^ 44 = 17592186044416) by reflexivity.
    destruct Hm as [Hm1 Hm2].
    destruct (T * 1 <=? m * 2 ^ e * 1) eqn:H1, (n <? 1000 * T) eqn:H2; try reflexivity;
      [apply Z.leb_le in H1; apply Z.ltb_lt in H2 | apply Z.leb_gt in H1; apply Z.ltb_ge in H2];
      exfalso; destruct (Z.lt_total 0 n) as [Hs | [Hs | Hs]]; try lia;
      try (specialize (Hm1 Hs)); try (specialize (Hm2 Hs)); nia.
  - apply Z.leb_gt in He.
    set (s := 2 ^ (- e)) in *.
    assert (Hs0 : 0 < s) by (apply Z.pow_pos_nonneg; lia).
    unfold Qltb, Qle_bool. cbn [Qnum Qden inject_Z]. rewrite Z2Pos.id by exact Hs0.
    set (m := round_half_even (n * s) 1000).
    destruct (Z_le_gt_dec e (-9)) as [H9 | H9].
    + assert (Hs : 512 <= s).
      { change 512 with (2 ^ 9). apply Z.pow_le_mono_r; lia. }
      destruct (T * s <=? m * 1) eqn:H1, (n <? 1000 * T) eqn:H2; try reflexivity;
        [apply Z.leb_le in H1; apply Z.ltb_lt in H2
        | apply Z.leb_gt in H1; apply Z.ltb_ge in H2]; exfalso.
      * assert (m < T * s) by (apply round_half_even_lt; [lia | nia]). lia.
      * assert (T * s <= m) by (apply round_half_even_ge; [lia | nia]). lia.
    + assert (Hs : s <= 256).
      { change 256 with (2 ^ 8). apply Z.pow_le_mono_r; lia. }
      assert (H52 : 2 ^ 52 = 4503599627370496) by reflexivity.
      assert (H44' : 2 ^ 44 = 17592186044416) by reflexivity.
      assert (Hm : (0 < n -> 2 ^ 52 <= m) /\ (n < 0 -> m <= - 2 ^ 52)).
      { split; intros Hsg.
        - apply round_half_even_ge; [lia | ]. lia.
        - apply round_half_even_le; [lia | ]. lia. }
      destruct Hm as [Hm1 Hm2].
      destruct (T * s <=? m * 1) eqn:H1, (n <? 1000 * T) eqn:H2; try reflexivity;
        [apply Z.leb_le in H1; apply Z.ltb_lt in H2
        | apply Z.leb_gt in H1; apply Z.ltb_ge in H2];
        exfalso; destruct (Z.lt_total 0 n) as [Hsg | [Hsg | Hsg]]; try lia;
        try (specialize (Hm1 Hsg)); try (specialize (Hm2 Hsg)); nia.
Qed.

(** Rounding moves a quotient by at most one half. *)
Lemma round_half_even_near (a b : Z) :
  0 < b -> Z.abs (2 * a - 2 * round_half_even a b * b) <= b.
Proof.
  intros Hb. unfold round_half_even.
  pose proof (Z.div_mod a b ltac:(lia)) as Hd.
  pose proof (Z.mod_pos_bound a b Hb) as Hm.
  set (q := a / b) in *. set (r := a mod b) in *.
  destruct (2 * r <? b) eqn:H1; [apply Z.ltb_lt in H1; lia | apply Z.ltb_ge in H1].
  destruct (b <? 2 * r) eqn:H2; [apply Z.ltb_lt in H2; lia | apply Z.ltb_ge in H2].
  destruct (Z.even q); lia.
Qed.

(** The significand has no more than 53 bits: [|n / d| / 2^e < 2^53]. *)
Lemma last_place_not_passed (n : Z) (d : positive) :
  n <> 0 ->
  if 0 <=? last_place n d
  then Z.abs n < Zpos d * 2 ^ 53 * 2 ^ last_place n d
  else Z.abs n * 2 ^ (- last_place n d) < Zpos d * 2 ^ 53.
Proof.
  intros Hn. unfold last_place.
  set (A := Z.abs n). assert (HA : 0 < A) by (unfold A; lia).
  pose proof (Z.log2_spec A HA) as [HA1 HA2].
  pose proof (Z.log2_spec (Zpos d) ltac:(lia)) as [Hd1 Hd2].
  pose proof (Z.log2_nonneg A) as HlA. pose proof (Z.log2_nonneg (Zpos d)) as Hld.
  set (la := Z.log2 A) in *. set (ld := Z.log2 (Zpos d)) in *.
  set (k := la - ld).
  assert (Hup : if 0 <=? k + 1 then A < Zpos d * 2 ^ (k + 1)
                else A * 2 ^ (- (k + 1)) < Zpos d).
  { destruct (0 <=? k + 1) eqn:Hk.
    - apply Z.leb_le in Hk.
      assert (2 ^ ld * 2 ^ (k + 1) = 2 ^ (la + 1))
        by (rewrite <- Z.pow_add_r by lia; f_equal; unfold k; lia).
      assert (0 < 2 ^ (k + 1)) by (apply Z.pow_pos_nonneg; lia). nia.
    - apply Z.leb_gt in Hk.
      assert (2 ^ (la + 1) * 2 ^ (- (k + 1)) = 2 ^ ld)
        by (rewrite <- Z.pow_add_r by lia; f_equal; unfold k; lia).
      assert (0 < 2 ^ (- (k + 1))) by (apply Z.pow_pos_nonneg; lia). nia. }
  assert (Hgen : forall j, (if 0 <=? j then A < Zpos d * 2 ^ j
                            else A * 2 ^ (- j) < Zpos d) ->
                           if 0 <=? j - 53 then A < Zpos d * 2 ^ 53 * 2 ^ (j - 53)
                           else A * 2 ^ (- (j - 53)) < Zpos d * 2 ^ 53).
  { intros j Hj. destruct (0 <=? j - 53) eqn:H53.
    - apply Z.leb_le in H53. replace (0 <=? j) with true in Hj
        by (symmetry; apply Z.leb_le; lia).
      rewrite <- Z.mul_assoc, <- Z.pow_add_r by lia.
      replace (53 + (j - 53)) with j by lia. exact Hj.
    - apply Z.leb_gt in H53. destruct (0 <=? j) eqn:H0.
      + apply Z.leb_le in H0.
        assert (2 ^ 53 = 2 ^ j * 2 ^ (- (j - 53)))
          by (rewrite <- Z.pow_add_r by lia; f_equal; lia).
        assert (0 < 2 ^ (- (j - 53))) by (apply Z.pow_pos_nonneg; lia). nia.
      + apply Z.leb_gt in H0.
        assert (2 ^ (- (j - 53)) = 2 ^ (- j) * 2 ^ 53)
          by (rewrite <- Z.pow_add_r by lia; f_equal; lia).
        nia. }
  set (reached := if 0 <=? k then Zpos d * 2 ^ k <=? A else Zpos d <=? A * 2 ^ (- k)).
  destruct reached eqn:Hr.
  - replace (k - 52) with ((k + 1) - 53) by lia. apply Hgen, Hup.
  - replace (k - 1 - 52) with (k - 53) by lia. apply Hgen.
    unfold reached in Hr. destruct (0 <=? k); apply Z.leb_gt in Hr; exact Hr.
Qed.

(** [true_div] gives the nearest float: with [e] the last place of the
    quotient, the result is a multiple [m * 2^e] of [2^e] whose significand
    [m] has 53 bits (or is [2^53], when the quotient is rounded up to the
    next power of two), at most half of [2^e] away from the quotient. *)
Lemma true_div_nearest (n : Z) (d : positive) :
  n <> 0 ->
  exists m : Z,
    2 ^ 52 <= Z.abs m <= 2 ^ 53
    /\ if 0 <=? last_place n d
       then true_div n d = inject_Z (m * 2 ^ last_place n d)
            /\ Z.abs (2 * n - 2 * (m * 2 ^ last_place n d) * Zpos d)
               <= Zpos d * 2 ^ last_place n d
       else true_div n d = Qmake m (Z.to_pos (2 ^ (- last_place n d)))
            /\ Z.abs (2 * (n * 2 ^ (- last_place n d)) - 2 * m * Zpos d) <= Zpos d.
Proof.
  intros Hn. unfold true_div.
  replace (n =? 0) with false by (symmetry; apply Z.eqb_neq, Hn).
  pose proof (last_place_reached n d Hn) as Hlo.
  pose proof (last_place_not_passed n d Hn) as Hhi.
  set (e := last_place n d) in *. cbv zeta.
  destruct (0 <=? e) eqn:He.
  - apply Z.leb_le in He.
    assert (Hp : 0 < 2 ^ e) by (apply Z.pow_pos_nonneg; lia).
    set (b := Zpos d * 2 ^ e). assert (Hb : 0 < b) by (unfold b; lia).
    exists (round_half_even n b). split.
    + destruct (Z.lt_total 0 n) as [Hs | [Hs | Hs]]; [ | lia | ].
      * assert (2 ^ 52 <= round_half_even n b)
          by (apply round_half_even_ge; [exact Hb | unfold b; lia]).
        assert (round_half_even n b <= 2 ^ 53)
          by (apply round_half_even_le; [exact Hb | unfold b; lia]). lia.
      * assert (round_half_even n b <= - 2 ^ 52)
          by (apply round_half_even_le; [exact Hb | unfold b; lia]).
        assert (- 2 ^ 53 <= round_half_even n b)
          by (apply round_half_even_ge; [exact Hb | unfold b; lia]). lia.
    + split; [reflexivity | ].
      pose proof (round_half_even_near n b Hb) as Hnear. unfold b in *.
      replace (2 * (round_half_even n (Zpos d * 2 ^ e) * 2 ^ e) * Zpos d)
        with (2 * round_half_even n (Zpos d * 2 ^ e) * (Zpos d * 2 ^ e)) by ring.
      exact Hnear.
  - apply Z.leb_gt in He.
    set (s := 2 ^ (- e)) in *.
    assert (Hb : 0 < Zpos d) by lia.
    exists (round_half_even (n * s) (Zpos d)). split.
    + destruct (Z.lt_total 0 n) as [Hs | [Hs | Hs]]; [ | lia | ].
      * assert (2 ^ 52 <= round_half_even (n * s) (Zpos d))
          by (apply round_half_even_ge; [exact Hb | lia]).
        assert (round_half_even (n * s) (Zpos d) <= 2 ^ 53)
          by (apply round_half_even_le; [exact Hb | lia]). lia.
      * assert (round_half_even (n * s) (Zpos d) <= - 2 ^ 52)
          by (apply round_half_even_le; [exact Hb | lia]).
        assert (- 2 ^ 53 <= round_half_even (n * s) (Zpos d))
          by (apply round_half_even_ge; [exact Hb | lia]). lia.
    + split; [reflexivity | ]. apply round_half_even_near, Hb.
Qed.

(** The floats of some quotients. Beyond [2^44] the float and the quotient
    can part: [(10^17 - 1) / 1000] is the float [10^14], which is not below
    the int [10^14], while the quotient is. *)
Lemma true_div_examples :
  Qred (true_div 80 1000) = Qmake 5764607523034235 72057594037927936
  /\ Qred (true_div 1 1000) = Qmake 1152921504606847 1152921504606846976
  /\ Qred (true_div (-250) 1000) = Qmake (-1) 4
  /\ Qred (true_div 9007199254740993 1000) = Qmake 1152921504606847 128
  /\ Qred (true_div 99999999999999999 1000) = Qmake 100000000000000 1
  /\ Qltb (true_div 99999999999999999 1000) (inject_Z 100000000000000) = false
  /\ (99999999999999999 <? 1000 * 100000000000000) = true.
Proof. repeat (split; [vm_compute; reflexivity | ]). vm_compute. reflexivity. Qed.

(** [(now - t) / 1000 < combo.timeout] holds exactly when the elapsed ticks
    are fewer than a thousand times the timeout, for every timeout below
    [2^44]. *)
Lemma within_elapsed (now t : Z) (c : Combo) :
  Z.abs (timeout c) < 2 ^ 44 ->
  within (true_div (now - t) 1000) c = (now - t <? 1000 * timeout c).
Proof. intros H. unfold within. apply true_div_below, H. Qed.

(* ------------------------------------------------------------------ *)
(** ** More fuel changes nothing *)

Lemma fuel_refines_refl {A : Type} (m : M A) : fuel_refines m m.
Proof. intros w _. reflexivity. Qed.

Lemma fuel_refines_bind {A B : Type} (m1 m2 : M A) (f1 f2 : A -> M B) :
  fuel_refines m1 m2 -> (forall a, fuel_refines (f1 a) (f2 a)) ->
  fuel_refines (bind m1 f1) (bind m2 f2).
Proof.
  intros Hm Hf w Hw. unfold bind in *.
  destruct (m1 w) as [[a | e |] w1] eqn:H1.
  - rewrite (Hm w); rewrite H1; [ | discriminate]. apply Hf, Hw.
  - rewrite (Hm w); rewrite H1; [reflexivity | discriminate].
  - exfalso. apply Hw. reflexivity.
Qed.

Lemma fuel_refines_when (b : bool) (m1 m2 : M unit) :
  fuel_refines m1 m2 -> fuel_refines (when b m1) (when b m2).
Proof. intros H. destruct b; [exact H | apply fuel_refines_refl]. Qed.

Lemma fuel_refines_for_each {A : Type} (l : list A) (b1 b2 : A -> M unit) :
  (forall x, fuel_refines (b1 x) (b2 x)) ->
  fuel_refines (for_each l b1) (for_each l b2).
Proof.
  intros H. induction l as [| x l IH]; simpl.
  - apply fuel_refines_refl.
  - apply fuel_refines_bind; [apply H | intros _; exact IH].
Qed.

Ltac refines_step :=
  match goal with
  | |- fuel_refines ?m ?m => apply fuel_refines_refl
  | |- fuel_refines (bind _ _) (bind _ _) => apply fuel_refines_bind; [ | intro ]
  | |- fuel_refines (when _ _) (when _ _) => apply fuel_refines_when
  | |- fuel_refines (for_each _ _) (for_each _ _) => apply fuel_refines_for_each; intro
  | |- fuel_refines (match ?x with _ => _ end) _ => destruct x
  end.

Section MoreFuel.

Variables pk1 pk2 : Key -> bool -> Coord -> M unit.
Hypothesis pk_refines : forall k p c, fuel_refines (pk1 k p c) (pk2 k p c).

Lemma replay_one_refines k c e :
  fuel_refines (replay_one pk1 k c e) (replay_one pk2 k c e).
Proof.
  destruct e as [[[bc bk] bp] t]. unfold replay_one.
  repeat first [ refines_step | apply pk_refines ].
Qed.

Lemma flush_while_refines n1 :
  forall n2, (n1 <= n2)%nat -> fuel_refines (flush_while pk1 n1) (flush_while pk2 n2).
Proof.
  induction n1 as [| n1 IH]; intros n2 Hle.
  - intros w Hw. destruct n2; simpl in *; unfold bind, get in *;
      destruct (_key_buffer w) as [| [[[c k] p] t] rest]; simpl in *;
      try reflexivity; exfalso; apply Hw; reflexivity.
  - destruct n2 as [| n2]; [lia | ]. simpl.
    repeat first [ refines_step | apply replay_one_refines | apply IH; lia ].
Qed.

Lemma flush_buffers_refines n1 n2 :
  (n1 <= n2)%nat -> fuel_refines (flush_buffers pk1 n1) (flush_buffers pk2 n2).
Proof.
  intros Hle. unfold flush_buffers.
  repeat first [ refines_step | apply flush_while_refines; exact Hle ].
Qed.

Lemma on_press_refines n1 n2 k c :
  (n1 <= n2)%nat -> fuel_refines (on_press pk1 n1 k c) (on_press pk2 n2 k c).
Proof.
  intros Hle. unfold on_press.
  repeat first [ refines_step | apply flush_buffers_refines; exact Hle | apply pk_refines ].
Qed.

Lemma on_release_refines n1 n2 k c :
  (n1 <= n2)%nat -> fuel_refines (on_release pk1 n1 k c) (on_release pk2 n2 k c).
Proof.
  intros Hle. unfold on_release.
  repeat first [ refines_step | apply flush_buffers_refines; exact Hle ].
Qed.

End MoreFuel.

Lemma process_key_refines (n1 : nat) :
  forall n2 k p c, (n1 <= n2)%nat ->
                   fuel_refines (process_key n1 k p c) (process_key n2 k p c).
Proof.
  induction n1 as [| n1 IH]; intros n2 k p c Hle.
  - intros w Hw. exfalso. apply Hw. reflexivity.
  - destruct n2 as [| n2]; [lia | ]. simpl. destruct p.
    + apply on_press_refines; [intros; apply IH | ]; lia.
    + apply on_release_refines; [intros; apply IH | ]; lia.
Qed.

Lemma on_timeout_refines (n1 n2 : nat) :
  (n1 <= n2)%nat -> fuel_refines (on_timeout n1) (on_timeout n2).
Proof.
  intros Hle. unfold on_timeout.
  apply fuel_refines_bind; [apply fuel_refines_refl | intros _].
  apply flush_buffers_refines; [ | exact Hle].
  intros. apply process_key_refines, Hle.
Qed.

Lemma enter_refines (n1 n2 : nat) (e : Entry) :
  (n1 <= n2)%nat -> fuel_refines (enter n1 e) (enter n2 e).
Proof.
  intros Hle. destruct e; simpl;
    repeat first [ refines_step | apply process_key_refines; exact Hle
                 | apply on_timeout_refines; exact Hle ].
Qed.

Lemma run_refines (n1 n2 : nat) (es : list Entry) :
  (n1 <= n2)%nat -> fuel_refines (run n1 es) (run n2 es).
Proof.
  intros Hle. apply fuel_refines_for_each. intro e. apply enter_refines, Hle.
Qed.

Lemma advance_refines (k1 : nat) :
  forall k2 n1 n2 t, (k1 <= k2)%nat -> (n1 <= n2)%nat ->
                     fuel_refines (advance k1 n1 t) (advance k2 n2 t).
Proof.
  induction k1 as [| k1 IH]; intros k2 n1 n2 t Hk Hn.
  - intros w Hw. destruct k2; simpl in *; unfold bind, get in *;
      destruct (armed (kbd_log w)) as [| [h due] a]; simpl in *; try reflexivity;
      destruct (due <=? t); simpl in *; try reflexivity; exfalso; apply Hw; reflexivity.
  - destruct k2 as [| k2]; [lia | ]. simpl.
    repeat first [ refines_step | apply enter_refines; exact Hn
                 | apply on_timeout_refines; exact Hn | apply IH; lia ].
Qed.

Lemma run_timed_refines (n1 n2 : nat) (es : list Entry) (horizon : Z) :
  (n1 <= n2)%nat -> fuel_refines (run_timed n1 es horizon) (run_timed n2 es horizon).
Proof.
  intros Hle. unfold run_timed.
  repeat first [ refines_step | apply advance_refines; exact Hle
               | apply enter_refines; exact Hle ].
Qed.

(** A run that was not cut short comes out the same with any fuel beyond. *)
Lemma run_timed_more_fuel (n extra : nat) (es : list Entry) (horizon : Z) (w : World) :
  fst (run_timed n es horizon w) <> OutOfFuel ->
  run_timed (n + extra) es horizon w = run_timed n es horizon w.
Proof. apply run_timed_refines. lia. Qed.

Lemma run_more_fuel (n extra : nat) (es : list Entry) (w : World) :
  fst (run n es w) <> OutOfFuel -> run (n + extra) es w = run n es w.
Proof. apply run_refines. lia. Qed.

(* ================================================================== *)
(** * The properties of the specification *)
(* ================================================================== *)

(** Splitting a conjunction into its parts, without touching the parts. *)
Ltac split_all := repeat match goal with |- _ /\ _ => split end.

(** Scenarios are run with fuel 10, which is enough, and come out the same
    with any fuel beyond. *)
Ltac with_fuel_10 :=
  repeat first [ rewrite run_timed_more_fuel by (vm_compute; intros H; discriminate H)
               | rewrite run_more_fuel by (vm_compute; intros H; discriminate H) ].

Ltac by_evaluation := intros; with_fuel_10; split_all; vm_compute; reflexivity.

(** C1. Replay equivalence fails on the code: with the registry
    [Chord((A, B), X)] a tap of A completes no combo, and yet the release of
    A is forwarded twice, once by [flush_buffers] directly and once more by
    the [process_key] it then calls for the same buffered event. With
    [Sequence((A, B, C), Y)] the press and the release of A wait in the
    buffer until the timer fires at 1020 ms, and [flush_buffers] then
    forwards the one buffered release twice. *)
Theorem tap_release_is_forwarded_twice (extra : nat) :
  raw_input tap_A = [(KC_A, true); (KC_A, false)]
  /\ fst (run_timed (10 + extra) tap_A 20 (booted [chord_AB])) = Returned tt
  /\ downstream (snd (run_timed (10 + extra) tap_A 20 (booted [chord_AB])))
     = [(KC_A, true); (KC_A, false); (KC_A, false)]
  /\ downstream (snd (run_timed (10 + extra) tap_A 20 (booted [seq_ABC]))) = []
  /\ _key_buffer (snd (run_timed (10 + extra) tap_A 20 (booted [seq_ABC])))
     = [(None, KC_A, true, 0); (None, KC_A, false, 20)]
  /\ fst (run_timed (10 + extra) tap_A 1020 (booted [seq_ABC])) = Returned tt
  /\ downstream (snd (run_timed (10 + extra) tap_A 1020 (booted [seq_ABC])))
     = [(KC_A, true); (KC_A, false); (KC_A, false)].
Proof. by_evaluation. Qed.

(** C2. The timeout test of [on_press] divides the elapsed milliseconds by
    1000 before it compares them with [combo.timeout], itself in
    milliseconds: for every timeout below [2^44], a combo that consumed the
    press stays alive as long as fewer than [1000 * timeout] ms have
    elapsed. With [Chord((A, B, C), X, timeout=50)] and presses at 0, 40 and
    80 ms no timer is due before the third press (each press cancels and
    re-arms it), 80 ms have elapsed since the start, and X is sent all the
    same. With [Chord((A, B), X, timeout=50)] and presses at 0 and 80 ms, X
    is sent when the timer callback is not delivered in between; when it
    is, A is replayed at 50 ms and B at 130 ms, by the timer and not by the
    test. *)
Theorem chord_timeout_counts_seconds (extra : nat) :
  (forall now t c w,
     Z.abs (timeout c) < 2 ^ 44 ->
     exists d,
       elapsed now (Some t) w = (Returned d, w)
       /\ within d c = (now - t <? 1000 * timeout c))
  /\ fst (run_timed (10 + extra) chord_slow 80 (booted [chord_ABC])) = Returned tt
  /\ downstream (snd (run_timed (10 + extra) chord_slow 80 (booted [chord_ABC])))
     = [(KC_X, true)]
  /\ (forall h, ~ In (TimerFired h)
                  (kbd_log (snd (run_timed (10 + extra) chord_slow 80 (booted [chord_ABC])))))
  /\ downstream (snd (run (10 + extra) chord_late (booted [chord_AB]))) = [(KC_X, true)]
  /\ downstream (snd (run_timed (10 + extra) chord_late 80 (booted [chord_AB])))
     = [(KC_A, true)]
  /\ downstream (snd (run_timed (10 + extra) chord_late 130 (booted [chord_AB])))
     = [(KC_A, true); (KC_B, true)].
Proof.
  split.
  { intros now t c w Hc. exists (true_div (now - t) 1000).
    split; [reflexivity | apply within_elapsed, Hc]. }
  with_fuel_10. split_all; try (vm_compute; reflexivity).
  intros h. vm_compute. intuition discriminate.
Qed.

Lemma chord_timeout_counts_seconds_witness :
  Z.abs (timeout (Combo_init chord_AB)) < 2 ^ 44
  /\ exists d,
       elapsed 80 (Some 0) (booted [chord_AB]) = (Returned d, booted [chord_AB])
       /\ within d (Combo_init chord_AB) = (80 - 0 <? 1000 * timeout (Combo_init chord_AB)).
Proof.
  assert (H : Z.abs (timeout (Combo_init chord_AB)) < 2 ^ 44) by (vm_compute; reflexivity).
  split; [exact H | ].
  exact (proj1 (chord_timeout_counts_seconds 0) 80 0 (Combo_init chord_AB)
           (booted [chord_AB]) H).
Defined.

(** C3. With the registry of the scenarios and A, B and C tapped at 0/20,
    100/120 and 200/220 ms, the code forwards one event too many. Nothing
    is forwarded before the press of C. The press of C commits the
    sequence: Y is pressed and, because A and B were already released in
    the buffer, released at once, both at 200 ms; the press of C itself is
    consumed with the buffer and never forwarded. The release of C at
    220 ms finds the sequence reset and the buffer empty, so that no combo
    claims it and nothing holds it back: it is forwarded, a release whose
    press never reached the keyboard. No timer is left armed. *)
Theorem sequence_completion (extra : nat) :
  fst (run_timed (10 + extra) sequence_taps 220 (booted scenario_registry)) = Returned tt
  /\ downstream (snd (run_timed (10 + extra) (firstn 4 sequence_taps) 120
                        (booted scenario_registry)))
     = []
  /\ downstream (snd (run_timed (10 + extra) (firstn 5 sequence_taps) 200
                        (booted scenario_registry)))
     = [(KC_Y, true); (KC_Y, false)]
  /\ downstream (snd (run_timed (10 + extra) sequence_taps 220 (booted scenario_registry)))
     = [(KC_Y, true); (KC_Y, false); (KC_C, false)]
  /\ armed (kbd_log (snd (run_timed (10 + extra) sequence_taps 220
                            (booted scenario_registry)))) = [].
Proof. by_evaluation. Qed.

(** C4. After any series of calls on a freshly constructed engine,
    [match_count] is the number of registered combos in MATCHING. *)
Theorem match_count_invariant (defs : list ComboDef) (cs : list Call) :
  match_count_ok (drive cs (fresh defs)).
Proof.
  apply drive_keeps; [exact match_count_ok_call | apply match_count_ok_fresh].
Qed.

(** C5. [on_release] can raise: when A and B of [Sequence((A, B), Y)] are
    pressed and held the sequence is ACTIVE with [pressed = [A, B]], and the
    release of A resets the combo, which empties [pressed], before [unpress]
    removes A from it: [ValueError]. *)
Theorem release_of_active_sequence_raises (extra : nat) :
  map fast_reset (combos (booted [seq_AB])) = [true]
  /\ fst (run_timed (10 + extra) (firstn 2 sequence_held) 10 (booted [seq_AB])) = Returned tt
  /\ map _state (combos (snd (run_timed (10 + extra) (firstn 2 sequence_held) 10
                                (booted [seq_AB]))))
     = [ACTIVE]
  /\ map pressed (combos (snd (run_timed (10 + extra) (firstn 2 sequence_held) 10
                                 (booted [seq_AB]))))
     = [Some [RKey KC_A; RKey KC_B]]
  /\ fst (run_timed (10 + extra) sequence_held 20 (booted [seq_AB])) = Raised ValueError
  /\ map pressed (combos (snd (run_timed (10 + extra) sequence_held 20 (booted [seq_AB]))))
     = [Some []].
Proof. by_evaluation. Qed.

(** C6. With the registry of the scenarios, A pressed at 0 ms waits in the
    buffer; C pressed at 5 ms matches nothing, the buffered A is replayed
    and C follows: the keyboard receives A-down, C-down and no X. *)
Theorem abandoned_chord_is_replayed (extra : nat) :
  downstream (snd (run_timed (10 + extra) (firstn 1 chord_abandoned) 0
                     (booted scenario_registry)))
  = []
  /\ _key_buffer (snd (run_timed (10 + extra) (firstn 1 chord_abandoned) 0
                         (booted scenario_registry)))
     = [(None, KC_A, true, 0)]
  /\ fst (run_timed (10 + extra) chord_abandoned 5 (booted scenario_registry)) = Returned tt
  /\ downstream (snd (run_timed (10 + extra) chord_abandoned 5 (booted scenario_registry)))
     = [(KC_A, true); (KC_C, true)].
Proof. by_evaluation. Qed.

(** C7. In the history of the keyboard after any series of calls on a
    freshly constructed engine, at every moment at most one timer was
    armed, and every [set_timeout] was called with no timer armed. When a
    timer is outstanding, the first thing the next [on_press] and the next
    [on_release] ask of the keyboard is to cancel it, before anything else
    and whether or not they go on to arm a new one. Whatever timer is armed
    after an [on_press] or an [on_release] was armed by it, with a handle
    that [set_timeout] returned meanwhile: the engine is left with a new
    timer or with none. *)
Theorem at_most_one_timer (defs : list ComboDef) (cs : list Call) :
  at_most_one_armed (kbd_log (drive cs (fresh defs)))
  /\ armed_from_idle (kbd_log (drive cs (fresh defs)))
  /\ (forall h due,
        In (h, due) (armed (kbd_log (drive cs (fresh defs)))) ->
        forall fuel key int_coord,
          cancelled_first h (drive cs (fresh defs))
            (snd (on_press (process_key fuel) fuel key int_coord (drive cs (fresh defs))))
          /\ cancelled_first h (drive cs (fresh defs))
               (snd (on_release (process_key fuel) fuel key int_coord
                       (drive cs (fresh defs)))))
  /\ forall fuel key int_coord,
       armed_since (kbd_next (drive cs (fresh defs)))
         (snd (on_press (process_key fuel) fuel key int_coord (drive cs (fresh defs))))
       /\ armed_since (kbd_next (drive cs (fresh defs)))
            (snd (on_release (process_key fuel) fuel key int_coord
                    (drive cs (fresh defs)))).
Proof.
  assert (H : timers_inv (drive cs (fresh defs))).
  { apply drive_keeps; [exact timers_inv_call | apply timers_inv_fresh]. }
  split; [exact (proj1 H) | ].
  split; [apply at_most_one_armed_from_idle, H | ].
  split.
  - intros h due Hin fuel key int_coord.
    assert (Hh : _timeout (drive cs (fresh defs)) = Some h).
    { destruct H as [_ [Hnone | (h' & due' & Ha & Ht)]].
      - rewrite Hnone in Hin. destruct Hin.
      - rewrite Ha in Hin. destruct Hin as [[= <- _] | []]. exact Ht. }
    split.
    + exact (process_key_cancels_first fuel key true int_coord _ h Hh).
    + exact (process_key_cancels_first fuel key false int_coord _ h Hh).
  - intros fuel key int_coord. split.
    + exact (process_key_arms_anew fuel key true int_coord _ H).
    + exact (process_key_arms_anew fuel key false int_coord _ H).
Qed.

Lemma at_most_one_timer_witness :
  In (1%nat, 50)
     (armed (kbd_log (drive [Bootup; Entered 2 (Press KC_A None 0)] (fresh [chord_AB]))))
  /\ cancelled_first 1%nat
       (drive [Bootup; Entered 2 (Press KC_A None 0)] (fresh [chord_AB]))
       (snd (on_release (process_key 2) 2 KC_A None
               (drive [Bootup; Entered 2 (Press KC_A None 0)] (fresh [chord_AB])))).
Proof.
  assert (Hin : In (1%nat, 50)
                   (armed (kbd_log (drive [Bootup; Entered 2 (Press KC_A None 0)]
                                      (fresh [chord_AB])))))
    by (vm_compute; left; reflexivity).
  split; [exact Hin | ].
  destruct (at_most_one_timer [chord_AB] [Bootup; Entered 2 (Press KC_A None 0)])
    as (_ & _ & H & _).
  exact (proj2 (H 1%nat 50 Hin 2%nat KC_A None)).
Defined.

(** C8. On an idle engine [reset_combos] returns, and a second call leaves
    the whole world, the combos and [match_count] included, as the first
    call left it. *)
Theorem reset_combos_idempotent (w : World) :
  idle w ->
  fst (reset_combos w) = Returned tt
  /\ reset_combos (snd (reset_combos w)) = (Returned tt, snd (reset_combos w)).
Proof. intros _. apply reset_combos_twice. Qed.

Lemma reset_combos_idempotent_witness :
  idle (fresh scenario_registry)
  /\ fst (reset_combos (fresh scenario_registry)) = Returned tt
  /\ reset_combos (snd (reset_combos (fresh scenario_registry)))
     = (Returned tt, snd (reset_combos (fresh scenario_registry))).
Proof.
  assert (H : idle (fresh scenario_registry)).
  { split; [ | split; reflexivity].
    intros c [<- | [<- | []]]; discriminate. }
  split; [exact H | exact (reset_combos_idempotent (fresh scenario_registry) H)].
Defined.

(** C9, as the code has it. [start_timepoint] is read per instance: neither
    the construction of another engine, over objects of its own or over
    the combos of an existing engine, nor a call on another engine changes
    what an engine reads as its [start_timepoint]. [match_count] is an
    attribute of the class, one for all engines: the constructor of a new
    engine sets it to 0 for every engine. *)
Theorem instance_and_class_attributes (ss : list Step) (i : nat) :
  (i < length (g_engines (play ss no_engine)))%nat ->
  (forall shared defs,
     reads_start_timepoint i (construct shared defs (play ss no_engine))
     = reads_start_timepoint i (play ss no_engine)
     /\ reads_match_count i (construct shared defs (play ss no_engine)) = Some 0)
  /\ forall j c,
       j <> i ->
       reads_start_timepoint i (call_on j c (play ss no_engine))
       = reads_start_timepoint i (play ss no_engine).
Proof.
  intros Hi. pose proof (class_start_play ss) as Hcls.
  set (g := play ss no_engine) in *.
  destruct (nth_error (g_engines g) i) as [a |] eqn:Ha;
    [ | apply nth_error_None in Ha; lia].
  split.
  - intros shared defs. unfold reads_start_timepoint, reads_match_count.
    cbn [g_engines construct]. rewrite nth_error_app1 by exact Hi. rewrite Ha.
    cbn [option_map]. split; [ | reflexivity].
    unfold start_timepoint. cbn [self_start_timepoint Combos_start_timepoint view construct
                                   g_start_timepoint].
    rewrite Hcls. reflexivity.
  - intros j c Hj. unfold reads_start_timepoint, call_on.
    destruct (nth_error (g_engines g) j) as [b |] eqn:Hb; [ | reflexivity].
    cbn [g_engines]. rewrite nth_error_list_update_neq by exact Hj. rewrite Ha.
    cbn [option_map]. f_equal.
    unfold start_timepoint.
    cbn [self_start_timepoint Combos_start_timepoint view g_start_timepoint].
    assert (H : class_start_is None (snd (call c (view b g)))).
    { apply keeps_snd; [apply class_start_call | exact Hcls]. }
    unfold class_start_is in H. rewrite H, Hcls. reflexivity.
Qed.

Lemma instance_and_class_attributes_witness :
  (0 < length (g_engines
                 (play [Construct [] scenario_registry; Construct [0%nat; 1%nat] [];
                        CallOn 0 Bootup; CallOn 0 (Entered 2 (Press KC_A None 3))]
                       no_engine)))%nat
  /\ reads_start_timepoint 0
       (call_on 1 (Entered 2 (Press KC_B None 9))
          (play [Construct [] scenario_registry; Construct [0%nat; 1%nat] [];
                 CallOn 0 Bootup; CallOn 0 (Entered 2 (Press KC_A None 3))]
                no_engine))
     = reads_start_timepoint 0
         (play [Construct [] scenario_registry; Construct [0%nat; 1%nat] [];
                CallOn 0 Bootup; CallOn 0 (Entered 2 (Press KC_A None 3))]
               no_engine).
Proof.
  assert (H : (0 < length (g_engines
                             (play [Construct [] scenario_registry;
                                    Construct [0%nat; 1%nat] [];
                                    CallOn 0 Bootup;
                                    CallOn 0 (Entered 2 (Press KC_A None 3))]
                                   no_engine)))%nat) by (vm_compute; lia).
  split; [exact H | ].
  apply (proj2 (instance_and_class_attributes
                  [Construct [] scenario_registry; Construct [0%nat; 1%nat] [];
                   CallOn 0 Bootup; CallOn 0 (Entered 2 (Press KC_A None 3))] 0 H)).
  discriminate.
Defined.

(** C9, as the specification states it, does not hold: an engine has its
    two combos in MATCHING and reads [match_count = 2]; once a second
    engine is constructed it reads 0, with its two combos still in
    MATCHING. *)
Lemma second_instance_zeroes_match_count :
  option_map (map _state)
    (combos_of 0 (play [Construct [] scenario_registry; CallOn 0 Bootup] no_engine))
  = Some [MATCHING; MATCHING]
  /\ reads_match_count 0 (play [Construct [] scenario_registry; CallOn 0 Bootup] no_engine)
     = Some 2
  /\ reads_match_count 0
       (construct [] [chord_AB]
          (play [Construct [] scenario_registry; CallOn 0 Bootup] no_engine))
     = Some 0
  /\ option_map (map _state)
       (combos_of 0
          (construct [] [chord_AB]
             (play [Construct [] scenario_registry; CallOn 0 Bootup] no_engine)))
     = Some [MATCHING; MATCHING].
Proof. split_all; vm_compute; reflexivity. Qed.

(** Two engines over the same [Combo] object: the second is constructed
    with the combo of the first. A press of A on the second engine takes A
    out of the remaining keys of the chord that the first engine holds; the
    first engine still has nothing buffered and no start of a window, the
    second has both. *)
Lemma shared_combos_are_seen :
  option_map (map _remaining)
    (combos_of 0 (play [Construct [] [chord_AB]; Construct [0%nat] []; CallOn 0 Bootup]
                       no_engine))
  = Some [[RKey KC_A; RKey KC_B]]
  /\ option_map (map _remaining)
       (combos_of 0
          (play [Construct [] [chord_AB]; Construct [0%nat] []; CallOn 0 Bootup;
                 CallOn 1 (Entered 2 (Press KC_A None 7))] no_engine))
     = Some [[RKey KC_B]]
  /\ option_map a_key_buffer
       (nth_error
          (g_engines
             (play [Construct [] [chord_AB]; Construct [0%nat] []; CallOn 0 Bootup;
                    CallOn 1 (Entered 2 (Press KC_A None 7))] no_engine)) 0)
     = Some []
  /\ option_map a_key_buffer
       (nth_error
          (g_engines
             (play [Construct [] [chord_AB]; Construct [0%nat] []; CallOn 0 Bootup;
                    CallOn 1 (Entered 2 (Press KC_A None 7))] no_engine)) 1)
     = Some [(None, KC_A, true, 7)]
  /\ reads_start_timepoint 0
       (play [Construct [] [chord_AB]; Construct [0%nat] []; CallOn 0 Bootup;
              CallOn 1 (Entered 2 (Press KC_A None 7))] no_engine)
     = Some None
  /\ reads_start_timepoint 1
       (play [Construct [] [chord_AB]; Construct [0%nat] []; CallOn 0 Bootup;
              CallOn 1 (Entered 2 (Press KC_A None 7))] no_engine)
     = Some (Some 7).
Proof. split_all; vm_compute; reflexivity. Qed.

(** C10. Once [_timeout] holds a handle it is never cleared. After
    [on_timeout] it still holds one, the old one unless a new timer was
    armed meanwhile; no call clears it; and the next [on_press] or
    [on_release] starts by calling [cancel_timeout] on it. *)
Theorem timeout_handle_never_cleared (fuel : nat) (w : World) (h : Handle) :
  _timeout w = Some h ->
  exists h',
    _timeout (snd (on_timeout fuel w)) = Some h'
    /\ (h' = h \/ (kbd_next w <= h')%nat)
    /\ (forall c, _timeout (snd (call c (snd (on_timeout fuel w)))) <> None)
    /\ forall fuel' key is_pressed int_coord,
         cancelled_first h' (snd (on_timeout fuel w))
           (snd (process_key (S fuel') key is_pressed int_coord (snd (on_timeout fuel w)))).
Proof.
  intros Hh.
  pose proof (keeps_snd _ _
                (inv_on_timeout _ _ (handle_kept_stable h w) (handle_kept_stable h w)
                   (fun _ H => H) (handle_kept_cancel h w) (handle_kept_arm h w) fuel)
                _ (handle_kept_start h w Hh)) as H.
  destruct H as (_ & h' & Hh' & Hor).
  exists h'. split; [exact Hh' | ]. split; [exact Hor | ]. split.
  - intros c.
    pose proof (keeps_snd _ _ (handle_kept_call h' (snd (on_timeout fuel w)) c) _
                  (handle_kept_start h' _ Hh')) as H.
    destruct H as (_ & h'' & H & _). congruence.
  - intros fuel' key is_pressed int_coord.
    apply process_key_cancels_first, Hh'.
Qed.

Lemma timeout_handle_never_cleared_witness :
  _timeout (snd (run 10 (firstn 1 chord_late) (booted [chord_AB]))) = Some 1%nat
  /\ exists h',
       _timeout (snd (on_timeout 10 (snd (run 10 (firstn 1 chord_late) (booted [chord_AB])))))
       = Some h'
       /\ forall fuel' key is_pressed int_coord,
            cancelled_first h'
              (snd (on_timeout 10 (snd (run 10 (firstn 1 chord_late) (booted [chord_AB])))))
              (snd (process_key (S fuel') key is_pressed int_coord
                      (snd (on_timeout 10
                              (snd (run 10 (firstn 1 chord_late) (booted [chord_AB]))))))).
Proof.
  split; [reflexivity | ].
  destruct (timeout_handle_never_cleared 10
              (snd (run 10 (firstn 1 chord_late) (booted [chord_AB]))) 1%nat eq_refl)
    as (h' & H1 & _ & _ & H4).
  exists h'. split; [exact H1 | exact H4].
Defined.

(* ================================================================== *)
(** * Further properties of the module *)
(* ================================================================== *)

(* ------------------------------------------------------------------ *)
(** ** Equality tests and [list.remove] *)

Lemma key_eqb_eq (a b : Key) : key_eqb a b = true <-> a = b.
Proof.
  destruct a as [x], b as [y]. simpl. rewrite Nat.eqb_eq.
  split; [intros -> | intros [= ->]]; reflexivity.
Qed.

Lemma ref_eqb_eq (a b : Ref) : ref_eqb a b = true <-> a = b.
Proof.
  destruct a as [x | x], b as [y | y]; simpl.
  - rewrite key_eqb_eq. split; [intros -> | intros [= ->]]; reflexivity.
  - split; discriminate.
  - split; discriminate.
  - rewrite Z.eqb_eq. split; [intros -> | intros [= ->]]; reflexivity.
Qed.

Lemma ref_eqb_refl (a : Ref) : ref_eqb a a = true.
Proof. apply ref_eqb_eq. reflexivity. Qed.

Lemma ref_eqb_sym (a b : Ref) : ref_eqb a b = ref_eqb b a.
Proof.
  destruct (ref_eqb a b) eqn:H1, (ref_eqb b a) eqn:H2; try reflexivity.
  - apply ref_eqb_eq in H1. subst. rewrite ref_eqb_refl in H2. discriminate.
  - apply ref_eqb_eq in H2. subst. rewrite ref_eqb_refl in H1. discriminate.
Qed.

Lemma existsb_ref_In (x : Ref) (l : list Ref) :
  existsb (ref_eqb x) l = true <-> In x l.
Proof.
  rewrite existsb_exists. split.
  - intros (y & Hy & He). apply ref_eqb_eq in He. subst. exact Hy.
  - intros H. exists x. split; [exact H | apply ref_eqb_refl].
Qed.

(** [l.remove(x)] fails exactly when [x] is not in [l]. *)
Lemma list_remove_None (x : Ref) (l : list Ref) :
  list_remove x l = None <-> existsb (ref_eqb x) l = false.
Proof.
  induction l as [| y l IH]; simpl.
  - split; reflexivity.
  - rewrite (ref_eqb_sym x y). destruct (ref_eqb y x); simpl.
    + split; discriminate.
    + destruct (list_remove x l).
      * split; [discriminate | ]. intros H. apply IH in H. discriminate.
      * split; [intros _; apply IH; reflexivity | reflexivity].
Qed.

(** When it succeeds it takes out one occurrence of [x]. *)
Lemma list_remove_Some (x : Ref) (l l' : list Ref) :
  list_remove x l = Some l' -> Permutation l (x :: l').
Proof.
  revert l'. induction l as [| y l IH]; simpl; intros l' H.
  - discriminate.
  - destruct (ref_eqb y x) eqn:He.
    + apply ref_eqb_eq in He. subst. injection H as <-. reflexivity.
    + destruct (list_remove x l) as [r |]; [ | discriminate].
      injection H as <-. rewrite (IH r eq_refl). apply perm_swap.
Qed.

Lemma list_remove_In (x : Ref) (l : list Ref) :
  In x l -> exists l', list_remove x l = Some l'.
Proof.
  intros H. destruct (list_remove x l) as [l' |] eqn:Hr; [exists l'; reflexivity | ].
  apply list_remove_None in Hr. apply existsb_ref_In in H. congruence.
Qed.

(* ------------------------------------------------------------------ *)
(** ** [Combo.unpress] *)

Lemma list_update_app {A : Type} (f : A -> A) (done : list A) (x : A) (rest : list A) :
  list_update (length done) f (done ++ x :: rest) = done ++ f x :: rest.
Proof. induction done as [| y done IH]; simpl; [reflexivity | rewrite IH; reflexivity]. Qed.

Lemma nth_error_middle {A : Type} (done : list A) (x : A) (rest : list A) :
  nth_error (done ++ x :: rest) (length done) = Some x.
Proof. induction done as [| y done IH]; simpl; [reflexivity | exact IH]. Qed.

(** [l.remove(x)] takes out the first occurrence of [x] and keeps the rest
    in its order. *)
Lemma list_remove_split (x : Ref) (l l' : list Ref) :
  list_remove x l = Some l' ->
  exists before after,
    l = before ++ x :: after /\ ~ In x before /\ l' = before ++ after.
Proof.
  revert l'. induction l as [| y l IH]; simpl; intros l' H.
  - discriminate.
  - destruct (ref_eqb y x) eqn:He.
    + apply ref_eqb_eq in He. subst y. injection H as <-.
      exists [], l. split_all; [reflexivity | intros [] | reflexivity].
    + destruct (list_remove x l) as [r |]; [ | discriminate].
      injection H as <-. destruct (IH r eq_refl) as (before & after & Hl & Hn & Hr).
      exists (y :: before), after. subst l r. split_all; [reflexivity | | reflexivity].
      intros [Hy | Hin]; [ | exact (Hn Hin)].
      subst y. rewrite ref_eqb_refl in He. discriminate.
Qed.

(** X1. [unpress] on a combo that matches by key. Without the attribute
    [pressed] it raises [AttributeError]; with the key absent from
    [pressed] it raises [ValueError]; in both cases nothing has changed.
    With the key in [pressed] it takes out the first occurrence of the key,
    keeps the other members of [pressed] in their order, and changes
    nothing else. *)
Theorem unpress_by_key (i : nat) (key : Key) (int_coord : Coord) (w : World) (c : Combo) :
  nth_error (combos w) i = Some c ->
  _match_coord c = false ->
  match pressed c with
  | None => unpress i key int_coord w = (Raised AttributeError, w)
  | Some p =>
      if key_in key p then
        exists before after,
          p = before ++ RKey key :: after
          /\ ~ In (RKey key) before
          /\ unpress i key int_coord w
             = (Returned tt,
                set_combos (list_update i (with_pressed (Some (before ++ after)))
                              (combos w)) w)
      else unpress i key int_coord w = (Raised ValueError, w)
  end.
Proof.
  intros Hc Hm. unfold unpress, bind, combo_at. rewrite Hc, Hm.
  destruct (pressed c) as [p |]; [ | reflexivity].
  unfold key_in. destruct (existsb (ref_eqb (RKey key)) p) eqn:Hin.
  - apply existsb_ref_In, list_remove_In in Hin. destruct Hin as [p' Hp'].
    destruct (list_remove_split _ _ _ Hp') as (before & after & Hp & Hn & ->).
    exists before, after. split_all; [exact Hp | exact Hn | ].
    rewrite Hp'. reflexivity.
  - apply list_remove_None in Hin. rewrite Hin. reflexivity.
Qed.

Lemma unpress_by_key_witness :
  exists before after,
    [RKey KC_A; RKey KC_B; RKey KC_C; RKey KC_B] = before ++ RKey KC_B :: after
    /\ ~ In (RKey KC_B) before
    /\ unpress 0 KC_B None
         (set_combos
            [with_pressed (Some [RKey KC_A; RKey KC_B; RKey KC_C; RKey KC_B])
               (Combo_init seq_AB)]
            class_defined)
       = (Returned tt,
          set_combos
            (list_update 0 (with_pressed (Some (before ++ after)))
               [with_pressed (Some [RKey KC_A; RKey KC_B; RKey KC_C; RKey KC_B])
                  (Combo_init seq_AB)])
            (set_combos
               [with_pressed (Some [RKey KC_A; RKey KC_B; RKey KC_C; RKey KC_B])
                  (Combo_init seq_AB)]
               class_defined)).
Proof.
  exact (unpress_by_key 0 KC_B None
           (set_combos
              [with_pressed (Some [RKey KC_A; RKey KC_B; RKey KC_C; RKey KC_B])
                 (Combo_init seq_AB)]
              class_defined)
           (with_pressed (Some [RKey KC_A; RKey KC_B; RKey KC_C; RKey KC_B])
              (Combo_init seq_AB))
           eq_refl eq_refl).
Defined.

(* ------------------------------------------------------------------ *)
(** ** [reset_combos] and [during_bootup] *)

(** Two worlds given field by field are equal. *)
Ltac same_world :=
  unfold ret, set_match_count, set_combos; cbn;
  repeat (f_equal; try reflexivity; try lia).

Lemma reset_combos_body_at (done rest : list Combo) (c : Combo) (w : World) :
  combos w = done ++ c :: rest ->
  (c0 <- combo_at (length done) ;;
   when (negb (state_eqb (_state c0) ACTIVE)) (reset (length done))) w
  = (Returned tt,
     set_match_count (Combos_match_count w + count_stale [c])
       (set_combos (done ++ reprime c :: rest) w)).
Proof.
  intros Hw. unfold bind at 1. unfold combo_at. rewrite Hw, nth_error_middle.
  unfold reprime. simpl count_stale.
  destruct (state_eqb (_state c) ACTIVE) eqn:Ha; simpl.
  - destruct w; simpl in *; subst. same_world.
  - unfold reset, bind. unfold combo_at at 1. rewrite Hw, nth_error_middle.
    unfold update_combo, modify. simpl. rewrite Hw, !list_update_app.
    unfold set_state, bind, combo_at. simpl. rewrite nth_error_middle. simpl.
    destruct (state_eqb (_state c) MATCHING) eqn:Hs; simpl.
    + apply state_eqb_eq in Hs. unfold reset_combo.
      destruct w, c; simpl in *; subst. same_world.
    + unfold update_combo, modify. cbn [combos set_match_count set_combos].
      rewrite list_update_app. unfold reset_combo.
      destruct w; simpl in *; subst. same_world.
Qed.

Lemma reset_combos_from (rest : list Combo) :
  forall (done : list Combo) (w : World),
    combos w = done ++ rest ->
    for_each (seq (length done) (length rest))
      (fun i => c <- combo_at i ;; when (negb (state_eqb (_state c) ACTIVE)) (reset i)) w
    = (Returned tt,
       set_match_count (Combos_match_count w + count_stale rest)
         (set_combos (done ++ map reprime rest) w)).
Proof.
  induction rest as [| c rest IH]; intros done w Hw.
  - simpl. destruct w; simpl in *; subst. rewrite app_nil_r. same_world.
  - cbn [length seq for_each]. unfold bind at 1.
    rewrite (reset_combos_body_at done rest c w Hw).
    replace (S (length done)) with (length (done ++ [reprime c]))
      by (rewrite length_app; simpl; lia).
    rewrite IH.
    + cbn [count_stale map]. destruct w; simpl in *. rewrite <- app_assoc. same_world.
    + simpl. rewrite <- app_assoc. reflexivity.
Qed.

Lemma reset_combos_eq (w : World) :
  reset_combos w
  = (Returned tt,
     set_match_count (Combos_match_count w + count_stale (combos w))
       (set_combos (map reprime (combos w)) w)).
Proof.
  unfold reset_combos, for_combos, bind, get.
  apply (reset_combos_from (combos w) [] w). reflexivity.
Qed.

(** X2. [reset_combos] always returns. It leaves the ACTIVE combos as they
    are and resets every other one ([remaining] is [match] again, [pressed]
    is empty, the state is MATCHING); [match_count] grows by the number of
    combos that were neither ACTIVE nor MATCHING; nothing else changes. *)
Theorem reset_combos_reprimes (w : World) :
  reset_combos w
  = (Returned tt,
     set_match_count (Combos_match_count w + count_stale (combos w))
       (set_combos (map reprime (combos w)) w)).
Proof. apply reset_combos_eq. Qed.

(** X3. After [during_bootup] on a freshly constructed engine every combo is
    reset and in MATCHING, and [match_count] is the size of the registry. *)
Theorem bootup_primes_registry (defs : list ComboDef) :
  combos (booted defs) = map reset_combo (map Combo_init defs)
  /\ Combos_match_count (booted defs) = Z.of_nat (length defs)
  /\ forall c, In c (combos (booted defs)) -> is_reset c.
Proof.
  unfold booted, during_bootup. rewrite reset_combos_eq.
  cbn [snd]. unfold fresh, Combos_init.
  cbn [combos set_combos set_match_count Combos_match_count].
  assert (H1 : map reprime (map Combo_init defs) = map reset_combo (map Combo_init defs)).
  { induction defs as [| d defs IH]; simpl; [reflexivity | rewrite IH; reflexivity]. }
  assert (H2 : count_stale (map Combo_init defs) = Z.of_nat (length defs)).
  { clear H1. induction defs as [| d defs IH]; [reflexivity | ].
    cbn [map count_stale length]. rewrite IH. simpl (negb _ && negb _). lia. }
  rewrite H1, H2. split; [reflexivity | ]. split; [lia | ].
  intros c Hc. apply in_map_iff in Hc. destruct Hc as (c0 & <- & _).
  repeat split.
Qed.

(* ------------------------------------------------------------------ *)
(** ** The registry is fixed *)

Lemma map_list_update_same {A B : Type} (g : A -> B) (i : nat) (f : A -> A) (l : list A) :
  (forall x, g (f x) = g x) -> map g (list_update i f l) = map g l.
Proof.
  intros H. revert i. induction l as [| x l IH]; intros [| i]; simpl; auto.
  - rewrite H. reflexivity.
  - rewrite IH. reflexivity.
Qed.

Lemma registry_is_stable D : stable (registry_is D).
Proof.
  constructor; try (intros v w Hw; exact Hw).
  - intros i r. apply snd_keeps. intros w Hw. unfold registry_is in *. simpl.
    rewrite map_list_update_same; auto.
  - intros i p. apply snd_keeps. intros w Hw. unfold registry_is in *. simpl.
    rewrite map_list_update_same; auto.
  - intros i s. apply snd_keeps. intros w Hw.
    assert (H : map config (combos (snd (set_state i s w))) = map config (combos w)).
    { unfold set_state, bind, combo_at.
      destruct (nth_error (combos w) i) as [c |]; [ | reflexivity].
      destruct (state_eqb (_state c) s); [reflexivity | ].
      destruct (state_eqb s MATCHING); destruct (state_eqb (_state c) MATCHING); simpl;
        apply map_list_update_same; reflexivity. }
    unfold registry_is in *. rewrite H. exact Hw.
  - intros k p c. apply snd_keeps. intros w Hw. exact Hw.
Qed.

Lemma registry_is_call D (c : Call) : keeps (registry_is D) (call c).
Proof.
  assert (Hc : keeps (registry_is D) cancel_outstanding).
  { apply snd_keeps. intros w Hw. unfold cancel_outstanding, bind, get.
    destruct (_timeout w); exact Hw. }
  assert (Ha : forall t, keeps (registry_is D) (arm_timeout t)).
  { intros t. apply snd_keeps. intros w Hw. exact Hw. }
  assert (Hf : keeps (registry_is D) fire).
  { apply snd_keeps. intros w Hw. unfold fire, modify. simpl.
    destruct (armed (kbd_log w)) as [| [h d] a]; exact Hw. }
  destruct c as [| fuel e]; simpl.
  - apply (inv_during_bootup _ (registry_is_stable D)).
  - apply (inv_enter _ _ (registry_is_stable D) (registry_is_stable D)
             (fun _ H => H) Hc Ha Hf).
Qed.

(** X4. Whatever is called on the engine, the registry keeps its combos, in
    their order, each with the class, [match], [result] and options it was
    constructed with. *)
Theorem registry_is_fixed (defs : list ComboDef) (cs : list Call) :
  map config (combos (drive cs (fresh defs))) = map config (map Combo_init defs).
Proof.
  apply (drive_keeps (registry_is (map config (map Combo_init defs)))).
  - apply registry_is_call.
  - reflexivity.
Qed.

(* ------------------------------------------------------------------ *)
(** ** [send_key_buffer] *)

Lemma forwarded_resume (k : Key) (p : bool) (c : Coord) (log : list KbdCall) :
  forwarded (ResumeProcessKey k p c :: log) = forwarded log ++ [(k, p)].
Proof. reflexivity. Qed.

Lemma send_key_buffer_loop (buf : list BufEvent) :
  forall w,
    exists w',
      for_each buf (fun e : BufEvent =>
        let '(int_coord, key, is_pressed, _) := e in
        resume_process_key key is_pressed int_coord) w = (Returned tt, w')
      /\ downstream w' = downstream w ++ buffer_events buf
      /\ self_of w' = self_of w
      /\ Combos_match_count w' = Combos_match_count w
      /\ armed (kbd_log w') = armed (kbd_log w).
Proof.
  induction buf as [| [[[c k] p] t] buf IH]; intros w.
  - exists w. simpl. rewrite app_nil_r. repeat split.
  - cbn [for_each]. unfold bind at 1. unfold resume_process_key at 1. unfold modify.
    destruct (IH (set_kbd (ResumeProcessKey k p c :: kbd_log w) (kbd_next w) w))
      as (w' & Hrun & Hd & Hs & Hm & Ha).
    exists w'. split; [exact Hrun | ]. rewrite Hd, Hs, Hm, Ha.
    unfold downstream. cbn [kbd_log set_kbd]. rewrite forwarded_resume.
    rewrite <- app_assoc. repeat split.
Qed.

(** X5. [send_key_buffer] forwards every buffered event, oldest first, and
    leaves the buffer, the combos, [match_count] and the timers as they
    are. *)
Theorem send_key_buffer_replays (w : World) :
  fst (send_key_buffer w) = Returned tt
  /\ downstream (snd (send_key_buffer w)) = downstream w ++ buffer_events (_key_buffer w)
  /\ self_of (snd (send_key_buffer w)) = self_of w
  /\ Combos_match_count (snd (send_key_buffer w)) = Combos_match_count w
  /\ armed (kbd_log (snd (send_key_buffer w))) = armed (kbd_log w).
Proof.
  unfold send_key_buffer, bind, get.
  destruct (send_key_buffer_loop (_key_buffer w) w) as (w' & Hrun & H).
  rewrite Hrun. split; [reflexivity | exact H].
Qed.

(* ------------------------------------------------------------------ *)
(** ** [matches] *)

Lemma list_update_ext {A : Type} (i : nat) (f g : A -> A) (l : list A) :
  (forall x, f x = g x) -> list_update i f l = list_update i g l.
Proof.
  intros H. revert i. induction l as [| x l IH]; intros [| i]; simpl; auto.
  - rewrite H. reflexivity.
  - rewrite (IH i). reflexivity.
Qed.

Lemma with_remaining_same (c : Combo) : with_remaining (_remaining c) c = c.
Proof. destruct c; reflexivity. Qed.

Lemma chord_matches_member (i : nat) (key : Key) (int_coord : Coord) (w : World)
      (c : Combo) (r' : list Ref) :
  nth_error (combos w) i = Some c ->
  kind c = Chord -> _match_coord c = false ->
  list_remove (RKey key) (_remaining c) = Some r' ->
  matches i key int_coord w
  = (Returned true, set_combos (list_update i (with_remaining r') (combos w)) w).
Proof.
  intros Hc Hk Hm Hr.
  assert (Hin : key_in key (_remaining c) = true).
  { unfold key_in. destruct (existsb (ref_eqb (RKey key)) (_remaining c)) eqn:H;
      [reflexivity | ]. apply list_remove_None in H. congruence. }
  unfold matches, bind. unfold combo_at at 1. rewrite Hc, Hk.
  unfold Chord_matches, bind. unfold combo_at at 1. rewrite Hc, Hm, Hin. simpl.
  unfold remaining_remove, bind, combo_at. rewrite Hc, Hr. reflexivity.
Qed.

(** X6. A chord that matches by key accepts the keys it still waits for in
    any order: offered a permutation of [remaining], [matches] returns
    [True] every time and [remaining] ends empty; nothing else changes. *)
Theorem chord_accepts_any_order (presses : list (Key * Coord)) :
  forall (i : nat) (w : World) (c : Combo),
    nth_error (combos w) i = Some c ->
    kind c = Chord -> _match_coord c = false ->
    Permutation (map (fun p => RKey (fst p)) presses) (_remaining c) ->
    matches_each i presses w
    = (Returned (map (fun _ => true) presses),
       set_combos (list_update i (with_remaining []) (combos w)) w).
Proof.
  induction presses as [| [key co] presses IH]; intros i w c Hc Hk Hm Hp.
  - simpl in Hp. apply Permutation_nil in Hp. simpl. unfold ret.
    rewrite (list_update_fixed i (with_remaining []) (combos w)), set_combos_same;
      [reflexivity | ].
    intros x Hx. rewrite Hc in Hx. injection Hx as <-.
    rewrite <- Hp. apply with_remaining_same.
  - cbn [map fst] in Hp.
    destruct (list_remove_In (RKey key) (_remaining c)) as [r' Hr'].
    { apply (Permutation_in _ Hp). left. reflexivity. }
    cbn [matches_each]. unfold bind at 1.
    rewrite (chord_matches_member i key co w c r' Hc Hk Hm Hr').
    unfold bind at 1.
    rewrite (IH i (set_combos (list_update i (with_remaining r') (combos w)) w)
               (with_remaining r' c)).
    + cbn [combos set_combos map]. rewrite list_update_twice. unfold ret.
      destruct w; reflexivity.
    + cbn [combos set_combos]. rewrite nth_error_list_update_eq, Hc. reflexivity.
    + exact Hk.
    + exact Hm.
    + cbn [_remaining with_remaining].
      apply Permutation_cons_inv with (a := RKey key).
      rewrite Hp. apply list_remove_Some, Hr'.
Qed.

Lemma chord_accepts_any_order_witness :
  matches_each 0 [(KC_B, None); (KC_A, None)] (booted [chord_AB])
  = (Returned [true; true],
     set_combos (list_update 0 (with_remaining []) (combos (booted [chord_AB])))
                (booted [chord_AB])).
Proof.
  apply (chord_accepts_any_order [(KC_B, None); (KC_A, None)] 0 (booted [chord_AB])
           (reset_combo (Combo_init chord_AB)) eq_refl eq_refl eq_refl).
  apply perm_swap.
Defined.

(** X7. A sequence that matches by key accepts the keys it waits for in
    their order. Offered the first keys of [remaining] in order,
    [matches] returns [True] every time, and the keys move from the front of
    [remaining] to the end of [pressed]; nothing else changes. *)
Theorem sequence_accepts_in_order (presses : list (Key * Coord)) :
  forall (i : nat) (w : World) (c : Combo) (p later : list Ref),
    nth_error (combos w) i = Some c ->
    kind c = Sequence -> _match_coord c = false ->
    pressed c = Some p ->
    _remaining c = map (fun e => RKey (fst e)) presses ++ later ->
    matches_each i presses w
    = (Returned (map (fun _ => true) presses),
       set_combos
         (list_update i
            (fun x => with_pressed (Some (p ++ map (fun e => RKey (fst e)) presses))
                        (with_remaining later x))
            (combos w)) w).
Proof.
  induction presses as [| [key co] presses IH]; intros i w c p later Hc Hk Hm Hp Hr.
  - simpl in *. unfold ret. rewrite app_nil_r.
    rewrite (list_update_fixed i _ (combos w)), set_combos_same; [reflexivity | ].
    intros x Hx. rewrite Hc in Hx. injection Hx as <-.
    destruct c; simpl in *; subst; reflexivity.
  - cbn [map fst app] in Hr. cbn [matches_each]. unfold bind at 1.
    unfold matches, bind. unfold combo_at at 1. rewrite Hc, Hk.
    unfold Sequence_matches, bind. unfold combo_at at 1.
    rewrite Hc, Hr, Hm, Hp, ref_eqb_refl. simpl.
    rewrite (IH i _ (with_pressed (Some (p ++ [RKey key]))
                       (with_remaining (map (fun e => RKey (fst e)) presses ++ later) c))
               (p ++ [RKey key]) later).
    + cbn [combos set_combos map fst]. rewrite !list_update_twice. unfold ret.
      rewrite <- app_assoc. destruct w; reflexivity.
    + cbn [combos set_combos].
      rewrite !nth_error_list_update_eq, Hc. reflexivity.
    + exact Hk.
    + exact Hm.
    + reflexivity.
    + reflexivity.
Qed.

Lemma sequence_accepts_in_order_witness :
  matches_each 0 [(KC_A, None); (KC_B, None)] (booted [seq_ABC])
  = (Returned [true; true],
     set_combos
       (list_update 0
          (fun x => with_pressed (Some ([] ++ [RKey KC_A; RKey KC_B]))
                      (with_remaining [RKey KC_C] x))
          (combos (booted [seq_ABC]))) (booted [seq_ABC])).
Proof.
  exact (sequence_accepts_in_order [(KC_A, None); (KC_B, None)] 0 (booted [seq_ABC])
           (reset_combo (Combo_init seq_ABC)) [] [RKey KC_C]
           eq_refl eq_refl eq_refl eq_refl eq_refl).
Defined.

(** X8. A press that [matches] turns down changes nothing: whenever
    [matches] returns [False], the world is as it was. *)
Theorem matches_refusal_changes_nothing (i : nat) (key : Key) (int_coord : Coord)
        (w : World) :
  fst (matches i key int_coord w) = Returned false ->
  snd (matches i key int_coord w) = w.
Proof.
  remember (matches i key int_coord w) as r eqn:E.
  unfold matches, bind in E. unfold combo_at at 1 in E.
  destruct (nth_error (combos w) i) as [c |] eqn:Hc; [ | subst r; discriminate].
  destruct (kind c).
  - unfold Chord_matches, bind in E. unfold combo_at at 1 in E. rewrite Hc in E.
    destruct (negb (_match_coord c) && key_in key (_remaining c)).
    + unfold remaining_remove, bind, combo_at in E. rewrite Hc in E.
      destruct (list_remove (RKey key) (_remaining c)); subst r; simpl; discriminate.
    + destruct (_match_coord c && coord_in int_coord (_remaining c));
        [ | subst r; reflexivity].
      unfold remaining_remove, bind, combo_at in E. rewrite Hc in E.
      destruct (coord_ref int_coord) as [r0 |]; [ | subst r; simpl; discriminate].
      destruct (list_remove r0 (_remaining c)); subst r; simpl; discriminate.
  - unfold Sequence_matches, bind in E. unfold combo_at at 1 in E. rewrite Hc in E.
    destruct (_remaining c) as [| r0 rest]; [subst r; reflexivity | ].
    destruct ((negb (_match_coord c) && ref_eqb r0 (RKey key))
              || (_match_coord c && ref_is_coord r0 int_coord));
      [ | subst r; reflexivity].
    destruct (pressed c); subst r; simpl; discriminate.
Qed.

Lemma matches_refusal_changes_nothing_witness :
  snd (matches 1 KC_B None (booted scenario_registry)) = booted scenario_registry.
Proof.
  exact (matches_refusal_changes_nothing 1 KC_B None (booted scenario_registry) eq_refl).
Defined.

(* ------------------------------------------------------------------ *)
(** ** What the methods of a combo leave alone *)

Section Effects.

Context {R : World -> World -> Prop}.
Hypothesis R_step : step_relation R.

Lemma effect_ret {A : Type} (a : A) : effect R (ret a).
Proof. intros w. split; [discriminate | apply (step_refl R R_step)]. Qed.

Lemma effect_raise {A : Type} (e : Exn) : effect R (@raise A e).
Proof. intros w. split; [discriminate | apply (step_refl R R_step)]. Qed.

Lemma effect_get {A : Type} (f : World -> A) : effect R (get f).
Proof. intros w. split; [discriminate | apply (step_refl R R_step)]. Qed.

Lemma effect_combo_at (i : nat) : effect R (combo_at i).
Proof.
  intros w. unfold combo_at. destruct (nth_error (combos w) i);
    (split; [discriminate | apply (step_refl R R_step)]).
Qed.

Lemma effect_bind {A B : Type} (m : M A) (f : A -> M B) :
  effect R m -> (forall a, effect R (f a)) -> effect R (bind m f).
Proof.
  intros Hm Hf w. unfold bind. destruct (Hm w) as [H1 H2].
  destruct (m w) as [[a | e |] w1]; simpl in *.
  - destruct (Hf a w1) as [H3 H4]. split; [exact H3 | ].
    apply (step_trans R R_step _ _ _ H2 H4).
  - split; [discriminate | exact H2].
  - congruence.
Qed.

Lemma effect_when (b : bool) (m : M unit) : effect R m -> effect R (when b m).
Proof. intros H. destruct b; [exact H | apply effect_ret]. Qed.

Lemma effect_for_each {A : Type} (l : list A) (body : A -> M unit) :
  (forall x, effect R (body x)) -> effect R (for_each l body).
Proof.
  intros H. induction l as [| x l IH]; simpl.
  - apply effect_ret.
  - apply effect_bind; [apply H | intros _; exact IH].
Qed.

Lemma effect_for_fold {A B : Type} (l : list A) (acc : B) (body : B -> A -> M B) :
  (forall a x, effect R (body a x)) -> effect R (for_fold l acc body).
Proof.
  intros H. revert acc. induction l as [| x l IH]; intros acc; simpl.
  - apply effect_ret.
  - apply effect_bind; [apply H | intros acc'; apply IH].
Qed.

End Effects.

Lemma effect_modify (R : World -> World -> Prop) (f : World -> World) :
  (forall w, R w (f w)) -> effect R (modify f).
Proof. intros H w. split; [discriminate | apply H]. Qed.

Lemma effect_weaken {A : Type} (R R' : World -> World -> Prop) (m : M A) :
  (forall w w', R w w' -> R' w w') -> effect R m -> effect R' m.
Proof. intros H Hm w. destruct (Hm w) as [H1 H2]. split; [exact H1 | apply H, H2]. Qed.

Lemma quiet_step_relation (T : nat -> Prop) : step_relation (quiet_step T).
Proof.
  constructor.
  - intros w. repeat split.
  - intros w1 w2 w3 (A1 & A2 & A3 & A4 & A5 & A6 & A7 & A8 & A9 & A10)
           (B1 & B2 & B3 & B4 & B5 & B6 & B7 & B8 & B9 & B10).
    repeat split; try congruence.
    intros j Hj. rewrite (B10 j Hj). apply (A10 j Hj).
Qed.

Lemma combo_step_relation (T : nat -> Prop) : step_relation (combo_step T).
Proof.
  constructor.
  - intros w. repeat split.
  - intros w1 w2 w3 (A1 & A2 & A3 & A4 & A5 & A6 & A7 & A8 & A9 & A10)
           (B1 & B2 & B3 & B4 & B5 & B6 & B7 & B8 & B9 & B10).
    repeat split; try congruence.
    intros j Hj. rewrite (B10 j Hj). apply (A10 j Hj).
Qed.

Lemma quiet_step_combo_step (T : nat -> Prop) (w w' : World) :
  quiet_step T w w' -> combo_step T w w'.
Proof.
  intros (A1 & A2 & A3 & A4 & A5 & A6 & A7 & A8 & A9 & A10).
  repeat split; try assumption. rewrite A8. reflexivity.
Qed.

Lemma combo_step_widen (T T' : nat -> Prop) (w w' : World) :
  (forall j, T j -> T' j) -> combo_step T w w' -> combo_step T' w w'.
Proof.
  intros H (A1 & A2 & A3 & A4 & A5 & A6 & A7 & A8 & A9 & A10).
  repeat split; try assumption. intros j Hj. apply A10. intros Hn. apply Hj, H, Hn.
Qed.

Ltac step_rel := first [ apply quiet_step_relation | apply combo_step_relation ].

Ltac effect_step :=
  match goal with
  | |- effect _ (bind _ _) => apply effect_bind; [ step_rel | | intro ]
  | |- effect _ (ret _) => apply effect_ret; step_rel
  | |- effect _ (raise _) => apply effect_raise; step_rel
  | |- effect _ (get _) => apply effect_get; step_rel
  | |- effect _ (combo_at _) => apply effect_combo_at; step_rel
  | |- effect _ (when _ _) => apply effect_when; [ step_rel | ]
  | |- effect _ (for_each _ _) => apply effect_for_each; [ step_rel | intro ]
  | |- effect _ (for_fold _ _ _) => apply effect_for_fold; [ step_rel | intros ]
  | |- effect _ (match ?x with _ => _ end) => destruct x
  | |- effect _ (let '(_, _) := ?x in _) => destruct x
  end.

Lemma quiet_update_combo (T : nat -> Prop) (i : nat) (f : Combo -> Combo) :
  T i -> (forall c, config (f c) = config c) ->
  effect (quiet_step T) (update_combo i f).
Proof.
  intros Hi Hf. apply effect_modify. intros w.
  repeat split; simpl.
  - apply map_list_update_same, Hf.
  - intros j Hj. apply nth_error_list_update_neq. intros ->. apply Hj, Hi.
Qed.

Lemma quiet_add_match_count (T : nat -> Prop) (d : Z) :
  effect (quiet_step T) (add_match_count d).
Proof. apply effect_modify. intros w. repeat split. Qed.

Ltac quiet_walk tac :=
  repeat first
    [ effect_step
    | apply quiet_add_match_count
    | apply quiet_update_combo; [assumption | reflexivity]
    | tac ].

Section QuietMethods.

Variable T : nat -> Prop.
Variable i : nat.
Hypothesis Ti : T i.

Lemma quiet_set_state s : effect (quiet_step T) (set_state i s).
Proof. unfold set_state. quiet_walk fail. Qed.

Lemma quiet_reset : effect (quiet_step T) (reset i).
Proof. unfold reset. quiet_walk ltac:(apply quiet_set_state). Qed.

Lemma quiet_remaining_remove x : effect (quiet_step T) (remaining_remove i x).
Proof. unfold remaining_remove. quiet_walk fail. Qed.

Lemma quiet_matches key int_coord : effect (quiet_step T) (matches i key int_coord).
Proof.
  unfold matches, Chord_matches, Sequence_matches.
  quiet_walk ltac:(apply quiet_remaining_remove).
Qed.

Lemma quiet_uses_match key int_coord : effect (quiet_step T) (uses_match i key int_coord).
Proof. unfold uses_match. quiet_walk fail. Qed.

Lemma quiet_unpress key int_coord : effect (quiet_step T) (unpress i key int_coord).
Proof. unfold unpress. quiet_walk fail. Qed.

End QuietMethods.

(** X9. [matches], [uses_match], [unpress], [reset] and the state setter of
    the combo number [i] are never cut short and, however they end, change
    nothing but [match_count] and the remaining keys, pressed keys and
    state of that one combo. *)
Theorem combo_methods_touch_one_combo (i : nat) (key : Key) (int_coord : Coord)
        (s : ComboState) :
  effect (quiet_step (eq i)) (matches i key int_coord)
  /\ effect (quiet_step (eq i)) (uses_match i key int_coord)
  /\ effect (quiet_step (eq i)) (unpress i key int_coord)
  /\ effect (quiet_step (eq i)) (reset i)
  /\ effect (quiet_step (eq i)) (set_state i s).
Proof.
  split_all.
  - apply quiet_matches; reflexivity.
  - apply quiet_uses_match; reflexivity.
  - apply quiet_unpress; reflexivity.
  - apply quiet_reset; reflexivity.
  - apply quiet_set_state; reflexivity.
Qed.

(* ------------------------------------------------------------------ *)
(** ** Computations that are not cut short *)

Lemma runs_ret {A : Type} (P : World -> Prop) (a : A) (Q : A -> World -> Prop) :
  (forall w, P w -> Q a w) -> runs P (ret a) Q.
Proof. intros H w Hw. apply H, Hw. Qed.

Lemma runs_raise {A : Type} (P : World -> Prop) (e : Exn) (Q : A -> World -> Prop) :
  runs P (raise e) Q.
Proof. intros w Hw. exact I. Qed.

Lemma runs_modify (P : World -> Prop) (f : World -> World) (Q : unit -> World -> Prop) :
  (forall w, P w -> Q tt (f w)) -> runs P (modify f) Q.
Proof. intros H w Hw. apply H, Hw. Qed.

Lemma runs_bind {A B : Type} (P Mid : World -> Prop) (m : M A) (f : A -> M B)
      (Q : B -> World -> Prop) :
  runs P m (fun _ => Mid) -> (forall a, runs Mid (f a) Q) -> runs P (bind m f) Q.
Proof.
  intros Hm Hf w Hw. unfold bind. specialize (Hm w Hw).
  destruct (m w) as [[a | e |] w1]; [apply Hf, Hm | exact I | exact Hm].
Qed.

Lemma runs_bind_get {A B : Type} (P : World -> Prop) (g : World -> A) (f : A -> M B)
      (Q : B -> World -> Prop) :
  (forall a, runs (fun w => P w /\ g w = a) (f a) Q) -> runs P (bind (get g) f) Q.
Proof. intros H w Hw. unfold bind, get. apply (H (g w) w). split; [exact Hw | reflexivity]. Qed.

Lemma runs_bind_combo_at {B : Type} (P : World -> Prop) (i : nat) (f : Combo -> M B)
      (Q : B -> World -> Prop) :
  (forall c, runs (fun w => P w /\ nth_error (combos w) i = Some c) (f c) Q) ->
  runs P (bind (combo_at i) f) Q.
Proof.
  intros H w Hw. unfold bind, combo_at.
  destruct (nth_error (combos w) i) as [c |] eqn:Hc; [ | exact I].
  apply (H c w). split; [exact Hw | exact Hc].
Qed.

Lemma runs_pre {A : Type} (P P' : World -> Prop) (m : M A) (Q : A -> World -> Prop) :
  (forall w, P' w -> P w) -> runs P m Q -> runs P' m Q.
Proof. intros H Hm w Hw. apply Hm, H, Hw. Qed.

Lemma runs_post {A : Type} (P : World -> Prop) (m : M A) (Q Q' : A -> World -> Prop) :
  (forall a w, Q a w -> Q' a w) -> runs P m Q -> runs P m Q'.
Proof.
  intros H Hm w Hw. specialize (Hm w Hw).
  destruct (m w) as [[a | e |] w1]; [apply H, Hm | exact I | exact Hm].
Qed.

(** A fact that follows from the precondition may be used. *)
Lemma runs_fact {A : Type} (P : World -> Prop) (F : Prop) (m : M A)
      (Q : A -> World -> Prop) :
  (forall w, P w -> F) -> (F -> runs P m Q) -> runs P m Q.
Proof. intros HF H w Hw. apply (H (HF w Hw) w Hw). Qed.

Lemma runs_when (P : World -> Prop) (b : bool) (m : M unit) :
  (b = true -> runs P m (fun _ => P)) -> runs P (when b m) (fun _ => P).
Proof.
  intros H. destruct b; [apply H; reflexivity | apply runs_ret; auto].
Qed.

(** What an [effect] and an invariant say together. *)
Lemma runs_effect {A : Type} (R : World -> World -> Prop) (Inv P Q : World -> Prop)
      (m : M A) :
  effect R m -> keeps Inv m ->
  (forall w w', Inv w -> P w -> R w w' -> Inv w' -> Q w') ->
  runs (fun w => Inv w /\ P w) m (fun _ => Q).
Proof.
  intros He Hk H w [Hi Hp]. destruct (He w) as [H1 H2].
  pose proof (keeps_snd _ _ Hk w Hi) as H3.
  destruct (m w) as [[a | e |] w1]; simpl in *.
  - apply (H w w1 Hi Hp H2 H3).
  - exact I.
  - congruence.
Qed.

(** A loop whose invariant moves on with every round. *)
Lemma runs_for_each_indexed {A : Type} (L : nat -> World -> Prop) (body : A -> M unit)
      (l : list A) :
  forall k,
    (forall j x, (k <= j < k + length l)%nat -> runs (L j) (body x) (fun _ => L (S j))) ->
    runs (L k) (for_each l body) (fun _ => L (k + length l)%nat).
Proof.
  induction l as [| x l IH]; intros k H; simpl.
  - apply runs_ret. intros w Hw. rewrite Nat.add_0_r. exact Hw.
  - apply runs_bind with (Mid := L (S k)).
    + apply H. simpl. lia.
    + intros _. replace (k + S (length l))%nat with (S k + length l)%nat by lia.
      apply IH. intros j y Hj. apply H. simpl. lia.
Qed.

Lemma runs_for_fold_seq {B : Type} (L : nat -> World -> Prop) (body : B -> nat -> M B)
      (n : nat) :
  forall k acc,
    (forall j a, (k <= j < k + n)%nat -> runs (L j) (body a j) (fun _ => L (S j))) ->
    runs (L k) (for_fold (seq k n) acc body) (fun _ => L (k + n)%nat).
Proof.
  induction n as [| n IH]; intros k acc H; simpl.
  - apply runs_ret. intros w Hw. rewrite Nat.add_0_r. exact Hw.
  - apply runs_bind with (Mid := L (S k)).
    + apply H. lia.
    + intros acc'. replace (k + S n)%nat with (S k + n)%nat by lia.
      apply IH. intros j a Hj. apply H. lia.
Qed.

Lemma same_states_relation : step_relation same_states.
Proof.
  constructor.
  - intros w. reflexivity.
  - intros w1 w2 w3 H1 H2. unfold same_states in *. congruence.
Qed.

Lemma effect_and {A : Type} (R1 R2 : World -> World -> Prop) (m : M A) :
  effect R1 m -> effect R2 m -> effect (fun w w' => R1 w w' /\ R2 w w') m.
Proof.
  intros H1 H2 w. destruct (H1 w) as [Ha Hb]. destruct (H2 w) as [_ Hc].
  split; [exact Ha | split; [exact Hb | exact Hc]].
Qed.

Lemma same_states_update (i : nat) (f : Combo -> Combo) :
  (forall c, _state (f c) = _state c) -> effect same_states (update_combo i f).
Proof.
  intros Hf. apply effect_modify. intros w. unfold same_states. simpl.
  apply map_list_update_same, Hf.
Qed.

(** [matches] leaves every combo in the state it was in. *)
Lemma matches_same_states (i : nat) (key : Key) (int_coord : Coord) :
  effect same_states (matches i key int_coord).
Proof.
  unfold matches, Chord_matches, Sequence_matches, remaining_remove.
  repeat first
    [ apply effect_bind; [apply same_states_relation | | intro]
    | apply effect_ret; apply same_states_relation
    | apply effect_raise; apply same_states_relation
    | apply effect_combo_at; apply same_states_relation
    | apply same_states_update; reflexivity
    | match goal with |- effect _ (match ?x with _ => _ end) => destruct x end ].
Qed.

Lemma keeps_count_matches i k c : keeps match_count_ok (matches i k c).
Proof. apply (triple_matches _ _ match_count_ok_stable (fun _ h => h)). Qed.

Lemma keeps_count_reset i : keeps match_count_ok (reset i).
Proof. apply (triple_reset _ _ match_count_ok_stable (fun _ h => h)). Qed.

Lemma keeps_count_reset_combos : keeps match_count_ok reset_combos.
Proof. apply (triple_reset_combos _ _ match_count_ok_stable (fun _ h => h)). Qed.

Lemma keeps_count_send_pending : keeps match_count_ok send_pending_combos.
Proof. apply (triple_send_pending_combos _ _ match_count_ok_stable (fun _ h => h)). Qed.

Lemma keeps_count_on_release_combo k c acc i :
  keeps match_count_ok (on_release_combo k c acc i).
Proof. apply (triple_on_release_combo _ _ match_count_ok_stable (fun _ h => h)). Qed.

Lemma pending_matching_step (k : nat) (w w' : World) :
  quiet_step (eq k) w w' -> pending_matching k w -> pending_matching k w'.
Proof.
  intros (_ & Hp & _ & _ & _ & _ & _ & _ & _ & Hframe) H i Hi.
  rewrite Hp in Hi. destruct (H i Hi) as [Hlt Hc]. split; [exact Hlt | ].
  rewrite Hframe; [exact Hc | lia].
Qed.

Lemma pending_matching_next (k : nat) (w : World) :
  pending_matching k w -> pending_matching (S k) w.
Proof. intros H i Hi. destruct (H i Hi) as [Hlt Hc]. split; [lia | exact Hc]. Qed.

Lemma nth_error_same_state (l l' : list Combo) (k : nat) (c : Combo) :
  map _state l' = map _state l -> nth_error l k = Some c ->
  exists c', nth_error l' k = Some c' /\ _state c' = _state c.
Proof.
  intros Hm Hc.
  assert (H : nth_error (map _state l') k = Some (_state c)).
  { rewrite Hm, nth_error_map, Hc. reflexivity. }
  rewrite nth_error_map in H. destruct (nth_error l' k) as [c' |]; [ | discriminate].
  exists c'. split; [reflexivity | ]. simpl in H. congruence.
Qed.

(** One round of the loop of [on_press]: the buffer is left alone, and the
    pending combos are in MATCHING. *)
Lemma on_press_combo_runs (b k : nat) (key : Key) (co : Coord) (d1 d2 : Q) (acc : Z * Z) :
  runs (fun w => match_count_ok w
                 /\ (length (_key_buffer w) <= b)%nat /\ pending_matching k w)
       (on_press_combo key co d1 d2 acc k)
       (fun _ w => match_count_ok w
                   /\ (length (_key_buffer w) <= b)%nat /\ pending_matching (S k) w).
Proof.
  unfold on_press_combo. destruct acc as [lt mu].
  apply runs_bind_combo_at. intro c.
  destruct (negb (state_eqb (_state c) MATCHING)) eqn:Hs.
  { apply runs_ret. intros w [(Hm & Hb & Hp) _].
    split; [exact Hm | split; [exact Hb | apply pending_matching_next, Hp]]. }
  apply negb_false_iff in Hs.
  apply runs_bind
    with (Mid := fun w => match_count_ok w
                          /\ (length (_key_buffer w) <= b)%nat /\ pending_matching k w
                          /\ exists c', nth_error (combos w) k = Some c'
                                        /\ is_matching c' = true).
  { eapply runs_pre;
      [ | apply (runs_effect (fun w w' => quiet_step (eq k) w w' /\ same_states w w')
                   match_count_ok
                   (fun w => (length (_key_buffer w) <= b)%nat /\ pending_matching k w
                             /\ nth_error (combos w) k = Some c))].
    - intros w [(Hm & Hb & Hp) Hc]. split; [exact Hm | ]. split_all; assumption.
    - apply effect_and; [apply quiet_matches; reflexivity | apply matches_same_states].
    - apply keeps_count_matches.
    - intros w w' _ (Hb & Hp & Hc) [Hq Hst] Hm'. split; [exact Hm' | ].
      split; [destruct Hq as (Hbuf & _); rewrite Hbuf; exact Hb | ].
      split; [apply (pending_matching_step k w w' Hq Hp) | ].
      destruct (nth_error_same_state _ _ k c Hst Hc) as (c' & Hc' & Hs').
      exists c'. split; [exact Hc' | ]. unfold is_matching. rewrite Hs'. exact Hs. }
  intro m. apply runs_bind_combo_at. intro c'.
  destruct (m && (per_key_timeout c' && within d1 c'
                  || negb (per_key_timeout c') && within d2 c')).
  - destruct (length (_remaining c') =? 0)%nat.
    + apply runs_bind
        with (Mid := fun w => match_count_ok w
                              /\ (length (_key_buffer w) <= b)%nat
                              /\ pending_matching (S k) w).
      * apply runs_modify. intros w [(Hm & Hb & Hp & c2 & Hc2 & Hm2) _].
        split; [exact Hm | ]. split; [exact Hb | ].
        intros i Hi. cbn [_pending_combos set_pending_combos] in Hi.
        apply in_app_or in Hi. destruct Hi as [Hi | [<- | []]].
        -- destruct (Hp i Hi) as [Hlt Hc]. split; [lia | exact Hc].
        -- split; [lia | exists c2; split; assumption].
      * intros _. apply runs_ret. intros w H. exact H.
    + apply runs_ret. intros w [(Hm & Hb & Hp & _) _].
      split; [exact Hm | split; [exact Hb | apply pending_matching_next, Hp]].
  - apply runs_bind
      with (Mid := fun w => match_count_ok w
                            /\ (length (_key_buffer w) <= b)%nat /\ pending_matching k w).
    { eapply runs_pre;
        [ | apply (runs_effect (quiet_step (eq k)) match_count_ok
                     (fun w => (length (_key_buffer w) <= b)%nat /\ pending_matching k w))].
      - intros w [(Hm & Hb & Hp & _) _]. split; [exact Hm | split; assumption].
      - apply quiet_reset. reflexivity.
      - apply keeps_count_reset.
      - intros w w' _ (Hb & Hp) Hq Hm'. split; [exact Hm' | ].
        split; [destruct Hq as (Hbuf & _); rewrite Hbuf; exact Hb | ].
        apply (pending_matching_step k w w' Hq Hp). }
    intros _.
    apply runs_bind
      with (Mid := fun w => match_count_ok w
                            /\ (length (_key_buffer w) <= b)%nat /\ pending_matching k w).
    { apply (runs_effect (quiet_step (eq k)) match_count_ok
               (fun w => (length (_key_buffer w) <= b)%nat /\ pending_matching k w)).
      - apply quiet_set_state. reflexivity.
      - apply match_count_ok_set_state.
      - intros w w' _ (Hb & Hp) Hq Hm'. split; [exact Hm' | ].
        split; [destruct Hq as (Hbuf & _); rewrite Hbuf; exact Hb | ].
        apply (pending_matching_step k w w' Hq Hp). }
    intros _. apply runs_ret. intros w (Hm & Hb & Hp).
    split; [exact Hm | split; [exact Hb | apply pending_matching_next, Hp]].
Qed.

(* ------------------------------------------------------------------ *)
(** ** What the engine's dealings with the combos leave alone *)

Lemma effect_quiet_combo {A : Type} (T : nat -> Prop) (m : M A) :
  effect (quiet_step T) m -> effect (combo_step T) m.
Proof. apply effect_weaken. apply quiet_step_combo_step. Qed.

Lemma combo_resume (T : nat -> Prop) k p c :
  effect (combo_step T) (resume_process_key k p c).
Proof. apply effect_modify. intros w. repeat split. Qed.

Ltac combo_walk tac :=
  repeat first
    [ effect_step
    | apply combo_resume
    | apply effect_quiet_combo; apply quiet_set_state; exact I
    | apply effect_quiet_combo; apply quiet_reset; exact I
    | apply effect_quiet_combo; apply quiet_uses_match; exact I
    | apply effect_quiet_combo; apply quiet_unpress; exact I
    | tac ].

Lemma combo_activate i : effect (combo_step any_combo) (activate i).
Proof. unfold activate. combo_walk fail. Qed.

Lemma combo_deactivate i : effect (combo_step any_combo) (deactivate i).
Proof. unfold deactivate. combo_walk fail. Qed.

Lemma combo_reset_combos : effect (combo_step any_combo) reset_combos.
Proof. unfold reset_combos, for_combos. combo_walk fail. Qed.

Lemma combo_deactivate_if_released i items :
  effect (combo_step any_combo) (deactivate_if_released i items).
Proof.
  induction items as [| [[bc bk] n] items IH]; simpl.
  - apply effect_ret, combo_step_relation.
  - combo_walk ltac:(first [apply combo_deactivate | exact IH]).
Qed.

Lemma combo_on_release_combo k c acc i :
  effect (combo_step any_combo) (on_release_combo k c acc i).
Proof. unfold on_release_combo. combo_walk ltac:(apply combo_deactivate). Qed.

Lemma any_step_relation : step_relation any_step.
Proof. constructor; intros; exact I. Qed.

Lemma effect_any {A : Type} (R : World -> World -> Prop) (m : M A) :
  effect R m -> effect any_step m.
Proof. apply effect_weaken. intros; exact I. Qed.

(** [send_pending_combos] is not cut short. *)
Lemma send_pending_combos_ends : effect any_step send_pending_combos.
Proof.
  unfold send_pending_combos.
  repeat first
    [ apply (effect_any _ _ (combo_activate _))
    | apply (effect_any _ _ (combo_deactivate_if_released _ _))
    | apply (effect_any _ _ combo_reset_combos)
    | apply (effect_any (quiet_step any_combo)); apply quiet_set_state; exact I
    | apply effect_modify; intros; exact I
    | apply effect_get; apply any_step_relation
    | apply effect_for_each; [apply any_step_relation | intro]
    | apply effect_bind; [apply any_step_relation | | intro] ].
Qed.

(** What only looks at the buffer survives whatever is done to the
    combos. *)
Lemma combo_runs {A : Type} (T : nat -> Prop) (P : World -> Prop) (m : M A) :
  effect (combo_step T) m -> keeps match_count_ok m ->
  (forall w w', _key_buffer w' = _key_buffer w -> P w -> P w') ->
  runs (fun w => match_count_ok w /\ P w) m (fun _ w => match_count_ok w /\ P w).
Proof.
  intros He Hk HP.
  apply (runs_effect (combo_step T) match_count_ok P); [exact He | exact Hk | ].
  intros w w' _ Hp (Hbuf & _) Hm. split; [exact Hm | apply (HP w w' Hbuf Hp)].
Qed.

Lemma window_bounded_weaken (b b' : nat) (w : World) :
  (b <= b')%nat -> window_bounded b w -> window_bounded b' w.
Proof. intros H [Hm Hb]. split; [exact Hm | lia]. Qed.

Lemma window_empty_bounded (b : nat) (w : World) : window_empty w -> window_bounded b w.
Proof. intros [Hm Hb]. split; [exact Hm | rewrite Hb; simpl; lia]. Qed.

Lemma copes_below_weaken pk (s s' : nat) :
  (s' <= s)%nat -> copes_below pk s -> copes_below pk s'.
Proof. intros H Hc j k p c Hj. apply Hc. lia. Qed.

Lemma runs_reset_combos_bounded (b : nat) :
  runs (window_bounded b) reset_combos (fun _ => window_bounded b).
Proof.
  apply (combo_runs any_combo (fun w => (length (_key_buffer w) <= b)%nat));
    [apply combo_reset_combos | apply keeps_count_reset_combos | ].
  intros w w' H. rewrite H. auto.
Qed.

Lemma runs_resume_bounded (b : nat) k p c :
  runs (window_bounded b) (resume_process_key k p c) (fun _ => window_bounded b).
Proof. apply runs_modify. intros w H. exact H. Qed.

Lemma runs_cancel_bounded (b : nat) :
  runs (window_bounded b) cancel_outstanding (fun _ => window_bounded b).
Proof.
  intros w H. unfold cancel_outstanding, bind, get. destruct (_timeout w); exact H.
Qed.

Lemma runs_arm_bounded (b : nat) (t : Z) :
  runs (window_bounded b) (arm_timeout t) (fun _ => window_bounded b).
Proof. intros w H. exact H. Qed.

Lemma runs_elapsed (P : World -> Prop) (t : Z) (o : option Z) :
  runs P (elapsed t o) (fun _ => P).
Proof. destruct o; simpl; [apply runs_ret; auto | apply runs_raise]. Qed.

(** [send_pending_combos] is not cut short and leaves the buffer empty. *)
Lemma runs_send_pending_combos :
  runs match_count_ok send_pending_combos (fun _ => window_empty).
Proof.
  intros w Hw. destruct (send_pending_combos_ends w) as [Hcut _].
  pose proof (keeps_snd _ _ keeps_count_send_pending w Hw) as Hm.
  assert (Hbuf : fst (send_pending_combos w) = Returned tt ->
                 _key_buffer (snd (send_pending_combos w)) = []).
  { unfold send_pending_combos, bind, get.
    destruct (for_each _ _ w) as [[[] | e |] w1]; try discriminate.
    unfold modify. rewrite reset_combos_eq. intros _. reflexivity. }
  destruct (send_pending_combos w) as [[[] | e |] w']; simpl in *.
  - split; [exact Hm | apply Hbuf; reflexivity].
  - exact I.
  - congruence.
Qed.

(* ------------------------------------------------------------------ *)
(** ** The engine is not cut short *)

Lemma count_matching_nonneg (l : list Combo) : 0 <= count_matching l.
Proof. induction l as [| c l IH]; simpl; [lia | destruct (is_matching c); lia]. Qed.

Lemma count_matching_positive (l : list Combo) (i : nat) (c : Combo) :
  nth_error l i = Some c -> is_matching c = true -> 1 <= count_matching l.
Proof.
  revert i. induction l as [| x l IH]; intros [| i] H Hc; simpl in *; try discriminate.
  - injection H as ->. rewrite Hc. pose proof (count_matching_nonneg l). lia.
  - pose proof (IH i H Hc). destruct (is_matching x); lia.
Qed.

(** When no combo is in MATCHING, no combo is pending. *)
Lemma no_match_no_pending (k : nat) (w : World) :
  match_count_ok w -> pending_matching k w -> Combos_match_count w = 0 ->
  _pending_combos w = [].
Proof.
  intros Hm Hp H0. destruct (_pending_combos w) as [| i l] eqn:E; [reflexivity | ].
  destruct (Hp i) as (_ & c & Hc & Hs); [rewrite E; left; reflexivity | ].
  pose proof (count_matching_positive _ _ _ Hc Hs). unfold match_count_ok in Hm. lia.
Qed.

Section Termination.

Variable pk : Key -> bool -> Coord -> M unit.

Lemma replay_one_runs (s j : nat) key co e :
  copes_below pk s -> (j + 2 <= s)%nat ->
  runs (window_bounded j) (replay_one pk key co e) (fun _ => window_bounded (S j)).
Proof.
  intros Hc Hj. destruct e as [[[bc bk] bp] t]. unfold replay_one.
  apply runs_bind with (Mid := window_bounded j).
  - apply runs_when. intros _. apply runs_resume_bounded.
  - intros _. apply Hc, Hj.
Qed.

(** The [while] loop of [flush_buffers] ends within as many rounds as
    events are buffered, with an empty buffer. *)
Lemma flush_while_runs (n : nat) :
  forall s, (s <= n)%nat -> copes_below pk s ->
            runs (window_bounded s) (flush_while pk n) (fun _ => window_empty).
Proof.
  induction n as [| n IH]; intros s Hs Hc; simpl.
  - apply runs_bind_get. intros buf. destruct buf as [| [[[co k] p] t] rest].
    + apply runs_ret. intros w [[Hm _] Hb]. split; assumption.
    + apply (runs_fact _ False); [ | intros []].
      intros w [[_ Hb] He]. rewrite He in Hb. simpl in Hb. lia.
  - apply runs_bind_get. intros buf. destruct buf as [| [[[co k] p] t] rest].
    + apply runs_ret. intros w [[Hm _] Hb]. split; assumption.
    + apply (runs_fact _ (S (length rest) <= s)%nat).
      { intros w [[_ Hb] He]. rewrite He in Hb. exact Hb. }
      intros Hlen.
      apply runs_bind with (Mid := fun w => match_count_ok w /\ _key_buffer w = rest).
      { apply runs_modify. intros w [[Hm _] _]. split; [exact Hm | reflexivity]. }
      intros _.
      apply runs_bind with (Mid := fun w => match_count_ok w /\ _key_buffer w = rest).
      { apply runs_modify. intros w H. exact H. }
      intros _.
      apply runs_bind with (Mid := window_bounded (length rest)).
      { destruct p; simpl.
        - apply runs_bind with (Mid := fun w => match_count_ok w /\ _key_buffer w = rest).
          { apply (combo_runs any_combo (fun w => _key_buffer w = rest));
              [apply combo_reset_combos | apply keeps_count_reset_combos | ].
            intros w w' H. rewrite H. auto. }
          intros _.
          apply runs_bind with (Mid := fun w => match_count_ok w /\ _key_buffer w = rest).
          { apply runs_modify. intros w H. exact H. }
          intros _. apply runs_bind_get. intros old.
          apply (runs_fact _ (old = rest)).
          { intros w [[_ H1] H2]. congruence. }
          intros ->.
          apply runs_bind with (Mid := window_bounded 0).
          { apply runs_modify. intros w [[Hm _] _]. split; [exact Hm | simpl; lia]. }
          intros _.
          apply (runs_for_each_indexed window_bounded (replay_one pk k co) rest 0%nat).
          intros j x Hj. apply (replay_one_runs s); [exact Hc | lia].
        - apply runs_ret. intros w [Hm Hb]. split; [exact Hm | rewrite Hb; lia]. }
      intros _. apply IH; [lia | apply (copes_below_weaken pk s); [lia | exact Hc]].
Qed.

Lemma flush_buffers_runs (n s : nat) :
  (s <= n)%nat -> copes_below pk s ->
  runs (window_bounded s) (flush_buffers pk n) (fun _ => window_empty).
Proof.
  intros Hs Hc. unfold flush_buffers. apply runs_bind_get. intros pending.
  apply runs_bind with (Mid := window_bounded s).
  - destruct (nonempty pending); simpl.
    + apply runs_pre with (P := match_count_ok); [intros w [[Hm _] _]; exact Hm | ].
      apply runs_post with (Q := fun _ => window_empty); [ | apply runs_send_pending_combos].
      intros _ w Hw. apply window_empty_bounded, Hw.
    + apply runs_ret. intros w [H _]. exact H.
  - intros _. apply flush_while_runs; assumption.
Qed.

(** [on_press] is not cut short when the fuel exceeds the number of
    buffered events, and adds at most one event to the buffer. *)
Lemma on_press_runs (n b : nat) key co :
  (S b <= n)%nat -> copes_below pk (S b) ->
  runs (window_bounded b) (on_press pk n key co) (fun _ => window_bounded (S b)).
Proof.
  intros Hn Hc. unfold on_press.
  apply runs_bind with (Mid := window_bounded b); [apply runs_cancel_bounded | intros _].
  unfold ticks_ms. apply runs_bind_get. intros now.
  apply runs_bind_get. intros st.
  apply runs_bind with (Mid := window_bounded b).
  { apply runs_pre with (P := window_bounded b); [intros w H; apply H | ].
    apply runs_when. intros _. apply runs_modify. intros w H. exact H. }
  intros _. apply runs_bind_get. intros buf. apply runs_bind_get. intros st'.
  cbv zeta.
  apply runs_bind
    with (Mid := fun w => match_count_ok w /\ (length (_key_buffer w) <= b)%nat
                          /\ pending_matching 0 w).
  { apply runs_modify. intros w [[[Hm Hb] _] _]. split_all; [exact Hm | exact Hb | ].
    intros i []. }
  intros _.
  apply runs_bind
    with (Mid := fun w => match_count_ok w /\ (length (_key_buffer w) <= b)%nat
                          /\ pending_matching 0 w); [apply runs_elapsed | intros d_last].
  apply runs_bind_get. intros st''.
  apply runs_bind
    with (Mid := fun w => match_count_ok w /\ (length (_key_buffer w) <= b)%nat
                          /\ pending_matching 0 w).
  { apply runs_pre with (P := fun w => match_count_ok w /\ (length (_key_buffer w) <= b)%nat
                                       /\ pending_matching 0 w);
      [intros w H; apply H | apply runs_elapsed]. }
  intros d_start. apply runs_bind_get. intros len.
  apply runs_bind
    with (Mid := fun w => match_count_ok w /\ (length (_key_buffer w) <= b)%nat
                          /\ pending_matching len w).
  { apply runs_pre with (P := fun w => match_count_ok w /\ (length (_key_buffer w) <= b)%nat
                                       /\ pending_matching 0 w); [intros w H; apply H | ].
    apply (runs_for_fold_seq
             (fun j w => match_count_ok w /\ (length (_key_buffer w) <= b)%nat
                         /\ pending_matching j w)
             (on_press_combo key co d_last d_start) len 0%nat (0, 0)).
    intros j a _. apply on_press_combo_runs. }
  intros [lt mu]. apply runs_bind_get. intros mc.
  destruct (mc =? 0) eqn:Hmc.
  - apply Z.eqb_eq in Hmc. subst mc.
    apply runs_bind_get. intros pending. apply runs_bind_get. intros buf'.
    apply (runs_fact _ (pending = [])).
    { intros w [[[(Hm & _ & Hp) H0] Hpe] _]. rewrite <- Hpe.
      apply (no_match_no_pending len w Hm Hp H0). }
    intros ->. simpl.
    destruct buf' as [| e rest]; simpl.
    + apply runs_bind with (Mid := window_bounded b).
      * apply runs_modify. intros w [[[(Hm & Hb & _) _] _] _]. split; assumption.
      * intros _.
        apply runs_post with (Q := fun _ => window_bounded b);
          [ | apply runs_reset_combos_bounded].
        intros _ w. apply window_bounded_weaken. lia.
    + apply (runs_fact _ (1 <= b)%nat).
      { intros w [[[(_ & Hb & _) _] _] He]. rewrite He in Hb. simpl in Hb. lia. }
      intros Hb1.
      apply runs_bind with (Mid := window_empty).
      { apply runs_pre with (P := window_bounded b).
        - intros w [[[(Hm & Hb & _) _] _] _]. split; assumption.
        - apply flush_buffers_runs; [lia | ].
          apply (copes_below_weaken pk (S b)); [lia | exact Hc]. }
      intros _.
      apply runs_bind with (Mid := window_bounded 0).
      { apply runs_modify. intros w [Hm Hb]. split; [exact Hm | ].
        cbn [_key_buffer set_self_start_timepoint]. rewrite Hb. simpl. lia. }
      intros _.
      apply runs_post with (Q := fun _ => window_bounded 1); [ | apply (Hc 0%nat); lia].
      intros _ w. apply window_bounded_weaken. lia.
  - apply runs_bind with (Mid := window_bounded (S b)).
    { apply runs_modify. intros w [(Hm & Hb & _) _]. split; [exact Hm | ].
      cbn [_key_buffer set_key_buffer]. rewrite length_app. simpl. lia. }
    intros _. destruct (mu =? 0).
    + apply runs_pre with (P := match_count_ok); [intros w [Hm _]; exact Hm | ].
      apply runs_post with (Q := fun _ => window_empty); [ | apply runs_send_pending_combos].
      intros _ w Hw. apply window_empty_bounded, Hw.
    + apply runs_arm_bounded.
Qed.

(** The same for [on_release]. *)
Lemma on_release_runs (n b : nat) key co :
  (S b <= n)%nat -> copes_below pk (S b) ->
  runs (window_bounded b) (on_release pk n key co) (fun _ => window_bounded (S b)).
Proof.
  intros Hn Hc. unfold on_release.
  apply runs_bind with (Mid := window_bounded b); [apply runs_cancel_bounded | intros _].
  unfold ticks_ms. apply runs_bind_get. intros now. apply runs_bind_get. intros len.
  apply runs_bind with (Mid := window_bounded b).
  { apply runs_pre with (P := window_bounded b); [intros w H; apply H | ].
    apply (runs_for_fold_seq (fun _ => window_bounded b)
             (on_release_combo key co) len 0%nat (0, true, false)).
    intros j a _.
    apply (combo_runs any_combo (fun w => (length (_key_buffer w) <= b)%nat));
      [apply combo_on_release_combo | apply keeps_count_on_release_combo | ].
    intros w w' H. rewrite H. auto. }
  intros [[lt pr] br]. apply runs_bind_get. intros buf.
  apply runs_bind with (Mid := window_bounded (S b)).
  { destruct (press_vs_released buf key co >? 0).
    - apply runs_bind with (Mid := window_bounded (S b)).
      + apply runs_modify. intros w [[Hm Hb] _]. split; [exact Hm | ].
        cbn [_key_buffer set_key_buffer]. rewrite length_app. simpl. lia.
      + intros _. apply runs_ret. auto.
    - apply runs_ret. intros w [H _]. revert H. apply window_bounded_weaken. lia. }
  intros pr'. apply runs_bind_get. intros mc.
  apply runs_bind with (Mid := window_bounded (S b)).
  { apply runs_pre with (P := window_bounded (S b)); [intros w H; apply H | ].
    destruct (mc =? 0).
    - apply runs_bind with (Mid := window_bounded (S b));
        [apply runs_reset_combos_bounded | intros _].
      apply runs_modify. intros w [Hm _]. split; [exact Hm | simpl; lia].
    - destruct (negb (lt =? 0)).
      + apply runs_arm_bounded.
      + apply runs_post with (Q := fun _ => window_empty);
          [ | apply flush_buffers_runs; [exact Hn | exact Hc]].
        intros _ w Hw. apply window_empty_bounded, Hw. }
  intros _. apply runs_when. intros _. apply runs_resume_bounded.
Qed.

End Termination.

(** [process_key] with more fuel than events are buffered, and one to
    spare, is not cut short and adds at most one event to the buffer. *)
Lemma process_key_runs (fuel : nat) :
  forall b key is_pressed co,
    (b + 2 <= fuel)%nat ->
    runs (window_bounded b) (process_key fuel key is_pressed co)
         (fun _ => window_bounded (S b)).
Proof.
  induction fuel as [| fuel IH]; intros b key p co Hb; [lia | ].
  assert (Hc : copes_below (process_key fuel) (S b)).
  { intros j k q c Hj. apply IH. lia. }
  simpl. destruct p.
  - apply on_press_runs; [lia | exact Hc].
  - apply on_release_runs; [lia | exact Hc].
Qed.

(** [on_timeout] with as much fuel as events are buffered is not cut
    short and empties the buffer. *)
Lemma on_timeout_runs (fuel b : nat) :
  (b <= fuel)%nat -> runs (window_bounded b) (on_timeout fuel) (fun _ => window_empty).
Proof.
  intros Hb. unfold on_timeout.
  apply runs_bind with (Mid := window_bounded b).
  - apply runs_modify. intros w H. exact H.
  - intros _. apply flush_buffers_runs; [exact Hb | ].
    intros j k p c Hj. apply process_key_runs. lia.
Qed.

(* ------------------------------------------------------------------ *)
(** ** Keys that no combo uses *)

Lemma unused_no_head (c : Combo) key co r0 rest :
  match_ c = r0 :: rest -> has_match c key co = false ->
  negb (_match_coord c) && ref_eqb r0 (RKey key)
  || _match_coord c && ref_is_coord r0 co = false.
Proof.
  intros Hm Hh. unfold has_match in Hh. rewrite Hm in Hh.
  apply orb_false_iff in Hh. destruct Hh as [H1 H2].
  unfold key_in in H2. cbn [existsb] in H2.
  apply orb_false_iff in H2. destruct H2 as [H2 _].
  rewrite (ref_eqb_sym r0), H2, andb_false_r. cbn [orb].
  destruct (_match_coord c); [ | reflexivity]. rewrite andb_true_l in *.
  destruct co as [z |]; [ | reflexivity]. unfold coord_in in H1. unfold ref_is_coord.
  cbn [existsb] in H1. apply orb_false_iff in H1. destruct H1 as [H1 _].
  rewrite ref_eqb_sym. exact H1.
Qed.

Lemma matches_unused (i : nat) key co (w : World) (c : Combo) :
  nth_error (combos w) i = Some c -> is_reset c -> has_match c key co = false ->
  matches i key co w = (Returned false, w).
Proof.
  intros Hc (Hr & Hp & Hs) Hh. unfold matches, bind, combo_at. rewrite Hc.
  destruct (kind c).
  - unfold Chord_matches, bind, combo_at. rewrite Hc, Hr.
    unfold has_match in Hh. apply orb_false_iff in Hh. destruct Hh as [H1 H2].
    rewrite H1, H2, andb_false_r. reflexivity.
  - unfold Sequence_matches, bind, combo_at. rewrite Hc, Hr.
    destruct (match_ c) as [| r0 rest] eqn:Hm; [reflexivity | ].
    rewrite (unused_no_head c key co r0 rest Hm Hh). reflexivity.
Qed.

Lemma uses_match_unused (i : nat) key co (w : World) (c : Combo) :
  nth_error (combos w) i = Some c -> has_match c key co = false ->
  uses_match i key co w = (Returned false, w).
Proof.
  intros Hc Hh. unfold uses_match, bind, combo_at. rewrite Hc, Hh.
  destruct (kind c); reflexivity.
Qed.

Lemma reset_combo_fixed (c : Combo) : is_reset c -> reset_combo c = c.
Proof.
  intros (Hr & Hp & Hs). unfold reset_combo. destruct c; simpl in *. subst. reflexivity.
Qed.

Lemma reprime_retire (c : Combo) : settled c -> reprime (retire c) = c.
Proof.
  intros [Ha | Hr]; unfold retire, reprime, is_matching.
  - rewrite Ha. simpl. rewrite Ha. reflexivity.
  - pose proof Hr as (_ & _ & Hs). rewrite Hs. simpl.
    rewrite (reset_combo_fixed c Hr). destruct Hr as (Hr & Hp & _).
    unfold reset_combo. destruct c; simpl in *. subst. reflexivity.
Qed.

Lemma count_stale_retire (l : list Combo) :
  (forall c, In c l -> settled c) ->
  count_stale (map retire l) = count_matching l.
Proof.
  induction l as [| c l IH]; intros H; simpl; [reflexivity | ].
  rewrite IH by (intros x Hx; apply H; right; exact Hx). f_equal.
  destruct (H c (or_introl eq_refl)) as [Ha | (_ & _ & Hs)];
    unfold retire, is_matching.
  - rewrite Ha. simpl. rewrite Ha. reflexivity.
  - rewrite Hs. reflexivity.
Qed.

Lemma on_press_combo_unused key co d1 d2 acc (done rest : list Combo) (c : Combo)
      (w : World) :
  combos w = done ++ c :: rest -> settled c -> has_match c key co = false ->
  on_press_combo key co d1 d2 acc (length done) w
  = (Returned acc,
     set_match_count (Combos_match_count w - (if is_matching c then 1 else 0))
       (set_combos (done ++ retire c :: rest) w)).
Proof.
  intros Hw Hset Hh.
  assert (Hc : nth_error (combos w) (length done) = Some c)
    by (rewrite Hw; apply nth_error_middle).
  unfold on_press_combo. destruct acc as [lt mu].
  unfold bind at 1. unfold combo_at at 1. rewrite Hc.
  destruct Hset as [Ha | Hr].
  - unfold retire, is_matching. rewrite Ha. simpl.
    destruct w; simpl in *; subst. same_world.
  - pose proof Hr as (_ & _ & Hs). rewrite Hs. simpl.
    unfold bind at 1. rewrite (matches_unused _ key co w c Hc Hr Hh).
    unfold bind at 1. unfold combo_at at 1. rewrite Hc. simpl.
    unfold bind at 1. rewrite (reset_fixed _ w c Hc Hr).
    unfold bind at 1. unfold set_state, bind. unfold combo_at at 1. rewrite Hc, Hs.
    simpl. unfold update_combo, modify. cbn [combos set_match_count set_combos].
    rewrite Hw, list_update_app.
    unfold retire, is_matching. rewrite Hs. simpl.
    rewrite (reset_combo_fixed c Hr).
    destruct w; simpl in *; subst. same_world.
Qed.

Lemma on_press_loop_unused key co d1 d2 acc (rest : list Combo) :
  forall (done : list Combo) (w : World),
    combos w = done ++ rest ->
    (forall c, In c rest -> settled c /\ has_match c key co = false) ->
    for_fold (seq (length done) (length rest)) acc (on_press_combo key co d1 d2) w
    = (Returned acc,
       set_match_count (Combos_match_count w - count_matching rest)
         (set_combos (done ++ map retire rest) w)).
Proof.
  induction rest as [| c rest IH]; intros done w Hw H.
  - simpl. destruct w; simpl in *; subst. rewrite app_nil_r. same_world.
  - cbn [length seq for_fold]. unfold bind at 1.
    destruct (H c (or_introl eq_refl)) as [Hset Hh].
    rewrite (on_press_combo_unused key co d1 d2 acc done rest c w Hw Hset Hh).
    replace (S (length done)) with (length (done ++ [retire c]))
      by (rewrite length_app; simpl; lia).
    rewrite IH.
    + cbn [count_matching map]. destruct w; simpl in *. rewrite <- app_assoc.
      same_world.
    + simpl. rewrite <- app_assoc. reflexivity.
    + intros x Hx. apply H. right. exact Hx.
Qed.

Lemma for_fold_fixed {A B : Type} (l : list A) (acc : B) (body : B -> A -> M B)
      (w : World) :
  (forall x, In x l -> body acc x w = (Returned acc, w)) ->
  for_fold l acc body w = (Returned acc, w).
Proof.
  induction l as [| x l IH]; intros H; simpl.
  - reflexivity.
  - unfold bind. rewrite (H x (or_introl eq_refl)). apply IH.
    intros y Hy. apply H. right. exact Hy.
Qed.

Lemma on_release_loop_unused key co acc (w : World) :
  unused key co w ->
  for_fold (seq 0 (length (combos w))) acc (on_release_combo key co) w
  = (Returned acc, w).
Proof.
  intros Hu. apply for_fold_fixed. intros i Hi. apply in_seq in Hi.
  destruct (nth_error (combos w) i) as [c |] eqn:Hc.
  - unfold on_release_combo, bind.
    rewrite (uses_match_unused i key co w c Hc (Hu c (nth_error_In _ _ Hc))).
    reflexivity.
  - apply nth_error_None in Hc. lia.
Qed.

Lemma flush_while_empty pk (n : nat) (w : World) :
  _key_buffer w = [] -> flush_while pk n w = (Returned tt, w).
Proof. intros H. destruct n; simpl; unfold bind, get; rewrite H; reflexivity. Qed.

Lemma downstream_cancel (w : World) :
  downstream (snd (cancel_outstanding w)) = downstream w.
Proof. unfold cancel_outstanding, bind, get. destruct (_timeout w); reflexivity. Qed.

Lemma bind_get {A B : Type} (g : World -> A) (f : A -> M B) (w : World) :
  bind (get g) f w = f (g w) w.
Proof. reflexivity. Qed.

Lemma bind_modify {B : Type} (g : World -> World) (f : unit -> M B) (w : World) :
  bind (modify g) f w = f tt (g w).
Proof. reflexivity. Qed.

Lemma bind_ret {A B : Type} (a : A) (f : A -> M B) (w : World) :
  bind (ret a) f w = f a w.
Proof. reflexivity. Qed.

Lemma cancel_outstanding_fields (w : World) :
  combos (snd (cancel_outstanding w)) = combos w
  /\ Combos_match_count (snd (cancel_outstanding w)) = Combos_match_count w
  /\ _key_buffer (snd (cancel_outstanding w)) = _key_buffer w
  /\ _pending_combos (snd (cancel_outstanding w)) = _pending_combos w
  /\ start_timepoint (snd (cancel_outstanding w)) = start_timepoint w
  /\ ticks (snd (cancel_outstanding w)) = ticks w.
Proof.
  unfold cancel_outstanding, bind, get. destruct (_timeout w); repeat split.
Qed.

(** The part of [on_press] after the timer was cancelled and the start of
    the window was fixed, for a key that no combo uses. *)
Lemma on_press_unused_from (pk : Key -> bool -> Coord -> M unit) (n : nat) key co
      (w : World) (t0 : Z) :
  match_count_ok w -> all_settled w -> unused key co w -> _key_buffer w = [] ->
  start_timepoint w = Some t0 ->
  exists w',
    (buf <- get _key_buffer ;;
     st <- get start_timepoint ;;
     let last_timepoint := if nonempty buf then last_timestamp buf else st in
     modify (set_pending_combos []) ;;
     d_last <- elapsed (ticks w) last_timepoint ;;
     st <- get start_timepoint ;;
     d_start <- elapsed (ticks w) st ;;
     len <- get (fun w => length (combos w)) ;;
     '(longest_timeout, matching_unfinished) <-
       for_fold (seq 0 len) (0, 0) (on_press_combo key co d_last d_start) ;;
     mc <- get Combos_match_count ;;
     if mc =? 0 then
       pending <- get _pending_combos ;;
       buf <- get _key_buffer ;;
       if nonempty pending || nonempty buf then
         flush_buffers pk n ;;
         modify (set_self_start_timepoint (Some (Some (ticks w)))) ;;
         pk key true co
       else
         resume_process_key key true co ;;
         reset_combos
     else
       modify (fun w0 => set_key_buffer
                          (_key_buffer w0 ++ [(co, key, true, ticks w)]) w0) ;;
       if matching_unfinished =? 0 then send_pending_combos
       else arm_timeout longest_timeout) w
    = (Returned tt, w')
    /\ downstream w' = downstream w ++ [(key, true)]
    /\ combos w' = combos w
    /\ Combos_match_count w' = Combos_match_count w
    /\ _key_buffer w' = [] /\ _pending_combos w' = []
    /\ start_timepoint w' = Some t0.
Proof.
  intros Hm Hs Hu Hb Hst.
  rewrite bind_get, Hb. rewrite bind_get, Hst. cbv zeta. cbn [nonempty].
  rewrite bind_modify.
  assert (Hst' : start_timepoint (set_pending_combos [] w) = Some t0) by exact Hst.
  unfold elapsed at 1. rewrite bind_ret. rewrite bind_get, Hst'.
  unfold elapsed at 1. rewrite bind_ret. rewrite bind_get.
  cbn [combos set_pending_combos].
  unfold bind at 1.
  rewrite (on_press_loop_unused key co _ _ (0, 0) (combos w) [] (set_pending_combos [] w)
             eq_refl (fun c Hc => conj (Hs c Hc) (Hu c Hc))).
  rewrite bind_get. cbn [Combos_match_count set_match_count set_combos set_pending_combos].
  replace (Combos_match_count w - count_matching (combos w)) with 0
    by (unfold match_count_ok in Hm; lia).
  cbn [Z.eqb]. rewrite bind_get.
  cbn [_pending_combos set_match_count set_combos set_pending_combos].
  rewrite bind_get.
  cbn [_key_buffer set_match_count set_combos set_pending_combos]. rewrite Hb.
  cbn [nonempty orb]. unfold resume_process_key. rewrite bind_modify.
  rewrite reset_combos_eq.
  eexists. split; [reflexivity | ].
  cbn. rewrite map_map. split_all.
  - reflexivity.
  - rewrite <- (map_id (combos w)) at 2. apply map_ext_in.
    intros c Hc. apply reprime_retire, Hs, Hc.
  - rewrite (count_stale_retire _ Hs). symmetry. exact Hm.
  - exact Hb.
  - reflexivity.
  - exact Hst.
Qed.

(** X10. A key that no combo uses, pressed while nothing is buffered and
    every combo is ACTIVE or freshly reset, is forwarded at once and once.
    The combos, [match_count] and the empty buffer are as before; the start
    of the window stays where it was, or is the time of this press when
    there was none. *)
Theorem unused_press_passes_through (w : World) (fuel : nat) (key : Key) (co : Coord) :
  match_count_ok w -> all_settled w -> unused key co w -> _key_buffer w = [] ->
  exists w',
    process_key (S fuel) key true co w = (Returned tt, w')
    /\ downstream w' = downstream w ++ [(key, true)]
    /\ combos w' = combos w
    /\ Combos_match_count w' = Combos_match_count w
    /\ _key_buffer w' = [] /\ _pending_combos w' = []
    /\ start_timepoint w' = Some (or_default (start_timepoint w) (ticks w)).
Proof.
  intros Hm Hs Hu Hb. cbn [process_key]. unfold on_press.
  rewrite (bind_after _ _ _ _ _ (cancel_outstanding_eq w)).
  destruct (cancel_outstanding_fields w) as (Hc1 & Hm1 & Hb1 & _ & Hst1 & Ht1).
  pose proof (downstream_cancel w) as Hd1.
  set (w1 := snd (cancel_outstanding w)) in *.
  assert (Hm' : match_count_ok w1) by (unfold match_count_ok; rewrite Hm1, Hc1; exact Hm).
  assert (Hs' : all_settled w1) by (unfold all_settled; rewrite Hc1; exact Hs).
  assert (Hu' : unused key co w1) by (unfold unused; rewrite Hc1; exact Hu).
  assert (Hb' : _key_buffer w1 = []) by (rewrite Hb1; exact Hb).
  unfold ticks_ms. rewrite bind_get. rewrite bind_get.
  destruct (start_timepoint w1) as [t0 |] eqn:Hst.
  - cbn [when]. rewrite bind_ret.
    destruct (on_press_unused_from (process_key fuel) fuel key co w1 t0 Hm' Hs' Hu' Hb' Hst)
      as (w' & Hrun & Hd & Hc & Hmc & Hbuf & Hp & Hstart).
    exists w'. split; [exact Hrun | ].
    rewrite Hd, Hd1, Hc, Hc1, Hmc, Hm1, Hstart, Hbuf, Hp, <- Hst1. split_all; reflexivity.
  - cbn [when]. rewrite bind_modify.
    destruct (on_press_unused_from (process_key fuel) fuel key co
                (set_self_start_timepoint (Some (Some (ticks w1))) w1) (ticks w1)
                Hm' Hs' Hu' Hb' eq_refl)
      as (w' & Hrun & Hd & Hc & Hmc & Hbuf & Hp & Hstart).
    exists w'. split; [exact Hrun | ].
    rewrite Hd, Hc, Hmc, Hstart, Hbuf, Hp, <- Hst1, <- Ht1.
    cbn [combos Combos_match_count set_self_start_timepoint or_default].
    rewrite Hc1, Hm1. unfold downstream in *. cbn [kbd_log set_self_start_timepoint].
    rewrite Hd1. split_all; reflexivity.
Qed.

Lemma unused_press_passes_through_witness :
  exists w',
    process_key 1 KC_C true None (booted [chord_AB]) = (Returned tt, w')
    /\ downstream w' = downstream (booted [chord_AB]) ++ [(KC_C, true)]
    /\ combos w' = combos (booted [chord_AB])
    /\ Combos_match_count w' = Combos_match_count (booted [chord_AB])
    /\ _key_buffer w' = [] /\ _pending_combos w' = []
    /\ start_timepoint w'
       = Some (or_default (start_timepoint (booted [chord_AB])) (ticks (booted [chord_AB]))).
Proof.
  apply (unused_press_passes_through (booted [chord_AB]) 0 KC_C None).
  - reflexivity.
  - intros c [<- | []]. right. repeat split.
  - intros c [<- | []]. reflexivity.
  - reflexivity.
Defined.

(** X11. The release of a key that no combo uses, arriving while nothing is
    buffered or pending, is forwarded at once and once. When [match_count]
    is zero the combos are reset as by [reset_combos], otherwise they are
    left alone. *)
Theorem unused_release_passes_through (w : World) (fuel : nat) (key : Key) (co : Coord) :
  unused key co w -> _key_buffer w = [] -> _pending_combos w = [] ->
  exists w',
    process_key (S fuel) key false co w = (Returned tt, w')
    /\ downstream w' = downstream w ++ [(key, false)]
    /\ combos w' = (if Combos_match_count w =? 0 then map reprime (combos w)
                    else combos w)
    /\ _key_buffer w' = [] /\ _pending_combos w' = [].
Proof.
  intros Hu Hb Hp. cbn [process_key]. unfold on_release.
  rewrite (bind_after _ _ _ _ _ (cancel_outstanding_eq w)).
  destruct (cancel_outstanding_fields w) as (Hc1 & Hm1 & Hb1 & Hp1 & _ & _).
  pose proof (downstream_cancel w) as Hd1.
  set (w1 := snd (cancel_outstanding w)) in *.
  assert (Hu' : unused key co w1) by (unfold unused; rewrite Hc1; exact Hu).
  rewrite Hb in Hb1. rewrite Hp in Hp1.
  unfold ticks_ms. rewrite bind_get. rewrite bind_get.
  unfold bind at 1. rewrite (on_release_loop_unused key co _ w1 Hu').
  rewrite bind_get, Hb1. cbn [press_vs_released filter map fold_right Z.gtb Z.compare].
  rewrite bind_ret. rewrite bind_get. rewrite Hm1.
  destruct (Combos_match_count w =? 0).
  - unfold bind. rewrite reset_combos_eq. cbn.
    eexists. split; [reflexivity | ]. cbn. fold (downstream w1).
    rewrite Hd1, Hc1, Hp1. split_all; reflexivity.
  - cbn [Z.eqb negb]. unfold flush_buffers. unfold bind at 1.
    rewrite bind_get, Hp1. cbn [nonempty when]. rewrite bind_ret.
    rewrite (flush_while_empty _ _ _ Hb1). cbn.
    eexists. split; [reflexivity | ]. cbn. fold (downstream w1).
    rewrite Hd1, Hc1, Hp1, Hb1. split_all; reflexivity.
Qed.

Lemma unused_release_passes_through_witness :
  exists w',
    process_key 1 KC_C false None (booted [chord_AB]) = (Returned tt, w')
    /\ downstream w' = downstream (booted [chord_AB]) ++ [(KC_C, false)]
    /\ combos w' = (if Combos_match_count (booted [chord_AB]) =? 0
                    then map reprime (combos (booted [chord_AB]))
                    else combos (booted [chord_AB]))
    /\ _key_buffer w' = [] /\ _pending_combos w' = [].
Proof.
  apply (unused_release_passes_through (booted [chord_AB]) 0 KC_C None).
  - intros c [<- | []]. reflexivity.
  - reflexivity.
  - reflexivity.
Defined.

(* ------------------------------------------------------------------ *)
(** ** What [send_pending_combos] forwards *)

Lemma nth_error_same_config (l l' : list Combo) (i : nat) (c : Combo) :
  map config l' = map config l -> nth_error l i = Some c ->
  exists c', nth_error l' i = Some c' /\ config c' = config c.
Proof.
  intros Hm Hc.
  assert (H : nth_error (map config l') i = Some (config c)).
  { rewrite Hm, nth_error_map, Hc. reflexivity. }
  rewrite nth_error_map in H. destruct (nth_error l' i) as [c' |]; [ | discriminate].
  exists c'. split; [reflexivity | ]. simpl in H. congruence.
Qed.

Lemma combo_output_config (items : Balance) (c c' : Combo) :
  config c' = config c -> combo_output items c' = combo_output items c.
Proof.
  unfold config. intros [= Hk Hm Hr Hf Hp Ht Hc].
  unfold combo_output, released_in, has_match. rewrite Hr, Hm, Hc. reflexivity.
Qed.

Lemma set_state_returns (i : nat) (s : ComboState) (w : World) (c : Combo) :
  nth_error (combos w) i = Some c ->
  exists w',
    set_state i s w = (Returned tt, w')
    /\ kbd_log w' = kbd_log w
    /\ map config (combos w') = map config (combos w).
Proof.
  intros Hc. destruct (quiet_set_state any_combo i I s w) as [_ Hq].
  destruct Hq as (_ & _ & _ & _ & _ & _ & _ & Hlog & Hcfg & _).
  assert (Hr : fst (set_state i s w) = Returned tt).
  { unfold set_state, bind, combo_at. rewrite Hc.
    destruct (state_eqb (_state c) s); [reflexivity | ].
    destruct (state_eqb s MATCHING), (state_eqb (_state c) MATCHING); reflexivity. }
  destruct (set_state i s w) as [o w']. simpl in *. subst o.
  exists w'. split_all; [reflexivity | exact Hlog | exact Hcfg].
Qed.

Lemma deactivate_if_released_output (i : nat) (c : Combo) (items : Balance) :
  forall w,
    nth_error (combos w) i = Some c ->
    exists w',
      deactivate_if_released i items w = (Returned tt, w')
      /\ downstream w'
         = downstream w ++ (if released_in items c then [(result c, false)] else [])
      /\ map config (combos w') = map config (combos w).
Proof.
  induction items as [| [[bc bk] n] items IH]; intros w Hc.
  - exists w. simpl. rewrite app_nil_r. split_all; reflexivity.
  - cbn [deactivate_if_released released_in existsb]. unfold bind at 1.
    unfold combo_at at 1. rewrite Hc.
    destruct ((n <=? 0) && has_match c bk bc).
    + unfold deactivate, bind at 1. unfold bind at 1. unfold combo_at at 1. rewrite Hc.
      unfold resume_process_key, modify.
      destruct (set_state_returns i RESET
                  (set_kbd (ResumeProcessKey (result c) false None :: kbd_log w)
                           (kbd_next w) w) c Hc) as (w' & Hrun & Hlog & Hcfg).
      exists w'. split_all; [exact Hrun | | exact Hcfg].
      unfold downstream. rewrite Hlog. reflexivity.
    + apply IH, Hc.
Qed.

Lemma send_pending_body_output (i : nat) (c : Combo) (items : Balance) (w : World) :
  nth_error (combos w) i = Some c ->
  exists w',
    (activate i ;; set_state i ACTIVE ;; deactivate_if_released i items) w
    = (Returned tt, w')
    /\ downstream w' = downstream w ++ combo_output items c
    /\ map config (combos w') = map config (combos w).
Proof.
  intros Hc. unfold activate. unfold bind at 1. unfold bind at 1.
  unfold combo_at at 1. rewrite Hc. unfold resume_process_key, modify.
  destruct (set_state_returns i ACTIVE
              (set_kbd (ResumeProcessKey (result c) true None :: kbd_log w)
                       (kbd_next w) w) c Hc) as (w1 & Hrun1 & Hlog1 & Hcfg1).
  unfold bind. rewrite Hrun1.
  destruct (nth_error_same_config _ _ i c Hcfg1 Hc) as (c1 & Hc1 & He1).
  destruct (deactivate_if_released_output i c1 items w1 Hc1) as (w2 & Hrun2 & Hd2 & Hcfg2).
  exists w2. split_all; [exact Hrun2 | | rewrite Hcfg2, Hcfg1; reflexivity].
  rewrite Hd2. unfold downstream. rewrite Hlog1. cbn [kbd_log set_kbd forwarded].
  pose proof (combo_output_config items c c1 He1) as Ho. unfold combo_output in *.
  injection Ho as Hres Hrel. rewrite <- app_assoc. cbn [app].
  rewrite Hrel. reflexivity.
Qed.

Lemma send_pending_loop_output (w0 : World) (items : Balance) (pending : list nat) :
  forall w,
    map config (combos w) = map config (combos w0) ->
    (forall i, In i pending -> (i < length (combos w0))%nat) ->
    exists w',
      for_each pending
        (fun i => activate i ;; set_state i ACTIVE ;; deactivate_if_released i items) w
      = (Returned tt, w')
      /\ downstream w'
         = downstream w
           ++ flat_map (fun i => match nth_error (combos w0) i with
                                 | Some c => combo_output items c
                                 | None => []
                                 end) pending.
Proof.
  induction pending as [| i pending IH]; intros w Hcfg Hin.
  - exists w. simpl. rewrite app_nil_r. split; reflexivity.
  - destruct (nth_error (combos w0) i) as [c0 |] eqn:Hc0.
    2:{ apply nth_error_None in Hc0. specialize (Hin i (or_introl eq_refl)). lia. }
    destruct (nth_error_same_config _ _ i c0 Hcfg Hc0) as (c & Hc & He).
    destruct (send_pending_body_output i c items w Hc) as (w1 & Hrun1 & Hd1 & Hcfg1).
    destruct (IH w1) as (w2 & Hrun2 & Hd2).
    { congruence. }
    { intros j Hj. apply Hin. right. exact Hj. }
    exists w2. cbn [for_each]. unfold bind at 1. rewrite Hrun1.
    split; [exact Hrun2 | ].
    rewrite Hd2, Hd1. cbn [flat_map]. rewrite Hc0, <- app_assoc.
    rewrite (combo_output_config items c0 c He). reflexivity.
Qed.

Lemma reprime_settled (c : Combo) : settled (reprime c).
Proof.
  unfold reprime. destruct (state_eqb (_state c) ACTIVE) eqn:Hs.
  - left. apply state_eqb_eq, Hs.
  - right. repeat split.
Qed.

(** X12. With every pending combo in the registry, [send_pending_combos]
    returns. It forwards, for the pending combos in their order, the press
    of the result, and its release when a key of the combo was released in
    the buffer at least as often as it was pressed; no buffered event is
    forwarded. It leaves the buffer and the pending combos empty, no start
    of the window, and every combo ACTIVE or freshly reset. *)
Theorem send_pending_combos_output (w : World) :
  (forall i, In i (_pending_combos w) -> (i < length (combos w))%nat) ->
  exists w',
    send_pending_combos w = (Returned tt, w')
    /\ downstream w' = downstream w ++ flat_map (pending_output w) (_pending_combos w)
    /\ _key_buffer w' = [] /\ _pending_combos w' = []
    /\ start_timepoint w' = None
    /\ forall c, In c (combos w') -> settled c.
Proof.
  intros Hin. unfold send_pending_combos. rewrite bind_get. cbv zeta. rewrite bind_get.
  destruct (send_pending_loop_output w (buffer_pressed_vs_released (_key_buffer w))
              (_pending_combos w) w eq_refl Hin) as (w1 & Hrun & Hd).
  unfold bind at 1. rewrite Hrun. rewrite !bind_modify.
  unfold bind. rewrite reset_combos_eq. unfold modify.
  eexists. split; [reflexivity | ]. split_all.
  - unfold downstream in *. cbn. exact Hd.
  - reflexivity.
  - reflexivity.
  - reflexivity.
  - cbn. intros c Hc. apply in_map_iff in Hc. destruct Hc as (c0 & <- & _).
    apply reprime_settled.
Qed.

Lemma send_pending_combos_output_witness :
  exists w',
    send_pending_combos (set_pending_combos [0%nat] (booted [chord_AB]))
    = (Returned tt, w')
    /\ downstream w'
       = downstream (set_pending_combos [0%nat] (booted [chord_AB]))
         ++ flat_map (pending_output (set_pending_combos [0%nat] (booted [chord_AB])))
              (_pending_combos (set_pending_combos [0%nat] (booted [chord_AB])))
    /\ _key_buffer w' = [] /\ _pending_combos w' = []
    /\ start_timepoint w' = None
    /\ forall c, In c (combos w') -> settled c.
Proof.
  apply (send_pending_combos_output (set_pending_combos [0%nat] (booted [chord_AB]))).
  intros i [<- | []]. simpl. lia.
Defined.

(* ------------------------------------------------------------------ *)
(** ** The calls from the keyboard end *)

(** X13. [process_key] ends. After any series of calls on a freshly
    constructed engine, a call of [process_key] goes through [on_press],
    [on_release] and [flush_buffers] back into [process_key] to a depth of
    at most the number of buffered events plus two: with that much fuel it
    is not cut short. When it returns, at most one more event is
    buffered. *)
Theorem process_key_ends (defs : list ComboDef) (cs : list Call) (fuel : nat)
        (key : Key) (is_pressed : bool) (int_coord : Coord) :
  (length (_key_buffer (drive cs (fresh defs))) + 2 <= fuel)%nat ->
  fst (process_key fuel key is_pressed int_coord (drive cs (fresh defs))) <> OutOfFuel
  /\ (fst (process_key fuel key is_pressed int_coord (drive cs (fresh defs))) = Returned tt ->
      (length (_key_buffer
                 (snd (process_key fuel key is_pressed int_coord (drive cs (fresh defs)))))
       <= S (length (_key_buffer (drive cs (fresh defs)))))%nat).
Proof.
  intros Hfuel.
  assert (Hm : match_count_ok (drive cs (fresh defs)))
    by (apply drive_keeps; [exact match_count_ok_call | apply match_count_ok_fresh]).
  pose proof (process_key_runs fuel _ key is_pressed int_coord Hfuel
                (drive cs (fresh defs)) (conj Hm (le_n _))) as H.
  destruct (process_key fuel key is_pressed int_coord (drive cs (fresh defs)))
    as [[[] | e |] w']; simpl.
  - split; [discriminate | intros _; apply H].
  - split; discriminate.
  - destruct H.
Qed.

Lemma process_key_ends_witness :
  fst (process_key 2 KC_A true None (drive [Bootup] (fresh scenario_registry))) <> OutOfFuel
  /\ (fst (process_key 2 KC_A true None (drive [Bootup] (fresh scenario_registry)))
      = Returned tt ->
      (length (_key_buffer
                 (snd (process_key 2 KC_A true None
                         (drive [Bootup] (fresh scenario_registry)))))
       <= S (length (_key_buffer (drive [Bootup] (fresh scenario_registry)))))%nat).
Proof.
  apply (process_key_ends scenario_registry [Bootup] 2 KC_A true None). simpl. lia.
Defined.

(** X14. [on_timeout] ends. After any series of calls on a freshly
    constructed engine, with as much fuel as events are buffered it is not
    cut short, and when it returns the buffer is empty. *)
Theorem on_timeout_ends (defs : list ComboDef) (cs : list Call) (fuel : nat) :
  (length (_key_buffer (drive cs (fresh defs))) <= fuel)%nat ->
  fst (on_timeout fuel (drive cs (fresh defs))) <> OutOfFuel
  /\ (fst (on_timeout fuel (drive cs (fresh defs))) = Returned tt ->
      _key_buffer (snd (on_timeout fuel (drive cs (fresh defs)))) = []).
Proof.
  intros Hfuel.
  assert (Hm : match_count_ok (drive cs (fresh defs)))
    by (apply drive_keeps; [exact match_count_ok_call | apply match_count_ok_fresh]).
  pose proof (on_timeout_runs fuel _ Hfuel (drive cs (fresh defs)) (conj Hm (le_n _))) as H.
  destruct (on_timeout fuel (drive cs (fresh defs))) as [[[] | e |] w']; simpl.
  - split; [discriminate | intros _; apply H].
  - split; discriminate.
  - destruct H.
Qed.

Lemma on_timeout_ends_witness :
  fst (on_timeout 1 (drive [Bootup; Entered 2 (Press KC_A None 0)] (fresh scenario_registry)))
  <> OutOfFuel
  /\ (fst (on_timeout 1 (drive [Bootup; Entered 2 (Press KC_A None 0)]
                           (fresh scenario_registry))) = Returned tt ->
      _key_buffer (snd (on_timeout 1 (drive [Bootup; Entered 2 (Press KC_A None 0)]
                                        (fresh scenario_registry)))) = []).
Proof.
  apply (on_timeout_ends scenario_registry [Bootup; Entered 2 (Press KC_A None 0)] 1).
  simpl. lia.
Defined.
